(** * effect-docgen: a shallow embedding of [Core.ts] and [Markdown.ts]

    The development follows the two TypeScript sources:
    - [Markdown.ts] (the rendering engine: [printModule] and its helpers);
    - [Core.ts] (example extraction, import rewriting, the type-check run,
      the site configuration and the output paths).

    JavaScript strings are modelled as [string] (8-bit code units), arrays as
    [list], [Option] as [option], a thrown [Error] as the [Throw] constructor
    of [Thrown], and an [Effect] as a function from the world (the file
    system) to an exit value and the new world. *)

From Stdlib Require Import Ascii DecimalString DecimalNat.
From stdpp Require Import base option list strings sorting gmap.

Local Open Scope stdpp_scope.

(** ** JavaScript strings *)

Module Js.

Definition LF : ascii := ascii_of_nat 10.
Definition CR : ascii := ascii_of_nat 13.

(** The one-character string holding a line feed, written "\n" in the source. *)
Definition nl : string := String LF "".

(** [Array.prototype.join]. *)
Fixpoint join (sep : string) (l : list string) : string :=
  match l with
  | [] => ""
  | [x] => x
  | x :: l' => x +:+ sep +:+ join sep l'
  end.

(** [String.prototype.repeat]. *)
Fixpoint repeat (s : string) (n : nat) : string :=
  match n with
  | 0 => ""
  | S n' => s +:+ repeat s n'
  end.

(** A number (here always a natural) inside a template literal. *)
Definition ofNat (n : nat) : string := NilZero.string_of_uint (Nat.to_uint n).

(** A boolean inside a template literal. *)
Definition ofBool (b : bool) : string := if b then "true" else "false".

(** [LineTerminator] of the language, within the 8-bit range. *)
Definition isLineTerminator (c : ascii) : bool :=
  bool_decide (c = LF) || bool_decide (c = CR).

(** [WhiteSpace] and [LineTerminator], within the 8-bit range: what [trim]
    strips and what the class [\s] matches. *)
Definition isSpace (c : ascii) : bool :=
  let n := nat_of_ascii c in
  bool_decide (9 ≤ n ≤ 13) || bool_decide (n = 32) || bool_decide (n = 160).

Fixpoint trimStart (s : string) : string :=
  match s with
  | String c s' => if isSpace c then trimStart s' else s
  | "" => ""
  end.

(** [String.prototype.trim]. *)
Definition trim (s : string) : string :=
  String.rev (trimStart (String.rev (trimStart s))).

Fixpoint startsWith (p s : string) : bool :=
  match p, s with
  | "", _ => true
  | String a p', String b s' => bool_decide (a = b) && startsWith p' s'
  | String _ _, "" => false
  end.

(** [String.prototype.indexOf] from position [i]; [None] stands for -1. *)
Fixpoint indexOfFrom (needle s : string) (i : nat) : option nat :=
  if startsWith needle s then Some i
  else match s with
       | "" => None
       | String _ s' => indexOfFrom needle s' (S i)
       end.

Definition indexOf (needle s : string) : option nat := indexOfFrom needle s 0.

(** [String.prototype.toLowerCase], on the ASCII letters. *)
Definition lowerChar (c : ascii) : ascii :=
  let n := nat_of_ascii c in
  if bool_decide (65 ≤ n ≤ 90) then ascii_of_nat (n + 32) else c.

Fixpoint toLowerCase (s : string) : string :=
  match s with
  | "" => ""
  | String c s' => String (lowerChar c) (toLowerCase s')
  end.

(** [String.prototype.includes]. *)
Definition includes (needle s : string) : bool :=
  bool_decide (is_Some (indexOf needle s)).

(** The double-quote character, as a one-character string. *)
Definition dq : string := String (ascii_of_nat 34) "".

(** The single-quote character, as a one-character string. *)
Definition sq : string := "'".

(** [String.Order] of effect: 0 on equal strings, otherwise by [<], the
    lexicographic order on code units. [Order.mapInput] applies it to a key;
    [leBy key a b] says the mapped order does not put [a] after [b]. *)
Definition leBy {A} (key : A → string) (a b : A) : bool :=
  String.leb (key a) (key b).

(** [Array.prototype.sort] is stable; a stable sort has one possible result
    for a given order, here computed by insertion. *)
Fixpoint insertBy {A} (le : A → A → bool) (x : A) (l : list A) : list A :=
  match l with
  | [] => [x]
  | y :: l' => if le x y then x :: l else y :: insertBy le x l'
  end.

Fixpoint sortBy {A} (le : A → A → bool) (l : list A) : list A :=
  match l with
  | [] => []
  | x :: l' => insertBy le x (sortBy le l')
  end.

(** An object used as a record: its entries, in the order the keys were
    first inserted. *)
Definition Record_ (A : Type) : Type := list (string * A).

(** The key whose assignment on a plain object goes to the setter that
    [Object.prototype] provides: it sets the prototype of the object and
    creates no own key. *)
Definition protoKey : string := "__proto__".

(** [out[k].push(a)] when [out] has the own key [k], [out[k] = [a]] when not;
    the assignment creates the own key [k], except for [protoKey], which
    never becomes an own key. *)
Fixpoint pushAt {A} (k : string) (a : A) (out : Record_ (list A)) : Record_ (list A) :=
  match out with
  | [] => if bool_decide (k = protoKey) then [] else [(k, [a])]
  | (k', g) :: out' =>
      if bool_decide (k' = k) then (k', g ++ [a]) :: out'
      else (k', g) :: pushAt k a out'
  end.

(** [ReadonlyArray.groupBy] of effect: one pass over the array. *)
Definition groupBy {A} (f : A → string) (l : list A) : Record_ (list A) :=
  foldl (λ out a, pushAt (f a) a out) [] l.

(** The order in which [Object.keys] (and so [ReadonlyRecord.toEntries])
    enumerates the own keys of an object: integer-like keys first, then the
    others in insertion order. The model keeps it abstract: any enumeration
    that lists every entry once. *)
Record KeyOrder := {
  enumerate : ∀ A, Record_ A → list (string * A);
  enumerate_perm : ∀ A (r : Record_ A), enumerate A r ≡ₚ r
}.

(** Plain insertion order: what an engine does when no key is integer-like. *)
Definition insertionOrder : KeyOrder :=
  {| enumerate := λ A r, r; enumerate_perm := λ A r, reflexivity r |}.

(** Another enumeration, used to compare results: the reverse order. *)
Definition reverseOrder : KeyOrder :=
  {| enumerate := λ A r, reverse r; enumerate_perm := λ A r, reverse_Permutation r |}.

(** The loop body of [String.stripMargin] of effect: on a line, the
    characters up to the first one above the space are skipped, and when
    that one is the margin character the line loses everything up to and
    including it. *)
Fixpoint marginRest (line : string) : option string :=
  match line with
  | "" => None
  | String c rest =>
      if bool_decide (nat_of_ascii c ≤ 32) then marginRest rest
      else if bool_decide (c = "|"%char) then Some rest else None
  end.

(** [linesWithSeparators] of effect: the lines of a text, each with its
    line break. A line ends after a line feed, after a carriage return, or
    after a carriage return and the line feed that follows it, taken
    together; a text that ends with a line break has no empty last line. *)
Fixpoint linesWithSeparators (cur s : string) : list string :=
  match s with
  | "" => if bool_decide (cur = "") then [] else [String.rev cur]
  | String c rest =>
      if bool_decide (c = LF) then String.rev (String c cur) :: linesWithSeparators "" rest
      else if bool_decide (c = CR) then
        match rest with
        | String c' rest' =>
            if bool_decide (c' = LF) then
              String.rev (String c' (String c cur)) :: linesWithSeparators "" rest'
            else String.rev (String c cur) :: linesWithSeparators "" rest
        | "" => [String.rev (String c cur)]
        end
      else linesWithSeparators (String c cur) rest
  end.

Definition stripMargin (s : string) : string :=
  join "" (map (λ line, default line (marginRest line)) (linesWithSeparators "" s)).

End Js.

(** ** Thrown errors *)

Inductive Thrown (A : Type) : Type :=
  | Ok (a : A)
  | Throw (message : string).
Arguments Ok {A} a.
Arguments Throw {A} message.

Global Instance Thrown_ret : MRet Thrown := λ _ a, Ok a.

Global Instance Thrown_bind : MBind Thrown := λ _ _ f x,
  match x with
  | Ok a => f a
  | Throw m => Throw m
  end.

(** [ReadonlyArray.map] with a callback that may throw: the callbacks run in
    array order and the first throw aborts the loop. *)
Fixpoint mapT {A B} (f : A → Thrown B) (l : list A) : Thrown (list B) :=
  match l with
  | [] => Ok []
  | x :: l' =>
      y ← f x;
      ys ← mapT f l';
      Ok (y :: ys)
  end.

(** ** Domain.ts: the data model *)

Module Domain.

Record Documentable := createDocumentable {
  name : string;
  description : option string;
  since : option string;
  deprecated : bool;
  examples : list string;
  category : option string
}.

Record Method := createMethod {
  method_doc : Documentable;
  method_signatures : list string
}.

Record Property := createProperty {
  property_doc : Documentable;
  property_signature : string
}.

Record Class := createClass {
  class_doc : Documentable;
  class_signature : string;
  methods : list Method;
  staticMethods : list Method;
  properties : list Property
}.

Record Interface := createInterface {
  interface_doc : Documentable;
  interface_signature : string
}.

Record Function := createFunction {
  function_doc : Documentable;
  function_signatures : list string
}.

Record TypeAlias := createTypeAlias {
  typeAlias_doc : Documentable;
  typeAlias_signature : string
}.

Record Constant := createConstant {
  constant_doc : Documentable;
  constant_signature : string
}.

Record Export := createExport {
  export_doc : Documentable;
  export_signature : string
}.

(** A namespace is a tree: it holds namespaces of its own. *)
#[warnings="-register-all"]
Inductive Namespace := createNamespace {
  namespace_doc : Documentable;
  ns_interfaces : list Interface;
  ns_typeAliases : list TypeAlias;
  ns_namespaces : list Namespace
}.

Record Module := createModule {
  module_doc : Documentable;
  path : list string;
  classes : list Class;
  interfaces : list Interface;
  functions : list Function;
  typeAliases : list TypeAlias;
  constants : list Constant;
  exports : list Export;
  namespaces : list Namespace
}.

End Domain.

(** ** Markdown.ts: the rendering engine *)

Module Markdown.
Import Domain.

Inductive Printable :=
  | PClass (c : Class)
  | PConstant (c : Constant)
  | PExport (e : Export)
  | PFunction (f : Function)
  | PInterface (i : Interface)
  | PTypeAlias (ta : TypeAlias)
  | PNamespace (ns : Namespace).

(** The [Documentable] part of a printable: every variant extends it. *)
Definition printable_doc (p : Printable) : Documentable :=
  match p with
  | PClass c => class_doc c
  | PConstant c => constant_doc c
  | PExport e => export_doc e
  | PFunction f => function_doc f
  | PInterface i => interface_doc i
  | PTypeAlias ta => typeAlias_doc ta
  | PNamespace ns => namespace_doc ns
  end.

(** The two libraries the module calls: [markdown-toc] (the [content] field
    of its result) and [Prettier.format] with the module's fixed options.
    Either may throw on a text it cannot handle. *)
Record Libs := {
  toc : string → Thrown string;
  prettier_format : string → Thrown string
}.

Definition bold (s : string) : string := "**" +:+ s +:+ "**".

Definition fence (language content : string) : string :=
  "```" +:+ language +:+ Js.nl +:+ content +:+ Js.nl +:+ "```" +:+ Js.nl +:+ Js.nl.

Definition paragraph (content : list string) : string :=
  Js.nl +:+ Js.join "" content +:+ Js.nl +:+ Js.nl.

Definition strikethrough (content : string) : string := "~~" +:+ content +:+ "~~".

Definition createHeader (level : nat) (content : string) : string :=
  Js.repeat "#" level +:+ " " +:+ content +:+ Js.nl +:+ Js.nl.

Definition h1 := createHeader 1.
Definition h2 := createHeader 2.
Definition h3 := createHeader 3.
Definition h4 := createHeader 4.

Definition getSince (v : option string) : string :=
  match v with
  | None => ""
  | Some v => paragraph ["Added in v" +:+ v]
  end.

Definition getTitle (s : string) (deprecated : bool) (type : option string) : string :=
  let name :=
    if bool_decide (Js.trim s = "hasOwnProperty") then s +:+ " (function)" else s in
  let title := if deprecated then strikethrough name else name in
  match type with
  | None => title
  | Some t => title +:+ " " +:+ t
  end.

Definition getDescription (d : option string) : string :=
  paragraph [default "" d].

Definition getSignature (s : string) : string :=
  paragraph [bold "Signature"] +:+ paragraph [fence "ts" s].

Definition getSignatures (ss : list string) : string :=
  paragraph [bold "Signature"] +:+ paragraph [fence "ts" (Js.join Js.nl ss)].

Definition getExamples (es : list string) : string :=
  Js.join (Js.nl +:+ Js.nl)
    (map (λ code, paragraph [bold "Example"] +:+ paragraph [fence "ts" code]) es).

Definition getStaticMethod (m : Method) : string :=
  let d := method_doc m in
  paragraph [
    h3 (getTitle (name d) (deprecated d) (Some "(static method)"));
    getDescription (description d);
    getSignatures (method_signatures m);
    getExamples (examples d);
    getSince (since d)
  ].

Definition getMethod (m : Method) : string :=
  let d := method_doc m in
  paragraph [
    h3 (getTitle (name d) (deprecated d) (Some "(method)"));
    getDescription (description d);
    getSignatures (method_signatures m);
    getExamples (examples d);
    getSince (since d)
  ].

Definition getProperty (p : Property) : string :=
  let d := property_doc p in
  paragraph [
    h3 (getTitle (name d) (deprecated d) (Some "(property)"));
    getDescription (description d);
    getSignature (property_signature p);
    getExamples (examples d);
    getSince (since d)
  ].

Definition getStaticMethods (ms : list Method) : string :=
  Js.join "" (map (λ m, getStaticMethod m +:+ Js.nl +:+ Js.nl) ms).

Definition getMethods (ms : list Method) : string :=
  Js.join "" (map (λ m, getMethod m +:+ Js.nl +:+ Js.nl) ms).

Definition getProperties (ps : list Property) : string :=
  Js.join "" (map (λ p, getProperty p +:+ Js.nl +:+ Js.nl) ps).

Definition getModuleDescription (m : Module) : string :=
  let d := module_doc m in
  paragraph [
    h2 (getTitle (name d) (deprecated d) (Some "overview"));
    getDescription (description d);
    getExamples (examples d);
    getSince (since d)
  ].

Definition getMeta (title : string) (order : nat) : string :=
  paragraph [
    "---"; Js.nl;
    "title: " +:+ title; Js.nl;
    "nav_order: " +:+ Js.ofNat order; Js.nl;
    "parent: Modules"; Js.nl;
    "---"
  ].

Definition fromClass (c : Class) : string :=
  let d := class_doc c in
  paragraph [
    paragraph [
      h2 (getTitle (name d) (deprecated d) (Some "(class)"));
      getDescription (description d);
      getSignature (class_signature c);
      getExamples (examples d);
      getSince (since d)
    ];
    getStaticMethods (staticMethods c);
    getMethods (methods c);
    getProperties (properties c)
  ].

Definition fromConstant (c : Constant) : string :=
  let d := constant_doc c in
  paragraph [
    h2 (getTitle (name d) (deprecated d) None);
    getDescription (description d);
    getSignature (constant_signature c);
    getExamples (examples d);
    getSince (since d)
  ].

Definition fromExport (e : Export) : string :=
  let d := export_doc e in
  paragraph [
    h2 (getTitle (name d) (deprecated d) None);
    getDescription (description d);
    getSignature (export_signature e);
    getExamples (examples d);
    getSince (since d)
  ].

Definition fromFunction (f : Function) : string :=
  let d := function_doc f in
  paragraph [
    h2 (getTitle (name d) (deprecated d) None);
    getDescription (description d);
    getSignatures (function_signatures f);
    getExamples (examples d);
    getSince (since d)
  ].

(** The [switch] falls through to the [throw] for every indentation other
    than 0, 1 and 2. *)
Definition getHeaderByIndentation (indentation : nat) : Thrown (string → string) :=
  match indentation with
  | 0 => Ok h2
  | 1 => Ok h3
  | 2 => Ok h4
  | _ => Throw ("Unsupported namespace nesting: " +:+ Js.ofNat (indentation + 1))
  end.

Definition fromInterface (i : Interface) (indentation : nat) : Thrown string :=
  let d := interface_doc i in
  header ← getHeaderByIndentation indentation;
  Ok (paragraph [
    header (getTitle (name d) (deprecated d) (Some "(interface)"));
    getDescription (description d);
    getSignature (interface_signature i);
    getExamples (examples d);
    getSince (since d)
  ]).

Definition fromTypeAlias (ta : TypeAlias) (indentation : nat) : Thrown string :=
  let d := typeAlias_doc ta in
  header ← getHeaderByIndentation indentation;
  Ok (paragraph [
    header (getTitle (name d) (deprecated d) (Some "(type alias)"));
    getDescription (description d);
    getSignature (typeAlias_signature ta);
    getExamples (examples d);
    getSince (since d)
  ]).

(** The arguments of the outer [paragraph] are evaluated left to right: the
    namespace's own heading, then its interfaces, its type aliases and its
    namespaces, all one level deeper. *)
Fixpoint fromNamespace (ns : Namespace) (indentation : nat) {struct ns} : Thrown string :=
  let d := namespace_doc ns in
  header ← getHeaderByIndentation indentation;
  let own := paragraph [
    header (getTitle (name d) (deprecated d) (Some "(namespace)"));
    getDescription (description d);
    getExamples (examples d);
    getSince (since d)
  ] in
  ins ← mapT (λ i, s ← fromInterface i (indentation + 1); Ok (s +:+ Js.nl +:+ Js.nl))
          (ns_interfaces ns);
  tas ← mapT (λ ta, s ← fromTypeAlias ta (indentation + 1); Ok (s +:+ Js.nl +:+ Js.nl))
          (ns_typeAliases ns);
  nss ← (fix go (l : list Namespace) : Thrown (list string) :=
           match l with
           | [] => Ok []
           | n :: l' =>
               s ← fromNamespace n (indentation + 1);
               ss ← go l';
               Ok ((s +:+ Js.nl +:+ Js.nl) :: ss)
           end) (ns_namespaces ns);
  Ok (paragraph [own; Js.join "" ins; Js.join "" tas; Js.join "" nss]).

Definition fromPrintable (p : Printable) : Thrown string :=
  match p with
  | PClass c => Ok (fromClass c)
  | PConstant c => Ok (fromConstant c)
  | PExport e => Ok (fromExport e)
  | PFunction f => Ok (fromFunction f)
  | PInterface i => fromInterface i 0
  | PTypeAlias ta => fromTypeAlias ta 0
  | PNamespace ns => fromNamespace ns 0
  end.

Definition getPrintables (m : Module) : list Printable :=
  concat [
    map PClass (classes m);
    map PConstant (constants m);
    map PExport (exports m);
    map PFunction (functions m);
    map PInterface (interfaces m);
    map PTypeAlias (typeAliases m);
    map PNamespace (namespaces m)
  ].

Definition DEFAULT_CATEGORY : string := "utils".

(** The key the printables are grouped by. *)
Definition categoryOf (p : Printable) : string :=
  default DEFAULT_CATEGORY (category (printable_doc p)).

Definition nameOf (p : Printable) : string := name (printable_doc p).

(** The grouped and sorted body of a module, before rendering: the entries
    of the grouping, sorted by category, each with its printables sorted by
    name. *)
Definition sections (K : Js.KeyOrder) (m : Module) : list (string * list Printable) :=
  map (λ e, (e.1, Js.sortBy (Js.leBy nameOf) e.2))
    (Js.sortBy (Js.leBy fst)
       (Js.enumerate K _ (Js.groupBy categoryOf (getPrintables m)))).

Definition renderSection (e : string * list Printable) : Thrown string :=
  rendered ← mapT fromPrintable e.2;
  Ok (Js.join Js.nl (h1 e.1 :: rendered)).

Definition renderContent (K : Js.KeyOrder) (m : Module) : Thrown string :=
  groups ← mapT renderSection (sections K m);
  Ok (Js.join Js.nl groups).

Definition tableOfContents (L : Libs) (content : string) : Thrown string :=
  entries ← toc L content;
  Ok ("<h2 class=" +:+ Js.dq +:+ "text-delta" +:+ Js.dq +:+ ">Table of contents</h2>"
        +:+ Js.nl +:+ Js.nl +:+ entries +:+ Js.nl +:+ Js.nl).

Definition prettify (L : Libs) (s : string) : Thrown string := prettier_format L s.

Definition printModule (L : Libs) (K : Js.KeyOrder) (m : Module) (order : nat)
    : Thrown string :=
  let header := getMeta (Js.join "/" (drop 1 (path m))) order in
  let description := paragraph [getModuleDescription m] in
  content ← renderContent K m;
  contents ← tableOfContents L content;
  prettify L (Js.join Js.nl [
    header;
    description;
    "---" +:+ Js.nl;
    contents;
    "---" +:+ Js.nl;
    content
  ]).

End Markdown.

(** ** The [path] module of Node, POSIX flavour *)

Module NodePath.

Definition sep : string := "/".

Fixpoint splitOn (c : ascii) (cur s : string) : list string :=
  match s with
  | "" => [String.rev cur]
  | String a rest =>
      if bool_decide (a = c) then String.rev cur :: splitOn c "" rest
      else splitOn c (String a cur) rest
  end.

(** [normalizeString]: the segments are pushed on a stack (last one first);
    empty and "." segments are dropped, ".." pops a segment that is not
    itself ".." and is kept only where the path may climb above its start. *)
Fixpoint normalizeSegments (allowAboveRoot : bool) (stack segs : list string)
    : list string :=
  match segs with
  | [] => reverse stack
  | seg :: segs' =>
      if bool_decide (seg = "") || bool_decide (seg = ".") then
        normalizeSegments allowAboveRoot stack segs'
      else if bool_decide (seg = "..") then
        match stack with
        | top :: stack' =>
            if bool_decide (top = "..") then
              normalizeSegments allowAboveRoot (".." :: stack) segs'
            else normalizeSegments allowAboveRoot stack' segs'
        | [] =>
            if allowAboveRoot then normalizeSegments allowAboveRoot [".."] segs'
            else normalizeSegments allowAboveRoot [] segs'
        end
      else normalizeSegments allowAboveRoot (seg :: stack) segs'
  end.

Definition isAbsolute (p : string) : bool := Js.startsWith "/" p.

Definition endsWithSlash (p : string) : bool := Js.startsWith "/" (String.rev p).

Definition normalize (p : string) : string :=
  if bool_decide (p = "") then "."
  else
    let body := Js.join "/" (normalizeSegments (negb (isAbsolute p)) [] (splitOn "/" "" p)) in
    if bool_decide (body = "") then
      if isAbsolute p then "/" else if endsWithSlash p then "./" else "."
    else
      let body' := if endsWithSlash p then body +:+ "/" else body in
      if isAbsolute p then "/" +:+ body' else body'.

(** [path.join]: the non-empty arguments joined by the separator, then
    normalized; "." when nothing is left. *)
Definition join (paths : list string) : string :=
  match filter (λ a, a ≠ "") paths with
  | [] => "."
  | ps => normalize (Js.join "/" ps)
  end.

(** [path.basename(path, suffix)] of Node scans the path from its end. The
    state of the scan: where the last component starts and ends, whether only
    separators were seen so far, what is left to match of the suffix (its
    characters last one first; [None] once the matching is over, where the
    source has the index -1) and the end of the last component, kept for the
    case that the suffix does not match. [None] stands for -1 in the two
    ends. *)
Record BasenameScan := {
  scan_start : nat;
  scan_end : option nat;
  matchedSlash : bool;
  extLeft : option string;
  firstNonSlashEnd : option nat
}.

(** The loop with a suffix, on the characters of the path from the last one
    to the first: [r] holds the characters not yet seen, so the index of its
    first character in the path is the length of the rest. *)
Fixpoint basenameLoop (r : string) (st : BasenameScan) : BasenameScan :=
  match r with
  | "" => st
  | String c r' =>
      let i := String.length r' in
      if bool_decide (c = "/"%char) then
        if matchedSlash st then basenameLoop r' st
        else {| scan_start := i + 1; scan_end := scan_end st;
                matchedSlash := matchedSlash st; extLeft := extLeft st;
                firstNonSlashEnd := firstNonSlashEnd st |}
      else
        let ms := match firstNonSlashEnd st with None => false | Some _ => matchedSlash st end in
        let fnse := match firstNonSlashEnd st with None => Some (i + 1) | Some e => Some e end in
        match extLeft st with
        | Some (String x more) =>
            if bool_decide (c = x) then
              match more with
              | "" =>
                  basenameLoop r' {| scan_start := scan_start st; scan_end := Some i;
                                     matchedSlash := ms; extLeft := None;
                                     firstNonSlashEnd := fnse |}
              | _ =>
                  basenameLoop r' {| scan_start := scan_start st; scan_end := scan_end st;
                                     matchedSlash := ms; extLeft := Some more;
                                     firstNonSlashEnd := fnse |}
              end
            else
              basenameLoop r' {| scan_start := scan_start st; scan_end := fnse;
                                 matchedSlash := ms; extLeft := None;
                                 firstNonSlashEnd := fnse |}
        | _ =>
            basenameLoop r' {| scan_start := scan_start st; scan_end := scan_end st;
                               matchedSlash := ms; extLeft := extLeft st;
                               firstNonSlashEnd := fnse |}
        end
  end.

(** The loop without a suffix: [(start, end, matchedSlash)]. *)
Fixpoint basenamePlainLoop (r : string) (st : nat * option nat * bool)
    : nat * option nat * bool :=
  match r with
  | "" => st
  | String c r' =>
      let i := String.length r' in
      let '(start, end_, ms) := st in
      if bool_decide (c = "/"%char) then
        if ms then basenamePlainLoop r' st else (i + 1, end_, ms)
      else
        match end_ with
        | None => basenamePlainLoop r' (start, Some (i + 1), false)
        | Some _ => basenamePlainLoop r' st
        end
  end.

(** [String.prototype.slice] between two positions of the text; [None]
    stands for the end -1, the position before the last character. *)
Definition slice (s : string) (start : nat) (end_ : option nat) : string :=
  let e := default (String.length s - 1) end_ in
  String.substring start (e - start) s.

(** [path.basename(path, suffix)], POSIX flavour. A path equal to the suffix
    has the empty base name; a suffix that is empty or longer than the path
    is not looked at. *)
Definition basename (p suffix : string) : string :=
  if bool_decide (suffix ≠ "") && bool_decide (String.length suffix ≤ String.length p) then
    if bool_decide (suffix = p) then ""
    else
      let st := basenameLoop (String.rev p)
                  {| scan_start := 0; scan_end := None; matchedSlash := true;
                     extLeft := Some (String.rev suffix); firstNonSlashEnd := None |} in
      let end_ :=
        if bool_decide (Some (scan_start st) = scan_end st) then firstNonSlashEnd st
        else match scan_end st with
             | None => Some (String.length p)
             | Some e => Some e
             end in
      slice p (scan_start st) end_
  else
    match basenamePlainLoop (String.rev p) (0, None, true) with
    | (start, Some e, _) => slice p start (Some e)
    | (_, None, _) => ""
    end.

End NodePath.

(** ** FileSystem.ts: the file record (the service is a collaborator) *)

Module FileSystem.

Record File := makeFile {
  path : string;
  content : string;
  overwrite : bool
}.

End FileSystem.

(** ** Regular expressions

    The fragment of the language's regular expressions that [Core.ts] uses:
    characters and classes, a greedy star over a class, sequences, greedy
    optional groups, named groups with back-references, and the two line
    anchors under the [m] flag. Matching is by backtracking, as in the
    language: a matcher takes the continuation that must accept the rest. *)

Module RegExp.

Inductive CharClass :=
  | Lit (c : ascii)            (* the character itself *)
  | Dot                        (* [.]: anything but a line terminator *)
  | OneOf (cs : list ascii)    (* a bracketed set *)
  | NonSpace.                  (* [\S] *)

Inductive Regex :=
  | Empty
  | Class (cc : CharClass)
  | Star (cc : CharClass)
  | Seq (r1 r2 : Regex)
  | Opt (r : Regex)
  | Group (name : string) (r : Regex)
  | Backref (name : string)
  | LineStart
  | LineEnd.

Definition classMatches (cc : CharClass) (c : ascii) : bool :=
  match cc with
  | Lit a => bool_decide (a = c)
  | Dot => negb (Js.isLineTerminator c)
  | OneOf cs => bool_decide (c ∈ cs)
  | NonSpace => negb (Js.isSpace c)
  end.

(** A position of the run: the character before it (for the anchors), the
    input from there on, and the named captures so far (latest first). *)
Record MState := {
  prev : option ascii;
  rest : string;
  caps : list (string * string)
}.

Fixpoint lookupCap (name : string) (cs : list (string * string)) : option string :=
  match cs with
  | [] => None
  | (n, v) :: cs' => if bool_decide (n = name) then Some v else lookupCap name cs'
  end.

(** The text between two positions of the same input: what was consumed
    from [from] to reach the suffix [to]. *)
Definition consumed (from to : string) : string :=
  String.substring 0 (String.length from - String.length to) from.

(** Consume the literal text [t] at the head of the input. *)
Fixpoint eat (t : string) (p : option ascii) (s : string) : option (option ascii * string) :=
  match t, s with
  | "", _ => Some (p, s)
  | String a t', String b s' => if bool_decide (a = b) then eat t' (Some b) s' else None
  | String _ _, "" => None
  end.

(** The greedy star over a class: take one more character first, fall back
    to the continuation from here when that fails. *)
Fixpoint starLoop (cc : CharClass) (k : MState → option MState)
    (cs : list (string * string)) (p : option ascii) (s : string) : option MState :=
  match s with
  | String c s' =>
      if classMatches cc c then
        match starLoop cc k cs (Some c) s' with
        | Some e => Some e
        | None => k {| prev := p; rest := s; caps := cs |}
        end
      else k {| prev := p; rest := s; caps := cs |}
  | "" => k {| prev := p; rest := s; caps := cs |}
  end.

Definition atLineStart (st : MState) : bool :=
  match prev st with
  | None => true
  | Some c => Js.isLineTerminator c
  end.

Definition atLineEnd (st : MState) : bool :=
  match rest st with
  | "" => true
  | String c _ => Js.isLineTerminator c
  end.

Fixpoint exec (r : Regex) (st : MState) (k : MState → option MState) : option MState :=
  match r with
  | Empty => k st
  | Class cc =>
      match rest st with
      | String c s' =>
          if classMatches cc c
          then k {| prev := Some c; rest := s'; caps := caps st |}
          else None
      | "" => None
      end
  | Star cc => starLoop cc k (caps st) (prev st) (rest st)
  | Seq r1 r2 => exec r1 st (λ st1, exec r2 st1 k)
  | Opt r1 =>
      match exec r1 st k with
      | Some e => Some e
      | None => k st
      end
  | Group name r1 =>
      exec r1 st (λ st1,
        k {| prev := prev st1; rest := rest st1;
             caps := (name, consumed (rest st) (rest st1)) :: caps st1 |})
  | Backref name =>
      match lookupCap name (caps st) with
      | None => k st
      | Some t =>
          match eat t (prev st) (rest st) with
          | Some (p, s') => k {| prev := p; rest := s'; caps := caps st |}
          | None => None
          end
      end
  | LineStart => if atLineStart st then k st else None
  | LineEnd => if atLineEnd st then k st else None
  end.

(** One attempt at a given position. *)
Definition matchAt (r : Regex) (p : option ascii) (s : string) : option MState :=
  exec r {| prev := p; rest := s; caps := [] |} Some.

(** The leftmost match: the text before it, the matched text and the final
    state (whose [rest] is the text after the match). *)
Fixpoint search (r : Regex) (p : option ascii) (s : string)
    : option (string * string * MState) :=
  match matchAt r p s with
  | Some e => Some ("", consumed s (rest e), e)
  | None =>
      match s with
      | "" => None
      | String c s' =>
          match search r (Some c) s' with
          | Some (pre, mt, e) => Some (String c pre, mt, e)
          | None => None
          end
      end
  end.

(** [GetSubstitution] for a pattern without capture groups: [$$], [$&],
    [$`] and [$'] are replaced, every other character stands for itself. *)
Fixpoint getSubstitution (matched pre post replacement : string) : string :=
  match replacement with
  | "" => ""
  | String "$" (String "$" r) => "$" +:+ getSubstitution matched pre post r
  | String "$" (String "&" r) => matched +:+ getSubstitution matched pre post r
  | String "$" (String "`" r) => pre +:+ getSubstitution matched pre post r
  | String "$" (String "'" r) => post +:+ getSubstitution matched pre post r
  | String c r => String c (getSubstitution matched pre post r)
  end.

(** [String.prototype.replace] with a pattern without the [g] flag and a
    replacement string: the leftmost match only. *)
Definition replaceFirst (r : Regex) (replacement : string) (s : string) : string :=
  match search r None s with
  | None => s
  | Some (pre, mt, e) => pre +:+ getSubstitution mt pre (rest e) replacement +:+ rest e
  end.

(** [String.prototype.replace] with a pattern with the [g] flag and a
    replacer function: every match, left to right, the next search starting
    where the last match ended (one character further after an empty
    match). [skip] counts the characters of the current match still to
    drop. *)
Fixpoint replaceAllFrom (r : Regex) (f : MState → string)
    (p : option ascii) (s : string) (skip : nat) : string :=
  match skip with
  | S n =>
      match s with
      | "" => ""
      | String c s' => replaceAllFrom r f (Some c) s' n
      end
  | 0 =>
      match matchAt r p s with
      | Some e =>
          f e +:+
          match s with
          | "" => ""
          | String c s' =>
              match String.length s - String.length (rest e) with
              | 0 => String c (replaceAllFrom r f (Some c) s' 0)
              | S n => replaceAllFrom r f (Some c) s' n
              end
          end
      | None =>
          match s with
          | "" => ""
          | String c s' => String c (replaceAllFrom r f (Some c) s' 0)
          end
      end
  end.

Definition replaceAll (r : Regex) (f : MState → string) (s : string) : string :=
  replaceAllFrom r f None s 0.

(** Pattern text without metacharacters: one [Lit] per character. *)
Fixpoint lit (s : string) : Regex :=
  match s with
  | "" => Empty
  | String c s' => Seq (Class (Lit c)) (lit s')
  end.

Fixpoint seqs (rs : list Regex) : Regex :=
  match rs with
  | [] => Empty
  | r :: rs' => Seq r (seqs rs')
  end.

(** A bounded repetition [r{n}]. *)
Fixpoint times (n : nat) (r : Regex) : Regex :=
  match n with
  | 0 => Empty
  | S n' => Seq r (times n' r)
  end.

End RegExp.

(** ** Effects

    An [Effect] of the source runs against the services of its environment
    and either succeeds with a value or fails with a tagged error. Here it is
    a function from the world to an exit and the world it leaves behind. The
    log calls of the source change neither and are left out. *)

Inductive Error :=
  | ReadFileError (path : string)
  | WriteFileError (path : string)
  | RemoveFileError (path : string)
  | GlobError (pattern : string) (exclude : list string)
  | ExecutionError (command stderr : string)
  | SpawnError (command : string) (args : list string) (error : string)
  | ParseError (message : string).

Inductive Exit (A : Type) :=
  | Success (a : A)
  | Failure (e : Error).
Arguments Success {A} a.
Arguments Failure {A} e.

Definition Effect (W A : Type) : Type := W → Exit A * W.

Module Effect.

Definition succeed {W A} (a : A) : Effect W A := λ w, (Success a, w).

Definition flatMap {W A B} (self : Effect W A) (f : A → Effect W B) : Effect W B :=
  λ w, match self w with
       | (Success a, w') => f a w'
       | (Failure e, w') => (Failure e, w')
       end.

Definition map {W A B} (self : Effect W A) (f : A → B) : Effect W B :=
  flatMap self (λ a, succeed (f a)).

(** [zipRight self that]: run [self], then [that], keep the result of
    [that]; a failure of [self] ends the sequence. *)
Definition zipRight {W A B} (self : Effect W A) (that : Effect W B) : Effect W B :=
  flatMap self (λ _, that).

(** [Effect.if] on an effectful condition. *)
Definition ifE {W A} (cond : Effect W bool) (onTrue onFalse : Effect W A) : Effect W A :=
  flatMap cond (λ b, if b then onTrue else onFalse).

(** [Effect.forEach], sequential: the first failure ends the loop. *)
Fixpoint forEach {W A B} (l : list A) (f : A → Effect W B) : Effect W (list B) :=
  match l with
  | [] => succeed []
  | x :: l' => flatMap (f x) (λ y, map (forEach l' f) (λ ys, y :: ys))
  end.

(** [Effect.forEach] with [discard: true]. *)
Definition forEach_ {W A B} (l : list A) (f : A → Effect W B) : Effect W unit :=
  map (forEach l f) (λ _, tt).

End Effect.

(** ** Core.ts *)

Module Core.
Import Domain.

(** [SyntaxCharacter] of the pattern grammar: the characters with a meaning
    of their own in the text of a pattern. *)
Definition syntaxChars : list ascii :=
  ascii_of_nat 92 (* the backslash *)
  :: ["^"; "$"; "."; "*"; "+"; "?"; "("; ")"; "["; "]"; "{"; "}"; "|"]%char.

(** The project name is spliced into the text of the pattern as it is. A
    character that is not a [SyntaxCharacter] stands for itself and the dot
    for any character but a line terminator. With any other
    [SyntaxCharacter] in the name the pattern is another one, or is
    ill-formed and [new RegExp] throws: these names are outside the model
    ([None]). *)
Fixpoint namePattern (projectName : string) : option RegExp.Regex :=
  match projectName with
  | "" => Some RegExp.Empty
  | String c s' =>
      atom ← (if bool_decide (c = "."%char) then Some RegExp.Dot
              else if bool_decide (c ∈ syntaxChars) then None
              else Some (RegExp.Lit c));
      rest ← namePattern s';
      Some (RegExp.Seq (RegExp.Class atom) rest)
  end.

Definition quoteChars : list ascii := ["'"%char; ascii_of_nat 34].

(** [new RegExp] on the pattern text of [replaceProjectName], with the flag
    [g]. *)
Definition importRegex (projectName : string) : option RegExp.Regex :=
  name ← namePattern projectName;
  Some (RegExp.seqs [
    RegExp.lit "from ";
    RegExp.Group "quote" (RegExp.Class (RegExp.OneOf quoteChars));
    name;
    RegExp.Opt (RegExp.lit "/lib");
    RegExp.Opt (RegExp.Seq (RegExp.lit "/") (RegExp.Group "path" (RegExp.Star RegExp.Dot)));
    RegExp.Backref "quote"
  ]).

(** The fields of [Config.Config] that [Core.ts] reads. The compiler
    options are kept as the text [JSON.stringify] gives for the object
    holding them (indentation 2). The project name is the name of a
    package: a configuration of the model has a name whose import pattern
    the model knows ([projectName_pattern]); it says nothing of a run with
    another name. *)
Record Config := {
  projectName : string;
  projectHomepage : string;
  srcDir : string;
  outDir : string;
  theme : string;
  enableSearch : bool;
  exclude : list string;
  examplesCompilerOptionsJson : string;
  projectName_pattern : is_Some (importRegex projectName)
}.

(** The value of an option known to hold one. *)
Definition known {A} (o : option A) : is_Some o → A :=
  match o with
  | Some a => λ _, a
  | None => λ H, False_rect A (is_Some_None H)
  end.

(** The services an effect of [Core.ts] asks its environment for:
    [Config], [FileSystem], [Process] and [ChildProcess]. *)
Record Services (W : Type) := {
  config : Config;
  readFile : string → Effect W string;
  writeFile_ : string → string → Effect W unit;
  removeFile : string → Effect W unit;
  pathExists : string → Effect W bool;
  cwd : Effect W string;
  platform : Effect W string;
  spawn : string → string → Effect W unit
}.
Arguments config {W}. Arguments readFile {W}. Arguments writeFile_ {W}.
Arguments removeFile {W}. Arguments pathExists {W}. Arguments cwd {W}.
Arguments platform {W}. Arguments spawn {W}.

Definition join (paths : list string) : string :=
  NodePath.normalize (NodePath.join paths).

Section WithServices.
Context {W : Type} (S : Services W).

Definition writeFile (file : FileSystem.File) : Effect W unit :=
  let overwrite := writeFile_ S (FileSystem.path file) (FileSystem.content file) in
  let skip := Effect.succeed tt in
  let write := writeFile_ S (FileSystem.path file) (FileSystem.content file) in
  Effect.ifE (pathExists S (FileSystem.path file))
    (if FileSystem.overwrite file then overwrite else skip)
    write.

Definition writeFiles (files : list FileSystem.File) : Effect W unit :=
  Effect.forEach_ files writeFile.

End WithServices.

(** *** Example extraction *)

(** The name of the file of example [i] of a documentable, under the
    module prefix and the role tag [id]. *)
Definition exampleFileName (prefix id : string) (documentableName : string) (i : nat)
    : string :=
  prefix +:+ "-" +:+ id +:+ "-" +:+ documentableName +:+ "-" +:+ Js.ofNat i +:+ ".ts".

Definition getDocumentableExamples (cfg : Config) (prefix id : string)
    (documentable : Documentable) : list FileSystem.File :=
  imap (λ i content,
          FileSystem.makeFile
            (join [outDir cfg; "examples"; exampleFileName prefix id (name documentable) i])
            (content +:+ Js.nl)
            true)
       (examples documentable).

Definition getModuleExampleFiles (cfg : Config) (module : Module) : list FileSystem.File :=
  let prefix := Js.join "-" (path module) in
  let moduleExamples := getDocumentableExamples cfg prefix "module" (module_doc module) in
  let methods :=
    flat_map (λ c,
      concat [
        flat_map (λ m, getDocumentableExamples cfg prefix
                         (name (class_doc c) +:+ "-method") (method_doc m))
                 (methods c);
        flat_map (λ m, getDocumentableExamples cfg prefix
                         (name (class_doc c) +:+ "-staticmethod") (method_doc m))
                 (staticMethods c)
      ]) (classes module) in
  let interfaces :=
    flat_map (λ i, getDocumentableExamples cfg prefix "interface" (interface_doc i))
             (interfaces module) in
  let typeAliases :=
    flat_map (λ ta, getDocumentableExamples cfg prefix "typealias" (typeAlias_doc ta))
             (typeAliases module) in
  let constants :=
    flat_map (λ c, getDocumentableExamples cfg prefix "constant" (constant_doc c))
             (constants module) in
  let functions :=
    flat_map (λ f, getDocumentableExamples cfg prefix "function" (function_doc f))
             (functions module) in
  concat [moduleExamples; methods; interfaces; typeAliases; constants; functions].

Definition getExampleFiles (cfg : Config) (modules : list Module) : list FileSystem.File :=
  flat_map (getModuleExampleFiles cfg) modules.

(** *** Imports *)

Definition assertImport : string := "import * as assert from 'assert'" +:+ Js.nl.

Definition addAssertImport (code : string) : string :=
  match Js.indexOf "assert." code with
  | Some _ => assertImport +:+ code
  | None => code
  end.

(** The replacer: [groups.path] is falsy when the group took no part or
    matched the empty string. *)
Definition importReplacer (e : RegExp.MState) : string :=
  "from '../../src" +:+
  match RegExp.lookupCap "path" (RegExp.caps e) with
  | Some (String c p) => "/" +:+ String c p
  | _ => ""
  end +:+ "'".

Definition replaceProjectName (cfg : Config) (source : string) : string :=
  RegExp.replaceAll (known (importRegex (projectName cfg)) (projectName_pattern cfg))
    importReplacer source.

Definition handleImports (cfg : Config) (files : list FileSystem.File)
    : list FileSystem.File :=
  map (λ file,
         FileSystem.makeFile (FileSystem.path file)
           (addAssertImport (replaceProjectName cfg (FileSystem.content file)))
           (FileSystem.overwrite file))
      files.

Definition getExampleIndex (cfg : Config) (examples : list FileSystem.File)
    : FileSystem.File :=
  let content :=
    Js.join Js.nl
      (map (λ example, "import './" +:+ NodePath.basename (FileSystem.path example) ".ts" +:+ "'")
           examples) in
  FileSystem.makeFile (join [outDir cfg; "examples"; "index.ts"]) (content +:+ Js.nl) true.

(** *** The type-check run *)

Section WithServices.
Context {W : Type} (S : Services W).

Definition examplesDir : string := join [outDir (config S); "examples"].

Definition cleanExamples : Effect W unit := removeFile S examplesDir.

Definition spawnTsNode : Effect W unit :=
  Effect.flatMap (cwd S) (λ cwd,
  Effect.flatMap (platform S) (λ platform,
    let command := if bool_decide (platform = "win32") then "ts-node.cmd" else "ts-node" in
    let executable := join [cwd; outDir (config S); "examples"; "index.ts"] in
    spawn S command executable)).

Definition writeExamples (examples : list FileSystem.File) : Effect W unit :=
  writeFiles S (getExampleIndex (config S) examples :: examples).

Definition writeTsConfigJson : Effect W unit :=
  Effect.flatMap (cwd S) (λ cwd,
    writeFile S
      (FileSystem.makeFile
         (join [cwd; outDir (config S); "examples"; "tsconfig.json"])
         (examplesCompilerOptionsJson (config S))
         true)).

Definition typeCheckExamples (modules : list Module) : Effect W unit :=
  let examples := handleImports (config S) (getExampleFiles (config S) modules) in
  match examples with
  | [] => cleanExamples
  | _ =>
      Effect.zipRight
        (Effect.zipRight
           (Effect.zipRight (writeExamples examples) writeTsConfigJson)
           spawnTsNode)
        cleanExamples
  end.

End WithServices.

(** *** The site configuration *)

Definition remoteThemeRegex : RegExp.Regex :=
  RegExp.seqs [RegExp.LineStart; RegExp.lit "remote_theme:";
               RegExp.Star RegExp.Dot; RegExp.LineEnd].

Definition searchEnabledRegex : RegExp.Regex :=
  RegExp.seqs [RegExp.LineStart; RegExp.lit "search_enabled:";
               RegExp.Star RegExp.Dot; RegExp.LineEnd].

Definition homepageLinkRegex : RegExp.Regex :=
  RegExp.seqs [RegExp.LineStart;
               RegExp.times 2 (RegExp.Class (RegExp.Lit " "));
               RegExp.lit "'"; RegExp.Star RegExp.NonSpace; RegExp.lit " on GitHub':";
               RegExp.Class (RegExp.Lit Js.LF);
               RegExp.times 4 (RegExp.Class (RegExp.Lit " "));
               RegExp.lit "- '"; RegExp.Star RegExp.Dot; RegExp.lit "'"].

Definition remoteThemeLine (cfg : Config) : string := "remote_theme: " +:+ theme cfg.

Definition searchEnabledLine (cfg : Config) : string :=
  "search_enabled: " +:+ Js.ofBool (enableSearch cfg).

Definition homepageLinkBlock (cfg : Config) : string :=
  "  '" +:+ projectName cfg +:+ " on GitHub':" +:+ Js.nl +:+
  "    - '" +:+ projectHomepage cfg +:+ "'".

Definition resolveConfigYML (previousContent : string) (cfg : Config) : string :=
  RegExp.replaceFirst homepageLinkRegex (homepageLinkBlock cfg)
    (RegExp.replaceFirst searchEnabledRegex (searchEnabledLine cfg)
       (RegExp.replaceFirst remoteThemeRegex (remoteThemeLine cfg) previousContent)).

Definition getHomepageNavigationHeader (cfg : Config) : string :=
  let isGitHub := Js.includes "github" (Js.toLowerCase (projectHomepage cfg)) in
  if isGitHub then projectName cfg +:+ " on GitHub" else "Homepage".

(** The template literal of [getConfigYML], before [stripMargin]: every
    line after the first is indented up to its margin bar. *)
Definition configTemplateLiteral (cfg : Config) : string :=
  let margin := Js.nl +:+ Js.repeat " " 19 +:+ "|" in
  "|remote_theme: " +:+ theme cfg +:+
  margin +:+
  margin +:+ "# Enable or disable the site search" +:+
  margin +:+ "search_enabled: " +:+ Js.ofBool (enableSearch cfg) +:+
  margin +:+
  margin +:+ "# Aux links for the upper right navigation" +:+
  margin +:+ "aux_links:" +:+
  margin +:+ "'" +:+ getHomepageNavigationHeader cfg +:+ "':" +:+
  margin +:+ "  - '" +:+ projectHomepage cfg +:+ "'".

Definition configTemplate (cfg : Config) : string :=
  Js.stripMargin (configTemplateLiteral cfg).

Section WithServices.
Context {W : Type} (S : Services W).

Definition getConfigYML : Effect W FileSystem.File :=
  Effect.flatMap (cwd S) (λ cwd,
    let filePath := join [cwd; outDir (config S); "_config.yml"] in
    Effect.flatMap (pathExists S filePath) (λ exists_,
      if exists_ then
        Effect.map (readFile S filePath)
          (λ content,
             FileSystem.makeFile filePath (resolveConfigYML content (config S)) true)
      else
        Effect.succeed (FileSystem.makeFile filePath (configTemplate (config S)) false))).

End WithServices.

(** *** The module documents *)

Definition getMarkdownOutputPath (cfg : Config) (module : Module) : string :=
  join [outDir cfg; "modules"; Js.join NodePath.sep (drop 1 (path module)) +:+ ".md"].

(** [Effect.forEach] over the modules with their index; a throw of
    [printModule] ends the loop. *)
Definition getModuleMarkdownFiles (L : Markdown.Libs) (K : Js.KeyOrder) (cfg : Config)
    (modules : list Module) : Thrown (list FileSystem.File) :=
  mapT (λ '(order, module),
          let outputPath := getMarkdownOutputPath cfg module in
          content ← Markdown.printModule L K module (order + 1);
          Ok (FileSystem.makeFile outputPath content true))
       (imap (λ order module, (order, module)) modules).

(** *** Parsing *)

(** The message of the error [getModules] builds from the parser's errors,
    one list of messages per failing file. *)
Definition parseErrorMessage (errors : list (list string)) : string :=
  Js.join Js.nl (map (Js.join Js.nl) errors).

(** [Parser.parseFiles] is a collaborator: it gives the modules, or the
    messages of the files that failed. *)
Definition getModules {W} (parseFiles : list FileSystem.File → W → (list (list string) + list Module) * W)
    (files : list FileSystem.File) : Effect W (list Module) :=
  λ w, match parseFiles files w with
       | (inl errors, w') => (Failure (ParseError (parseErrorMessage errors)), w')
       | (inr modules, w') => (Success modules, w')
       end.

End Core.

(** ** An environment in memory

    The services are collaborators of [Core.ts]; this instance gives them a
    behaviour to run the effects against: the world is a map from absolute
    paths to file contents, a directory exists when a file lies under it, and
    removing a path removes everything under it. *)

Module InMemory.

Definition resolve (cwd p : string) : string :=
  if NodePath.isAbsolute p then NodePath.normalize p
  else NodePath.normalize (cwd +:+ "/" +:+ p).

Definition isUnder (dir p : string) : bool :=
  bool_decide (p = dir) || Js.startsWith (dir +:+ "/") p.

Definition exists_ (w : gmap string string) (p : string) : bool :=
  bool_decide (filter (λ kv, isUnder p kv.1 = true) w ≠ ∅).

(** [tsNode] stands for the external type checker: given the files and the
    entry point it either accepts or fails with an error. *)
Definition services (cfg : Core.Config) (cwd : string)
    (tsNode : gmap string string → string → option Error)
    : Core.Services (gmap string string) :=
  {| Core.config := cfg;
     Core.readFile := λ p w,
       match w !! resolve cwd p with
       | Some c => (Success c, w)
       | None => (Failure (ReadFileError p), w)
       end;
     Core.writeFile_ := λ p c w, (Success tt, <[resolve cwd p := c]> w);
     Core.removeFile := λ p w,
       (Success tt, filter (λ kv, isUnder (resolve cwd p) kv.1 = false) w);
     Core.pathExists := λ p w, (Success (exists_ w (resolve cwd p)), w);
     Core.cwd := λ w, (Success cwd, w);
     Core.platform := λ w, (Success "linux", w);
     Core.spawn := λ command executable w,
       match tsNode w executable with
       | None => (Success tt, w)
       | Some e => (Failure e, w)
       end |}.

End InMemory.

(** ** Notions used to state the properties *)

Module Props.
Import Domain.

(** [t] occurs in [s] as a contiguous piece. *)
Definition occurs (t s : string) : Prop := ∃ pre post, s = pre +:+ t +:+ post.

(** [a] is rendered before [b] in [s]. *)
Definition occursBefore (a b s : string) : Prop :=
  ∃ pre mid post, s = pre +:+ a +:+ mid +:+ b +:+ post.

Definition succeeded {A} (x : Thrown A) : Prop := ∃ a, x = Ok a.

(** The deepest indentation a heading is asked for when a namespace is
    rendered at indentation [d]. *)
Fixpoint deepest (ns : Namespace) (d : nat) : nat :=
  let members :=
    match ns_interfaces ns, ns_typeAliases ns with
    | [], [] => d
    | _, _ => d + 1
    end in
  foldr Nat.max members (map (λ n, deepest n (d + 1)) (ns_namespaces ns)).

Definition interfaceTitle (i : Interface) : string :=
  Markdown.getTitle (name (interface_doc i)) (deprecated (interface_doc i))
    (Some "(interface)").

Definition typeAliasTitle (ta : TypeAlias) : string :=
  Markdown.getTitle (name (typeAlias_doc ta)) (deprecated (typeAlias_doc ta))
    (Some "(type alias)").

Definition namespaceTitle (ns : Namespace) : string :=
  Markdown.getTitle (name (namespace_doc ns)) (deprecated (namespace_doc ns))
    (Some "(namespace)").

(** The text of a heading of level [n], written out: at the start of a
    line, [n] hash marks, a space, the title, and the blank line after it. A
    heading of another level is not a piece of it, nor it of that one. *)
Definition headingLine (n : nat) (title : string) : string :=
  Js.nl +:+ Js.repeat "#" n +:+ " " +:+ title +:+ Js.nl +:+ Js.nl.

(** The title and the nesting level of every heading of a namespace rendered
    at indentation [d]: its own, at [d], those of its interfaces and type
    aliases, at [d + 1], and those of the namespaces in it, from [d + 1]
    on. *)
Fixpoint headingLevels (ns : Namespace) (d : nat) : list (string * nat) :=
  (namespaceTitle ns, d)
  :: map (λ i, (interfaceTitle i, d + 1)) (ns_interfaces ns)
  ++ map (λ ta, (typeAliasTitle ta, d + 1)) (ns_typeAliases ns)
  ++ concat (map (λ n, headingLevels n (d + 1)) (ns_namespaces ns)).

(** The message of the error for a heading beyond the third nesting level. *)
Definition nestingError : string := "Unsupported namespace nesting: 4".

(** What [fromNamespace] does with the members of a namespace. *)
Definition renderInterfaces (l : list Interface) (d : nat) : Thrown (list string) :=
  mapT (λ i, s ← Markdown.fromInterface i d; Ok (s +:+ Js.nl +:+ Js.nl)) l.

Definition renderTypeAliases (l : list TypeAlias) (d : nat) : Thrown (list string) :=
  mapT (λ ta, s ← Markdown.fromTypeAlias ta d; Ok (s +:+ Js.nl +:+ Js.nl)) l.

Definition renderNamespaces (l : list Namespace) (d : nat) : Thrown (list string) :=
  mapT (λ n, s ← Markdown.fromNamespace n d; Ok (s +:+ Js.nl +:+ Js.nl)) l.

(** *** Reachable documentables *)

(** Every documentable below a namespace, at any depth. *)
Fixpoint namespaceDocumentables (ns : Namespace) : list Documentable :=
  namespace_doc ns
  :: map interface_doc (ns_interfaces ns)
  ++ map typeAlias_doc (ns_typeAliases ns)
  ++ concat (map namespaceDocumentables (ns_namespaces ns)).

Definition classDocumentables (c : Class) : list Documentable :=
  class_doc c
  :: map method_doc (methods c)
  ++ map method_doc (staticMethods c)
  ++ map property_doc (properties c).

(** Every documentable reachable from a module, the module itself first. *)
Definition reachableDocumentables (m : Module) : list Documentable :=
  module_doc m
  :: concat (map classDocumentables (classes m))
  ++ map interface_doc (interfaces m)
  ++ map function_doc (functions m)
  ++ map typeAlias_doc (typeAliases m)
  ++ map constant_doc (constants m)
  ++ map export_doc (exports m)
  ++ concat (map namespaceDocumentables (namespaces m)).

(** The documentables whose examples [getExampleFiles] turns into files, in
    its order: the module, the methods and the static methods of each class,
    the interfaces, the type aliases, the constants and the functions. *)
Definition extractedDocumentables (m : Module) : list Documentable :=
  module_doc m
  :: flat_map (λ c, map method_doc (methods c) ++ map method_doc (staticMethods c))
       (classes m)
  ++ map interface_doc (interfaces m)
  ++ map typeAlias_doc (typeAliases m)
  ++ map constant_doc (constants m)
  ++ map function_doc (functions m).

Definition examplesOf (ds : list Documentable) : list string := flat_map examples ds.

(** *** The type-check run *)

(** What [typeCheckExamples] does before the cleanup when there are
    candidates: write them, write the compiler configuration, run the type
    checker. *)
Definition writeAndCheck {W} (S : Core.Services W) (examples : list FileSystem.File)
    : Effect W unit :=
  Effect.zipRight
    (Effect.zipRight (Core.writeExamples S examples) (Core.writeTsConfigJson S))
    (Core.spawnTsNode S).

(** The candidates of a run. *)
Definition candidates (cfg : Core.Config) (modules : list Module) : list FileSystem.File :=
  Core.handleImports cfg (Core.getExampleFiles cfg modules).

(** *** File names of the examples *)

(** The role of a documentable among those [getExampleFiles] extracts: its
    kind and, for a method, the name of its class. *)
Inductive Role :=
  | RModule
  | RMethod (className : string)
  | RStaticMethod (className : string)
  | RInterface
  | RTypeAlias
  | RConstant
  | RFunction.

Definition roleTag (r : Role) : string :=
  match r with
  | RModule => "module"
  | RMethod c => c +:+ "-method"
  | RStaticMethod c => c +:+ "-staticmethod"
  | RInterface => "interface"
  | RTypeAlias => "typealias"
  | RConstant => "constant"
  | RFunction => "function"
  end.

(** A string without the character [-], as every identifier is. *)
Fixpoint dashFree (s : string) : bool :=
  match s with
  | "" => true
  | String c s' => negb (bool_decide (c = "-"%char)) && dashFree s'
  end.

Definition ownerDashFree (r : Role) : bool :=
  match r with
  | RMethod c | RStaticMethod c => dashFree c
  | _ => true
  end.

(** The tag of a role is its class name, if any, then a word without dash. *)
Definition kindWord (r : Role) : string :=
  match r with
  | RModule => "module"
  | RMethod _ => "method"
  | RStaticMethod _ => "staticmethod"
  | RInterface => "interface"
  | RTypeAlias => "typealias"
  | RConstant => "constant"
  | RFunction => "function"
  end.

Definition withOwner (p : string) (r : Role) : string :=
  match r with
  | RMethod c | RStaticMethod c => p +:+ "-" +:+ c
  | _ => p
  end.

(** *** Grouping and sorting *)

(** The record [out] groups the elements [seen] by [f]: its keys are
    distinct and none is [Js.protoKey], each group is non-empty and holds
    the elements of its key in their order, and every element whose key is
    not [Js.protoKey] has its key in the record. *)
Definition grouped {A} (f : A → string) (seen : list A) (out : Js.Record_ (list A)) : Prop :=
  NoDup (map fst out)
  ∧ (∀ k g, (k, g) ∈ out →
       g ≠ [] ∧ g = filter (λ x, f x = k) seen ∧ k ≠ Js.protoKey)
  ∧ (∀ x, x ∈ seen → f x ≠ Js.protoKey → f x ∈ map fst out).

(** The order of [String.Order] through a key, as a relation. *)
Definition keyLe {A} (key : A → string) (a b : A) : Prop := String.le (key a) (key b).

(** [a] is strictly below [b] in the order of [String.Order]. *)
Definition strLt (a b : string) : Prop := String.le a b ∧ a ≠ b.

(** The pieces of a joined list around one of its elements. *)
Definition joinBefore (sep : string) (l : list string) : string :=
  foldr (λ y acc, y +:+ sep +:+ acc) "" l.

Definition joinAfter (sep : string) (l : list string) : string :=
  foldr (λ y acc, sep +:+ y +:+ acc) "" l.

(** The entries of the grouping, sorted by category: what [sections] maps
    over. *)
Definition sortedEntries (K : Js.KeyOrder) (m : Module) : list (string * list Markdown.Printable) :=
  Js.sortBy (Js.leBy fst) (Js.enumerate K _ (Js.groupBy Markdown.categoryOf (Markdown.getPrintables m))).

(** *** Import rewriting *)

(** A text without line terminator. *)
Fixpoint singleLine (s : string) : bool :=
  match s with
  | "" => true
  | String c s' => negb (Js.isLineTerminator c) && singleLine s'
  end.

(** Every character of the text is in the class. *)
Fixpoint allMatch (cc : RegExp.CharClass) (s : string) : bool :=
  match s with
  | "" => true
  | String c s' => RegExp.classMatches cc c && allMatch cc s'
  end.

(** The character before the position reached after reading [t]. *)
Fixpoint lastCharOr (p : option ascii) (t : string) : option ascii :=
  match t with
  | "" => p
  | String c t' => lastCharOr (Some c) t'
  end.

(** What the replacer appends for a sub-path: nothing when it is empty. *)
Definition subpathSuffix (sub : string) : string :=
  match sub with
  | "" => ""
  | _ => "/" +:+ sub
  end.

(** The parts of the import pattern after the project name: the optional
    sub-path and the closing quote, and the same after the optional [/lib]. *)
Definition pathTail : RegExp.Regex :=
  RegExp.seqs [
    RegExp.Opt (RegExp.Seq (RegExp.lit "/") (RegExp.Group "path" (RegExp.Star RegExp.Dot)));
    RegExp.Backref "quote"
  ].

Definition importTail : RegExp.Regex :=
  RegExp.Seq (RegExp.Opt (RegExp.lit "/lib")) pathTail.

(** *** The site configuration *)

(** [s'] is [s] with at most one piece replaced: either nothing of the
    pattern was found and [s'] is [s], or [s] is [pre], a piece of the given
    shape and [post], and [s'] keeps [pre] and [post] around the replacement
    text ([GetSubstitution] of the replacement string). *)
Definition patched (shape : string → string → string → Prop) (replacement : string)
    (s s' : string) : Prop :=
  s' = s
  ∨ ∃ pre piece post,
      s = pre +:+ piece +:+ post
      ∧ shape pre piece post
      ∧ s' = pre +:+ RegExp.getSubstitution piece pre post replacement +:+ post.

Definition startsLine (pre : string) : Prop :=
  RegExp.atLineStart {| RegExp.prev := lastCharOr None pre; RegExp.rest := ""; RegExp.caps := [] |}
  = true.

Definition endsLine (post : string) : Prop :=
  RegExp.atLineEnd {| RegExp.prev := None; RegExp.rest := post; RegExp.caps := [] |} = true.

(** A whole line that starts with [field]. *)
Definition fieldLine (field : string) (pre piece post : string) : Prop :=
  startsLine pre ∧ endsLine post
  ∧ ∃ value, piece = field +:+ value ∧ singleLine value = true.

(** The two lines of the link block, with their indentation of 2 and 4. *)
Definition linkBlock (pre piece post : string) : Prop :=
  startsLine pre
  ∧ ∃ label link,
      piece = "  '" +:+ label +:+ " on GitHub':" +:+ Js.nl +:+ "    - '" +:+ link +:+ "'"
      ∧ allMatch RegExp.NonSpace label = true
      ∧ singleLine link = true.

(** A replacement text without [$]: it stands for itself. *)
Fixpoint dollarFree (s : string) : bool :=
  match s with
  | "" => true
  | String c s' => negb (bool_decide (c = "$"%char)) && dollarFree s'
  end.

(** [t] is the end of [s]. *)
Definition isSuffix (t s : string) : Prop := ∃ pre, s = pre +:+ t.

(** A continuation that only ever stops further to the right. *)
Definition forward (k : RegExp.MState → option RegExp.MState) : Prop :=
  ∀ st e, k st = Some e → isSuffix (RegExp.rest e) (RegExp.rest st).

(** *** Paths *)

(** One step of [normalizeSegments] on its stack. *)
Definition step (allowAboveRoot : bool) (stack : list string) (seg : string) : list string :=
  if bool_decide (seg = "") || bool_decide (seg = ".") then stack
  else if bool_decide (seg = "..") then
    match stack with
    | top :: stack' => if bool_decide (top = "..") then ".." :: stack else stack'
    | [] => if allowAboveRoot then [".."] else []
    end
  else seg :: stack.

(** The stack after a list of segments. *)
Definition run (allowAboveRoot : bool) (stack segs : list string) : list string :=
  foldl (step allowAboveRoot) stack segs.

(** How [normalize] puts a path together from its kept segments. *)
Definition assemble (absolute trailing : bool) (l : list string) : string :=
  let body := Js.join "/" l in
  if bool_decide (body = "") then
    if absolute then "/" else if trailing then "./" else "."
  else
    let body' := if trailing then body +:+ "/" else body in
    if absolute then "/" +:+ body' else body'.

(** A text without the separator. *)
Fixpoint slashFree (s : string) : bool :=
  match s with
  | "" => true
  | String c s' => negb (bool_decide (c = "/"%char)) && slashFree s'
  end.

(** A segment that [normalizeSegments] keeps: without separator and neither
    empty nor a dot. *)
Definition keptSegment (x : string) : Prop := slashFree x = true ∧ x ≠ "" ∧ x ≠ ".".

(** The segments of a path. *)
Definition segments (p : string) : list string := NodePath.splitOn "/" "" p.

(** A type checker that only asks for its entry point to exist. *)
Definition entryPointChecker (files : gmap string string) (entry : string) : option Error :=
  match files !! entry with
  | Some _ => None
  | None => Some (ExecutionError "ts-node" ("Cannot find module " +:+ entry))
  end.

End Props.

(** ** Sample values, used to run the definitions *)

Module Samples.
Import Domain.

Definition doc (n : string) (es : list string) : Documentable :=
  createDocumentable n None None false es None.

Definition anInterface : Interface := createInterface (doc "I" []) "interface I {}".

(** [Top] holds [Inner], which holds the interface: the interface is two
    levels deep. *)
Definition innerNs : Namespace := createNamespace (doc "Inner" []) [anInterface] [] [].
Definition topNs : Namespace := createNamespace (doc "Top" []) [] [] [innerNs].

(** One level more: the interface is three levels deep. *)
Definition tooDeepNs : Namespace := createNamespace (doc "Root" []) [] [] [topNs].

Definition cfg : Core.Config :=
  {| Core.projectName := "my-lib";
     Core.projectHomepage := "https://github.com/me/my-lib";
     Core.srcDir := "src";
     Core.outDir := "docs";
     Core.theme := "pmarsceill/just-the-docs";
     Core.enableSearch := true;
     Core.exclude := [];
     Core.examplesCompilerOptionsJson := "{}";
     Core.projectName_pattern := mk_is_Some _ _ eq_refl |}.

Definition emptyModule (p : list string) : Module :=
  createModule (doc "index" []) p [] [] [] [] [] [] [].

(** A module whose only example is on an export. *)
Definition exportOnlyModule : Module :=
  createModule (doc "index" []) ["src"; "index.ts"] [] [] [] [] []
    [createExport (doc "e" ["e()"]) "export declare const e: string"] [].

(** A module with an example on a method [m] of a class [A]. *)
Definition classModule : Module :=
  createModule (doc "index" ["index()"]) ["src"; "index.ts"]
    [createClass (doc "A" []) "declare class A"
       [createMethod (doc "m" ["new A().m()"]) ["m(): void"]] [] []]
    [] [] [] [] [] [].

(** An example that imports the assertion module itself. *)
Definition importingExample : string :=
  Core.assertImport +:+ "assert.ok(true)".

(** Services in memory whose type checker accepts everything. *)
Definition acceptingServices : Core.Services (gmap string string) :=
  InMemory.services cfg "/work" (λ _ _, None).

(** Services in memory whose type checker reports an error. *)
Definition rejectingServices : Core.Services (gmap string string) :=
  InMemory.services cfg "/work"
    (λ _ _, Some (ExecutionError "ts-node" "error TS2322: Type 'number' is not assignable"))
.

(** Two modules, at [src/a-b.ts] and [src/a/b.ts], each with an interface
    [A] that has one example. *)
Definition dashedModule : Module :=
  createModule (doc "a-b" []) ["src"; "a-b.ts"] []
    [createInterface (doc "A" ["first()"]) "interface A {}"] [] [] [] [] [].

Definition nestedModule : Module :=
  createModule (doc "b" []) ["src"; "a"; "b.ts"] []
    [createInterface (doc "A" ["second()"]) "interface A {}"] [] [] [] [] [].

(** The two libraries, reduced to the simplest behaviour. *)
Definition plainLibs : Markdown.Libs :=
  {| Markdown.toc := λ _, Ok ""; Markdown.prettier_format := λ s, Ok s |}.

(** A module with two functions of the category "zeta", declared as [b]
    then [a], and a constant without category. *)
Definition sortedModule : Module :=
  createModule (doc "index" []) ["src"; "index.ts"] [] []
    [createFunction (createDocumentable "b" None None false [] (Some "zeta")) ["declare function b(): void"];
     createFunction (createDocumentable "a" None None false [] (Some "zeta")) ["declare function a(): void"]]
    []
    [createConstant (doc "c" []) "declare const c: number"]
    [] [].

End Samples.

(** * Properties *)

(** ** Strings *)

Lemma str_app_cons (c : ascii) (s t : string) : String c s +:+ t = String c (s +:+ t).
Proof. reflexivity. Qed.

Lemma str_app_nil_l (s : string) : "" +:+ s = s.
Proof. reflexivity. Qed.

(** Push the appends of a hypothesis below the leading characters. *)
Ltac str_norm H :=
  repeat first [rewrite str_app_cons in H | rewrite str_app_nil_l in H].

Lemma str_app_nil_r (s : string) : s +:+ "" = s.
Proof. induction s as [|c s IH]; [done | by rewrite str_app_cons, IH]. Qed.

Lemma str_app_assoc (a b c : string) : (a +:+ b) +:+ c = a +:+ (b +:+ c).
Proof. induction a as [|x a IH]; [done | by rewrite !str_app_cons, IH]. Qed.

Lemma str_app_length (a b : string) :
  String.length (a +:+ b) = String.length a + String.length b.
Proof. induction a as [|x a IH]; [done | by rewrite str_app_cons; simpl; rewrite IH]. Qed.

Lemma str_app_inv_tail (a b c : string) : a +:+ c = b +:+ c → a = b.
Proof.
  revert b. induction a as [|x a IH]; intros [|y b] H.
  - done.
  - apply (f_equal String.length) in H. rewrite str_app_nil_l, str_app_length in H.
    simpl in H. lia.
  - apply (f_equal String.length) in H. rewrite str_app_nil_l, str_app_length in H.
    simpl in H. lia.
  - rewrite !str_app_cons in H. injection H as -> H. f_equal. by apply IH.
Qed.

Lemma occurs_refl s : Props.occurs s s.
Proof. exists "", "". by rewrite str_app_nil_l, str_app_nil_r. Qed.

Lemma occurs_app_l t a b : Props.occurs t a → Props.occurs t (a +:+ b).
Proof.
  intros (pre & post & ->). exists pre, (post +:+ b).
  by rewrite !str_app_assoc.
Qed.

Lemma occurs_app_r t a b : Props.occurs t b → Props.occurs t (a +:+ b).
Proof.
  intros (pre & post & ->). exists (a +:+ pre), post.
  by rewrite !str_app_assoc.
Qed.

Lemma occurs_trans a b c : Props.occurs a b → Props.occurs b c → Props.occurs a c.
Proof.
  intros (p1 & q1 & ->) (p2 & q2 & ->). exists (p2 +:+ p1), (q1 +:+ q2).
  by rewrite !str_app_assoc.
Qed.

Lemma occurs_join sep x l : x ∈ l → Props.occurs x (Js.join sep l).
Proof.
  induction l as [|y l IH]; [by intros ?%elem_of_nil|].
  intros [->|Hin]%elem_of_cons.
  - destruct l; simpl; [apply occurs_refl | apply occurs_app_l, occurs_refl].
  - destruct l as [|z l]; [by apply elem_of_nil in Hin|].
    change (Js.join sep (y :: z :: l)) with (y +:+ sep +:+ Js.join sep (z :: l)).
    by apply occurs_app_r, occurs_app_r, IH.
Qed.

Lemma join_head_empty (h : string) (rest : list string) :
  Js.join "" (h :: rest) = h +:+ Js.join "" rest.
Proof. destruct rest; [by rewrite str_app_nil_r | done]. Qed.

Lemma occurs_paragraph x l : x ∈ l → Props.occurs x (Markdown.paragraph l).
Proof.
  intros Hin. unfold Markdown.paragraph.
  by apply occurs_app_r, occurs_app_l, occurs_join.
Qed.


(** ** Thrown values *)

Lemma bind_Ok {A B} (x : Thrown A) (f : A → Thrown B) (b : B) :
  x ≫= f = Ok b ↔ ∃ a, x = Ok a ∧ f a = Ok b.
Proof.
  destruct x as [a|m]; split.
  - intros H. by exists a.
  - by intros (a' & [= ->] & H).
  - intros H. discriminate H.
  - by intros (a' & [=] & _).
Qed.

Section ThrownLemmas.
Context {A B : Type}.

Lemma mapT_cons (f : A → Thrown B) (x : A) (l : list A) :
  mapT f (x :: l) = (y ← f x; ys ← mapT f l; Ok (y :: ys)).
Proof. reflexivity. Qed.

Lemma mapT_Ok (f : A → Thrown B) (l : list A) (ys : list B) :
  mapT f l = Ok ys ↔ Forall2 (λ x y, f x = Ok y) l ys.
Proof.
  revert ys. induction l as [|x l IH]; intros ys.
  - split; [intros [= <-]; constructor | by intros ->%Forall2_nil_inv_l].
  - rewrite mapT_cons, bind_Ok. split.
    + intros (y & Hy & H). apply bind_Ok in H as (ys' & Hys & [= <-]).
      constructor; [done | by apply IH].
    + intros (y & ys' & Hy & Hys & ->)%Forall2_cons_inv_l.
      exists y. split; [done|]. apply bind_Ok. exists ys'. split; [by apply IH | done].
Qed.

Lemma mapT_succeeded (f : A → Thrown B) (l : list A) :
  Props.succeeded (mapT f l) ↔ Forall (λ x, Props.succeeded (f x)) l.
Proof.
  induction l as [|x l IH].
  - split; [constructor | by exists []].
  - rewrite mapT_cons, Forall_cons, <- IH. split.
    + intros (ys & (y & Hy & H)%bind_Ok).
      apply bind_Ok in H as (ys' & Hys & _). split; [by exists y | by exists ys'].
    + intros [(y & Hy) (ys & Hys)]. exists (y :: ys). apply bind_Ok.
      exists y. split; [done|]. apply bind_Ok. by exists ys.
Qed.

End ThrownLemmas.

(** ** Namespaces *)

Section Namespaces.
Import Domain Markdown Props.

(** Induction over the namespace tree. *)
Lemma Namespace_tree_ind (P : Namespace → Prop) :
  (∀ d ifs tas nss, Forall P nss → P (createNamespace d ifs tas nss)) →
  ∀ ns, P ns.
Proof.
  intros step. fix IH 1. intros [d ifs tas nss]. apply step.
  induction nss as [|n nss IHnss]; constructor; [apply IH | apply IHnss].
Qed.

(** The recursion equation of [fromNamespace]: every member is rendered one
    level below the namespace. *)
Lemma fromNamespace_unfold (ns : Namespace) (d : nat) :
  fromNamespace ns d =
    header ← getHeaderByIndentation d;
    ins ← renderInterfaces (ns_interfaces ns) (d + 1);
    tas ← renderTypeAliases (ns_typeAliases ns) (d + 1);
    nss ← renderNamespaces (ns_namespaces ns) (d + 1);
    Ok (paragraph [
      paragraph [
        header (getTitle (name (namespace_doc ns)) (deprecated (namespace_doc ns))
                  (Some "(namespace)"));
        getDescription (description (namespace_doc ns));
        getExamples (examples (namespace_doc ns));
        getSince (since (namespace_doc ns))
      ];
      Js.join "" ins; Js.join "" tas; Js.join "" nss]).
Proof.
  destruct ns as [doc ifs tas nss]. simpl.
  destruct (getHeaderByIndentation d) as [header|]; [simpl | done].
  fold (renderInterfaces ifs (d + 1)). destruct (renderInterfaces ifs (d + 1)); [simpl | done].
  fold (renderTypeAliases tas (d + 1)). destruct (renderTypeAliases tas (d + 1)); [simpl | done].
  assert ((fix go (l : list Namespace) : Thrown (list string) :=
             match l with
             | [] => Ok []
             | n :: l' =>
                 s ← fromNamespace n (d + 1);
                 ss ← go l';
                 Ok ((s +:+ Js.nl +:+ Js.nl) :: ss)
             end) nss = renderNamespaces nss (d + 1)) as ->; [|done].
  induction nss as [|n nss IH]; simpl; [done|].
  rewrite IH. unfold renderNamespaces. rewrite mapT_cons.
  by destruct (fromNamespace n (d + 1)).
Qed.

Lemma getHeaderByIndentation_Ok (d : nat) :
  d ≤ 2 → getHeaderByIndentation d = Ok (createHeader (2 + d)).
Proof. intros H. destruct d as [|[|[|d]]]; [done..|lia]. Qed.

Lemma getHeaderByIndentation_Throw (d : nat) :
  3 ≤ d →
  getHeaderByIndentation d = Throw ("Unsupported namespace nesting: " +:+ Js.ofNat (d + 1)).
Proof. intros H. destruct d as [|[|[|d]]]; [lia..|done]. Qed.

Lemma getHeaderByIndentation_succeeded (d : nat) :
  succeeded (getHeaderByIndentation d) ↔ d ≤ 2.
Proof.
  split.
  - intros [h Hh]. destruct (decide (d ≤ 2)) as [|Hn]; [done|].
    rewrite getHeaderByIndentation_Throw in Hh by lia. discriminate Hh.
  - intros H. rewrite getHeaderByIndentation_Ok by done. by eexists.
Qed.

Lemma paragraph_head_line (h : string) (rest : list string) :
  occurs (Js.nl +:+ h) (paragraph (h :: rest)).
Proof.
  unfold paragraph. rewrite join_head_empty.
  exists "", (Js.join "" rest +:+ Js.nl +:+ Js.nl).
  by rewrite str_app_nil_l, !str_app_assoc.
Qed.

Lemma fromInterface_Ok (i : Interface) (d : nat) (s : string) :
  fromInterface i d = Ok s →
  d ≤ 2 ∧ occurs (headingLine (2 + d) (interfaceTitle i)) s.
Proof.
  unfold fromInterface. intros (h & Hh & [= <-])%bind_Ok.
  assert (d ≤ 2) as Hd by (apply getHeaderByIndentation_succeeded; by exists h).
  split; [done|]. rewrite getHeaderByIndentation_Ok in Hh by done.
  injection Hh as <-. apply paragraph_head_line.
Qed.

Lemma fromTypeAlias_Ok (ta : TypeAlias) (d : nat) (s : string) :
  fromTypeAlias ta d = Ok s →
  d ≤ 2 ∧ occurs (headingLine (2 + d) (typeAliasTitle ta)) s.
Proof.
  unfold fromTypeAlias. intros (h & Hh & [= <-])%bind_Ok.
  assert (d ≤ 2) as Hd by (apply getHeaderByIndentation_succeeded; by exists h).
  split; [done|]. rewrite getHeaderByIndentation_Ok in Hh by done.
  injection Hh as <-. apply paragraph_head_line.
Qed.

Lemma fromInterface_succeeded (i : Interface) (d : nat) :
  succeeded (fromInterface i d) ↔ d ≤ 2.
Proof.
  rewrite <- getHeaderByIndentation_succeeded. unfold fromInterface. split.
  - intros [s (h & Hh & _)%bind_Ok]. by exists h.
  - intros [h Hh]. rewrite Hh. by eexists.
Qed.

Lemma fromTypeAlias_succeeded (ta : TypeAlias) (d : nat) :
  succeeded (fromTypeAlias ta d) ↔ d ≤ 2.
Proof.
  rewrite <- getHeaderByIndentation_succeeded. unfold fromTypeAlias. split.
  - intros [s (h & Hh & _)%bind_Ok]. by exists h.
  - intros [h Hh]. rewrite Hh. by eexists.
Qed.

Lemma suffixed_succeeded {A} (f : A → Thrown string) (x : A) :
  succeeded (s ← f x; Ok (s +:+ Js.nl +:+ Js.nl)) ↔ succeeded (f x).
Proof.
  split.
  - intros [s (y & Hy & _)%bind_Ok]. by exists y.
  - intros [y Hy]. rewrite Hy. by eexists.
Qed.

Lemma succeeded_bind {A B} (x : Thrown A) (f : A → Thrown B) (Q : Prop) :
  (∀ a, succeeded (f a) ↔ Q) → succeeded (x ≫= f) ↔ succeeded x ∧ Q.
Proof.
  intros Hf. split.
  - intros [b (a & Ha & Hb)%bind_Ok]. split; [by exists a|]. apply (Hf a). by exists b.
  - intros [[a ->] HQ]. by apply (Hf a).
Qed.

Lemma deepest_le (ns : Namespace) (d : nat) :
  deepest ns d ≤ 2 ↔
  d ≤ 2 ∧ (ns_interfaces ns ≠ [] → d + 1 ≤ 2) ∧ (ns_typeAliases ns ≠ [] → d + 1 ≤ 2)
  ∧ Forall (λ n, deepest n (d + 1) ≤ 2) (ns_namespaces ns).
Proof.
  destruct ns as [doc ifs tas nss]. simpl.
  set (members := match ifs with [] => match tas with [] => d | _ => d + 1 end | _ => d + 1 end).
  assert (members ≤ 2 ↔ d ≤ 2 ∧ (ifs ≠ [] → d + 1 ≤ 2) ∧ (tas ≠ [] → d + 1 ≤ 2)) as Hm.
  { subst members. destruct ifs, tas; split; try (intros (? & H1 & H2)); intros;
      repeat split; try done; try lia; try (apply H1; done); try (apply H2; done). }
  induction nss as [|n nss IH]; simpl.
  - rewrite Hm. split; [intros (? & ? & ?); by repeat split | by intros (? & ? & ? & _)].
  - rewrite Forall_cons. split.
    + intros H. apply Nat.max_lub_iff in H as [H1 H2]. apply IH in H2. tauto.
    + intros (? & ? & ? & ? & ?). apply Nat.max_lub; [done | apply IH; tauto].
Qed.

Lemma fromNamespace_succeeded (ns : Namespace) (d : nat) :
  succeeded (fromNamespace ns d) ↔ deepest ns d ≤ 2.
Proof.
  revert d. induction ns as [doc ifs tas nss IH] using Namespace_tree_ind. intros d.
  rewrite deepest_le, fromNamespace_unfold. simpl.
  rewrite (succeeded_bind _ _
    ((ifs ≠ [] → d + 1 ≤ 2) ∧ (tas ≠ [] → d + 1 ≤ 2)
     ∧ Forall (λ n, deepest n (d + 1) ≤ 2) nss)).
  { by rewrite getHeaderByIndentation_succeeded. }
  intros header.
  rewrite (succeeded_bind _ _
    ((tas ≠ [] → d + 1 ≤ 2) ∧ Forall (λ n, deepest n (d + 1) ≤ 2) nss)).
  { unfold renderInterfaces. rewrite mapT_succeeded.
    assert (Forall (λ x, succeeded (s ← fromInterface x (d + 1); Ok (s +:+ Js.nl +:+ Js.nl))) ifs
            ↔ (ifs ≠ [] → d + 1 ≤ 2)) as ->; [|done].
    destruct ifs as [|i ifs]; [by split|]. split.
    - intros [Hi _]%Forall_cons _.
      by apply (suffixed_succeeded (λ x, fromInterface x (d + 1))), fromInterface_succeeded in Hi.
    - intros Hd. apply Forall_forall. intros x _.
      apply (suffixed_succeeded (λ x, fromInterface x (d + 1))), fromInterface_succeeded.
      by apply Hd. }
  intros ins.
  rewrite (succeeded_bind _ _ (Forall (λ n, deepest n (d + 1) ≤ 2) nss)).
  { unfold renderTypeAliases. rewrite mapT_succeeded.
    assert (Forall (λ x, succeeded (s ← fromTypeAlias x (d + 1); Ok (s +:+ Js.nl +:+ Js.nl))) tas
            ↔ (tas ≠ [] → d + 1 ≤ 2)) as ->; [|done].
    destruct tas as [|t tas]; [by split|]. split.
    - intros [Hi _]%Forall_cons _.
      by apply (suffixed_succeeded (λ x, fromTypeAlias x (d + 1))), fromTypeAlias_succeeded in Hi.
    - intros Hd. apply Forall_forall. intros x _.
      apply (suffixed_succeeded (λ x, fromTypeAlias x (d + 1))), fromTypeAlias_succeeded.
      by apply Hd. }
  intros tas'.
  rewrite (succeeded_bind _ _ True); [|intros; split; [done | by eexists]].
  unfold renderNamespaces. rewrite mapT_succeeded.
  split.
  - intros [H _]. apply Forall_forall. intros n Hn.
    rewrite Forall_forall in IH, H. apply IH; [done|].
    apply (suffixed_succeeded (λ x, fromNamespace x (d + 1))). by apply H.
  - intros H. split; [|done]. apply Forall_forall. intros n Hn.
    rewrite Forall_forall in IH, H.
    apply (suffixed_succeeded (λ x, fromNamespace x (d + 1))). apply IH; [done|]. by apply H.
Qed.

Lemma Forall2_elem_of_l {A B} (P : A → B → Prop) (l : list A) (k : list B) (x : A) :
  Forall2 P l k → x ∈ l → ∃ y, y ∈ k ∧ P x y.
Proof.
  induction 1 as [|a b l k Hab _ IH]; [by intros ?%elem_of_nil|].
  intros [->|Hin]%elem_of_cons.
  - exists b. split; [left | done].
  - destruct (IH Hin) as (y & ? & ?). exists y. split; [by right | done].
Qed.

Lemma suffixed_occurs {A} (f : A → Thrown string) (x : A) (t y : string) (l : list string) :
  (s ← f x; Ok (s +:+ Js.nl +:+ Js.nl)) = Ok y → y ∈ l →
  (∀ s, f x = Ok s → occurs t s) →
  occurs t (Js.join "" l).
Proof.
  intros (s & Hs & [= <-])%bind_Ok Hin Hocc.
  eapply occurs_trans; [|by apply occurs_join].
  by apply occurs_app_l, Hocc.
Qed.

Lemma fromNamespace_headings (ns : Namespace) (d : nat) (s : string) :
  fromNamespace ns d = Ok s →
  ∀ t k, (t, k) ∈ headingLevels ns d →
         k ≤ 2 ∧ occurs (headingLine (2 + k) t) s.
Proof.
  revert d s. induction ns as [doc ifs tas nss IH] using Namespace_tree_ind.
  intros d s. rewrite fromNamespace_unfold. simpl.
  intros (header & Hh & (ins & Hins & (tas' & Htas & (nss' & Hnss & [= <-])%bind_Ok)%bind_Ok)%bind_Ok)%bind_Ok.
  apply mapT_Ok in Hins, Htas, Hnss.
  assert (d ≤ 2) as Hd0 by (apply getHeaderByIndentation_succeeded; by exists header).
  rewrite getHeaderByIndentation_Ok in Hh by done. injection Hh as <-.
  intros t k [[= -> ->]|[Hik|[Hik|Hik]%elem_of_app]%elem_of_app]%elem_of_cons.
  - split; [done|].
    eapply occurs_trans; [apply paragraph_head_line|].
    apply occurs_paragraph. left.
  - apply list_elem_of_In, in_map_iff in Hik as (i' & [= <- <-] & Hi%list_elem_of_In).
    destruct (Forall2_elem_of_l _ _ _ _ Hins Hi) as (y & Hy & Hr).
    assert (d + 1 ≤ 2) as Hd.
    { apply bind_Ok in Hr as (si & Hsi & _). by apply fromInterface_Ok in Hsi as [? _]. }
    split; [done|].
    eapply occurs_trans; [|apply occurs_paragraph; right; left].
    eapply (suffixed_occurs (λ x, fromInterface x (d + 1))); [done..|].
    intros si Hsi. by apply fromInterface_Ok in Hsi as [_ ?].
  - apply list_elem_of_In, in_map_iff in Hik as (ta & [= <- <-] & Hta%list_elem_of_In).
    destruct (Forall2_elem_of_l _ _ _ _ Htas Hta) as (y & Hy & Hr).
    assert (d + 1 ≤ 2) as Hd.
    { apply bind_Ok in Hr as (si & Hsi & _). by apply fromTypeAlias_Ok in Hsi as [? _]. }
    split; [done|].
    eapply occurs_trans; [|apply occurs_paragraph; do 2 right; left].
    eapply (suffixed_occurs (λ x, fromTypeAlias x (d + 1))); [done..|].
    intros si Hsi. by apply fromTypeAlias_Ok in Hsi as [_ ?].
  - apply list_elem_of_In, in_concat in Hik as (lv & Hlv & Hik).
    apply in_map_iff in Hlv as (n & <- & Hn%list_elem_of_In).
    destruct (Forall2_elem_of_l _ _ _ _ Hnss Hn) as (y & Hy & Hr).
    rewrite Forall_forall in IH.
    assert (∀ sn, fromNamespace n (d + 1) = Ok sn →
                  k ≤ 2 ∧ occurs (headingLine (2 + k) t) sn) as Hsub.
    { intros sn Hsn. by apply (IH n Hn (d + 1) sn Hsn t k), list_elem_of_In. }
    split.
    + apply bind_Ok in Hr as (sn & Hsn & _). by apply Hsub in Hsn as [? _].
    + eapply occurs_trans; [|apply occurs_paragraph; do 3 right; left].
      eapply (suffixed_occurs (λ x, fromNamespace x (d + 1))); [done..|].
      intros sn Hsn. by apply Hsub in Hsn as [_ ?].
Qed.

Lemma bind_Throw {A B} (x : Thrown A) (f : A → Thrown B) (message : string) :
  x ≫= f = Throw message → x = Throw message ∨ ∃ a, x = Ok a ∧ f a = Throw message.
Proof.
  destruct x as [a|m']; intros H; [right; by exists a|].
  left. change (@Throw B m' = Throw message) in H. by injection H as ->.
Qed.

Lemma mapT_Throw {A B} (f : A → Thrown B) (l : list A) (message : string) :
  mapT f l = Throw message → ∃ x, x ∈ l ∧ f x = Throw message.
Proof.
  induction l as [|x l IH]; [done|]. rewrite mapT_cons.
  intros [Hx|(y & _ & [Hl|(ys & _ & [=])]%bind_Throw)]%bind_Throw.
  - exists x. split; [left | done].
  - destruct (IH Hl) as (x' & ? & ?). exists x'. split; [by right | done].
Qed.

Lemma getHeaderByIndentation_nestingError (d : nat) (message : string) :
  d ≤ 3 → getHeaderByIndentation d = Throw message → message = nestingError.
Proof.
  intros Hd. destruct d as [|[|[|[|d]]]]; [..|lia]; cbn [getHeaderByIndentation];
    intros H; try discriminate H.
  injection H as <-. by vm_compute.
Qed.

(** The only error of the rendering of a namespace is the one for a heading
    at the fourth nesting level: nothing deeper is ever asked for. *)
Lemma fromNamespace_Throw (ns : Namespace) (d : nat) (message : string) :
  d ≤ 3 → fromNamespace ns d = Throw message → message = nestingError.
Proof.
  revert d. induction ns as [doc ifs tas nss IH] using Namespace_tree_ind.
  intros d Hd. rewrite fromNamespace_unfold. simpl.
  intros [Hh|(header & Hh & Hrest)]%bind_Throw;
    [by eapply getHeaderByIndentation_nestingError|].
  assert (d ≤ 2) as Hd2 by (apply getHeaderByIndentation_succeeded; by exists header).
  apply bind_Throw in Hrest as [Hi|(ins & _ & Hrest)].
  { apply mapT_Throw in Hi as (x & _ & [Hx|(? & _ & [=])]%bind_Throw).
    unfold fromInterface in Hx. apply bind_Throw in Hx as [Hx|(? & _ & [=])].
    eapply getHeaderByIndentation_nestingError; [|done]. lia. }
  apply bind_Throw in Hrest as [Ht|(tas' & _ & Hrest)].
  { apply mapT_Throw in Ht as (x & _ & [Hx|(? & _ & [=])]%bind_Throw).
    unfold fromTypeAlias in Hx. apply bind_Throw in Hx as [Hx|(? & _ & [=])].
    eapply getHeaderByIndentation_nestingError; [|done]. lia. }
  apply bind_Throw in Hrest as [Hn|(nss' & _ & [=])].
  apply mapT_Throw in Hn as (n & Hn & [Hx|(? & _ & [=])]%bind_Throw).
  rewrite Forall_forall in IH. apply (IH n Hn (d + 1)); [lia | done].
Qed.

(** C3. Rendering a top-level namespace (base heading level 2): the heading
    of every member is one level deeper per nesting level. Written out, a
    namespace, interface or type alias at nesting level [k] below the
    top-level namespace has, at the start of a line of the rendering, exactly
    [2 + k] hash marks, a space and its title; in particular the interfaces
    of a namespace nested inside the top-level one have a heading of four
    hash marks. The rendering succeeds exactly when no heading is asked for
    beyond nesting level 2; otherwise it throws, and the error is always
    "Unsupported namespace nesting: 4": an interface one namespace further
    down makes the whole rendering throw it, nothing is cut or flattened. *)
Theorem namespace_heading_depth (top : Namespace) :
  (∀ s, fromPrintable (PNamespace top) = Ok s →
        ∀ t k, (t, k) ∈ headingLevels top 0 →
               k ≤ 2 ∧ occurs (headingLine (2 + k) t) s)
  ∧ (∀ inner i s,
        inner ∈ ns_namespaces top → i ∈ ns_interfaces inner →
        fromPrintable (PNamespace top) = Ok s →
        occurs (Js.nl +:+ "#### " +:+ interfaceTitle i +:+ Js.nl +:+ Js.nl) s)
  ∧ (succeeded (fromPrintable (PNamespace top)) ↔ deepest top 0 ≤ 2)
  ∧ (∀ message, fromPrintable (PNamespace top) = Throw message → message = nestingError)
  ∧ (∀ mid inner i,
        mid ∈ ns_namespaces top → inner ∈ ns_namespaces mid → i ∈ ns_interfaces inner →
        fromPrintable (PNamespace top) = Throw nestingError)
  ∧ getHeaderByIndentation 3 = Throw "Unsupported namespace nesting: 4".
Proof.
  assert (∀ s, fromPrintable (PNamespace top) = Ok s →
               ∀ t k, (t, k) ∈ headingLevels top 0 →
                      k ≤ 2 ∧ occurs (headingLine (2 + k) t) s) as Hlevels.
  { intros s Hs t k Hik. by apply (fromNamespace_headings top 0 s Hs t k). }
  assert (∀ message, fromPrintable (PNamespace top) = Throw message →
                     message = nestingError) as Hthrow.
  { intros message Hm. by apply (fromNamespace_Throw top 0 message); [lia|]. }
  split; [done|].
  split; [|split; [apply fromNamespace_succeeded|split; [done|split; [|done]]]].
  - intros inner i s Hinner Hi Hs.
    change (Js.nl +:+ "#### " +:+ interfaceTitle i +:+ Js.nl +:+ Js.nl)
      with (headingLine (2 + 2) (interfaceTitle i)).
    apply (Hlevels s Hs (interfaceTitle i) 2).
    destruct top as [doc ifs tas nss]. simpl in *.
    right. apply elem_of_app. right. apply elem_of_app. right.
    apply list_elem_of_In, in_concat.
    exists (headingLevels inner 1). split.
    + apply in_map_iff. exists inner. split; [done | by apply list_elem_of_In].
    + destruct inner as [doc' ifs' tas' nss']. simpl in *.
      right. apply in_or_app. left. apply in_map_iff. exists i.
      split; [done | by apply list_elem_of_In].
  - intros mid inner i Hmid Hinner Hi.
    destruct (fromPrintable (PNamespace top)) as [s|message] eqn:Hr;
      [|by rewrite (Hthrow message)].
    exfalso.
    assert (deepest top 0 ≤ 2) as Hd by (apply fromNamespace_succeeded; by exists s).
    apply deepest_le in Hd as (_ & _ & _ & Hd).
    rewrite Forall_forall in Hd. apply Hd, deepest_le in Hmid as (_ & _ & _ & Hd').
    rewrite Forall_forall in Hd'. apply Hd', deepest_le in Hinner as (_ & Hifs & _).
    assert (ns_interfaces inner ≠ []) as Hne by (intros Heq; rewrite Heq in Hi; by apply elem_of_nil in Hi).
    specialize (Hifs Hne). simpl in Hifs. lia.
Qed.

Lemma namespace_heading_depth_witness :
  ∃ s, fromPrintable (PNamespace Samples.topNs) = Ok s
       ∧ occurs (Js.nl +:+ "#### " +:+ interfaceTitle Samples.anInterface
                 +:+ Js.nl +:+ Js.nl) s.
Proof.
  eexists. split; [reflexivity|].
  apply (proj1 (proj2 (namespace_heading_depth Samples.topNs))
           Samples.innerNs Samples.anInterface); [left | left | reflexivity].
Defined.

(** The sample namespace with the interface three levels deep is rejected. *)
Example tooDeep_throws :
  fromPrintable (PNamespace Samples.tooDeepNs) = Throw "Unsupported namespace nesting: 4".
Proof. reflexivity. Qed.

End Namespaces.


(** ** Example extraction *)

Section Extraction.
Import Domain Props.

Lemma map_imap_const {A B C} (f : nat → A → B) (g : B → C) (h : A → C) (l : list A) :
  (∀ i x, g (f i x) = h x) → map g (imap f l) = map h l.
Proof.
  revert f. induction l as [|x l IH]; intros f Hf; [done|].
  simpl. rewrite Hf. f_equal. apply IH. intros i y. apply Hf.
Qed.

Lemma map_flat_map {A B C} (g : B → C) (f : A → list B) (l : list A) :
  map g (flat_map f l) = flat_map (λ x, map g (f x)) l.
Proof. induction l as [|x l IH]; simpl; [done | by rewrite map_app, IH]. Qed.

Lemma flat_map_map {A B C} (f : B → list C) (g : A → B) (l : list A) :
  flat_map f (map g l) = flat_map (λ x, f (g x)) l.
Proof. induction l as [|x l IH]; simpl; [done | by rewrite IH]. Qed.

Lemma getDocumentableExamples_contents cfg prefix id d :
  map FileSystem.content (Core.getDocumentableExamples cfg prefix id d)
  = map (λ e, e +:+ Js.nl) (examples d).
Proof. unfold Core.getDocumentableExamples. by apply map_imap_const. Qed.

Lemma flat_map_contents {A} cfg prefix id (f : A → Documentable) (l : list A) :
  map FileSystem.content
    (flat_map (λ x, Core.getDocumentableExamples cfg prefix id (f x)) l)
  = map (λ e, e +:+ Js.nl) (examplesOf (map f l)).
Proof.
  unfold examplesOf. induction l as [|x l IH]; [done|].
  cbn [flat_map map]. by rewrite !map_app, IH, getDocumentableExamples_contents.
Qed.

Lemma examplesOf_app (a b : list Documentable) :
  examplesOf (a ++ b) = examplesOf a ++ examplesOf b.
Proof. apply flat_map_app. Qed.

Lemma getModuleExampleFiles_contents cfg m :
  map FileSystem.content (Core.getModuleExampleFiles cfg m)
  = map (λ e, e +:+ Js.nl) (examplesOf (extractedDocumentables m)).
Proof.
  unfold Core.getModuleExampleFiles, extractedDocumentables.
  cbn [concat]. rewrite List.app_nil_r.
  change (examplesOf (?d :: ?l)) with (examples d ++ examplesOf l).
  rewrite !examplesOf_app, !map_app, !flat_map_contents, getDocumentableExamples_contents.
  do 2 f_equal.
  induction (classes m) as [|c cs IH]; [done|].
  cbn [flat_map concat]. rewrite examplesOf_app, !map_app, IH. f_equal.
  by rewrite List.app_nil_r, examplesOf_app, !map_app, !flat_map_contents.
Qed.

Lemma getExampleFiles_contents cfg ms :
  map FileSystem.content (Core.getExampleFiles cfg ms)
  = map (λ e, e +:+ Js.nl) (flat_map (λ m, examplesOf (extractedDocumentables m)) ms).
Proof.
  unfold Core.getExampleFiles. induction ms as [|m ms IH]; [done|].
  cbn [flat_map]. by rewrite !map_app, IH, getModuleExampleFiles_contents.
Qed.

(** C2, as amended. The extraction emits exactly one candidate file per
    example string of the module itself, of the methods and static methods of
    its classes, of its interfaces, type aliases, constants and functions, in
    that order and with the example followed by a line feed as content; the
    examples of the other documentables (the classes themselves, their
    properties, the exports and the namespaces) give no file. *)
Theorem getExampleFiles_one_file_per_extracted_example cfg (ms : list Module) :
  map FileSystem.content (Core.getExampleFiles cfg ms)
  = map (λ e, e +:+ Js.nl) (flat_map (λ m, examplesOf (extractedDocumentables m)) ms)
  ∧ length (Core.getExampleFiles cfg ms)
    = length (flat_map (λ m, examplesOf (extractedDocumentables m)) ms).
Proof.
  split; [apply getExampleFiles_contents|].
  rewrite <- (length_map FileSystem.content), getExampleFiles_contents.
  apply length_map.
Qed.

(** C2, as stated, fails: a module whose only example is on an export has one
    reachable example and no candidate file. *)
Lemma getExampleFiles_misses_export_examples :
  length (examplesOf (reachableDocumentables Samples.exportOnlyModule)) = 1
  ∧ Core.getExampleFiles Samples.cfg [Samples.exportOnlyModule] = []
  ∧ length (Core.getExampleFiles Samples.cfg [Samples.exportOnlyModule])
    ≠ length (examplesOf (reachableDocumentables Samples.exportOnlyModule)).
Proof. repeat split; [done..|]. by cbv. Qed.

End Extraction.

(** ** Imports *)

Section Imports.
Import Props.

Lemma startsWith_spec (p s : string) :
  Js.startsWith p s = true ↔ ∃ post, s = p +:+ post.
Proof.
  revert s. induction p as [|a p IH]; intros s.
  - split; [by exists s | by destruct s].
  - destruct s as [|b s]; simpl.
    + split; [done | by intros [post [=]]].
    + rewrite andb_true_iff, bool_decide_eq_true, IH. split.
      * intros [-> [post ->]]. by exists post.
      * intros [post H]. rewrite str_app_cons in H. injection H as -> ->. eauto.
Qed.

Lemma indexOfFrom_Some (needle s : string) (i j : nat) :
  Js.indexOfFrom needle s i = Some j → occurs needle s.
Proof.
  revert i. induction s as [|c s IH]; intros i; simpl.
  - destruct (Js.startsWith needle "") eqn:Hsw; [|done].
    intros _. apply startsWith_spec in Hsw as [post ->]. exists "", post. done.
  - destruct (Js.startsWith needle (String c s)) eqn:Hsw.
    + intros _. apply startsWith_spec in Hsw as [post ->]. by exists "", post.
    + intros (pre & post & ->)%IH. by exists (String c pre), post.
Qed.

Lemma indexOfFrom_None (needle s : string) (i : nat) :
  Js.indexOfFrom needle s i = None → ¬ occurs needle s.
Proof.
  revert i. induction s as [|c s IH]; intros i; simpl.
  - destruct (Js.startsWith needle "") eqn:Hsw; [done|].
    intros _ (pre & post & H). destruct pre; [|done].
    rewrite str_app_nil_l in H.
    assert (Js.startsWith needle "" = true) by (apply startsWith_spec; eauto). congruence.
  - destruct (Js.startsWith needle (String c s)) eqn:Hsw; [done|].
    intros Hnone (pre & post & H). destruct pre as [|a pre].
    + rewrite str_app_nil_l in H.
      assert (Js.startsWith needle (String c s) = true) by (apply startsWith_spec; eauto).
      congruence.
    + rewrite str_app_cons in H. injection H as -> ->.
      apply (IH _ Hnone). by exists pre, post.
Qed.

Lemma indexOf_occurs (needle s : string) :
  is_Some (Js.indexOf needle s) ↔ occurs needle s.
Proof.
  unfold Js.indexOf. destruct (Js.indexOfFrom needle s 0) eqn:H.
  - split; [intros _; by eapply indexOfFrom_Some | by eexists].
  - split; [by intros [? ?] | intros Hocc; by apply indexOfFrom_None in H].
Qed.

Lemma prepend_changes (p s : string) : p ≠ "" → p +:+ s ≠ s.
Proof.
  intros Hp H. apply (f_equal String.length) in H. rewrite str_app_length in H.
  destruct p; [done | simpl in H; lia].
Qed.

(** C6, as amended. The shim step prepends the assert import exactly when
    the candidate's text (after the import rewriting) contains "assert.",
    whether or not the text already imports the assertion module; a
    candidate that does not contain it is left as the import rewriting gave
    it. Paths and overwrite flags are kept. *)
Theorem assert_import_iff_text_mentions_assert (cfg : Core.Config)
    (files : list FileSystem.File) :
  (∀ code,
      (occurs "assert." code ↔ Core.addAssertImport code = Core.assertImport +:+ code)
      ∧ (¬ occurs "assert." code ↔ Core.addAssertImport code = code))
  ∧ Core.handleImports cfg files
    = map (λ f, FileSystem.makeFile (FileSystem.path f)
                  (Core.addAssertImport (Core.replaceProjectName cfg (FileSystem.content f)))
                  (FileSystem.overwrite f)) files.
Proof.
  split; [|done]. intros code. unfold Core.addAssertImport.
  destruct (Js.indexOf "assert." code) as [i|] eqn:Hi.
  - assert (occurs "assert." code) as Hocc by (apply indexOf_occurs; rewrite Hi; by eexists).
    split; split; try done.
    intros H. by apply prepend_changes in H.
  - assert (¬ occurs "assert." code) as Hocc.
    { intros H%indexOf_occurs. rewrite Hi in H. by destruct H. }
    split; split; try done.
    intros H. symmetry in H. by apply prepend_changes in H.
Qed.

(** C6, as stated, fails: a candidate that already imports the assertion
    module and uses it gets the import a second time. *)
Lemma assert_import_added_twice :
  Js.startsWith Core.assertImport Samples.importingExample = true
  ∧ Core.addAssertImport Samples.importingExample
    = Core.assertImport +:+ Samples.importingExample
  ∧ Core.addAssertImport Samples.importingExample ≠ Samples.importingExample
  ∧ FileSystem.content <$>
      Core.handleImports Samples.cfg [FileSystem.makeFile "a.ts" Samples.importingExample true]
    = [Core.assertImport +:+ Samples.importingExample].
Proof.
  split; [done|]. split; [done|]. split; [|by vm_compute].
  intros H. vm_compute in H. discriminate H.
Qed.

End Imports.

(** ** Titles and output paths *)

Section OutputPaths.
Import Domain.

(** C10. The front-matter title of a module document and its output path
    both come from [module.path] without its first segment: the title is the
    remaining segments joined by "/" (it is what [printModule] hands to
    [getMeta], together with the order), and the path is the join of the
    output directory, "modules" and the remaining segments joined by the path
    separator, followed by ".md". A path of one segment therefore gives the
    empty title and the file ".md" under the modules directory. *)
Theorem title_and_output_path_drop_first_segment
    (L : Markdown.Libs) (K : Js.KeyOrder) (cfg : Core.Config) (m : Module) (order : nat) :
  Markdown.printModule L K m order
  = (content ← Markdown.renderContent K m;
     contents ← Markdown.tableOfContents L content;
     Markdown.prettify L (Js.join Js.nl [
       Markdown.getMeta (Js.join "/" (drop 1 (path m))) order;
       Markdown.paragraph [Markdown.getModuleDescription m];
       "---" +:+ Js.nl;
       contents;
       "---" +:+ Js.nl;
       content]))
  ∧ Core.getMarkdownOutputPath cfg m
    = Core.join [Core.outDir cfg; "modules";
                 Js.join NodePath.sep (drop 1 (path m)) +:+ ".md"]
  ∧ (∀ first rest,
       path m = first :: rest →
       Js.join "/" (drop 1 (path m)) = Js.join "/" rest
       ∧ Core.getMarkdownOutputPath cfg m
         = Core.join [Core.outDir cfg; "modules"; Js.join "/" rest +:+ ".md"])
  ∧ (∀ only,
       path m = [only] →
       Js.join "/" (drop 1 (path m)) = ""
       ∧ Markdown.getMeta (Js.join "/" (drop 1 (path m))) order
         = Markdown.paragraph ["---"; Js.nl; "title: "; Js.nl;
                               "nav_order: " +:+ Js.ofNat order; Js.nl;
                               "parent: Modules"; Js.nl; "---"]
       ∧ Core.getMarkdownOutputPath cfg m = Core.join [Core.outDir cfg; "modules"; ".md"]).
Proof.
  split; [done|]. split; [done|]. split.
  - intros first rest Hp. unfold Core.getMarkdownOutputPath. by rewrite Hp.
  - intros only Hp. unfold Core.getMarkdownOutputPath. by rewrite Hp.
Qed.

(** With the output directory "docs", a module whose path is the single
    segment "index.ts" is written to "docs/modules/.md", and a module at
    "src/a/b.ts" to "docs/modules/a/b.ts.md". *)
Example output_path_samples :
  Core.getMarkdownOutputPath Samples.cfg (Samples.emptyModule ["index.ts"])
  = "docs/modules/.md"
  ∧ Core.getMarkdownOutputPath Samples.cfg (Samples.emptyModule ["src"; "a"; "b.ts"])
    = "docs/modules/a/b.ts.md".
Proof. by vm_compute. Qed.

End OutputPaths.


(** ** The type-check run *)

Section TypeCheck.
Import Domain Props.
Context {W : Type} (S : Core.Services W).

Lemma typeCheckExamples_empty (ms : list Module) :
  candidates (Core.config S) ms = [] →
  Core.typeCheckExamples S ms = Core.cleanExamples S.
Proof. unfold Core.typeCheckExamples, candidates. by intros ->. Qed.

Lemma typeCheckExamples_nonempty (ms : list Module) :
  candidates (Core.config S) ms ≠ [] →
  Core.typeCheckExamples S ms
  = Effect.zipRight (writeAndCheck S (candidates (Core.config S) ms)) (Core.cleanExamples S).
Proof.
  unfold Core.typeCheckExamples, candidates, writeAndCheck.
  by destruct (Core.handleImports _ _).
Qed.

(** C1, as amended. A run of [typeCheckExamples] removes the examples
    directory when the candidate set is empty (the run is the removal itself)
    and when writing the candidates and the type check succeed (the removal
    runs on the world they leave). When a write or the type-check subprocess
    fails, the run ends with that failure in the world the failing step left:
    the removal is not run. So every run that succeeds ends with the removal,
    and, with a file system whose successful removal leaves the path absent,
    the directory does not exist after a successful run. *)
Theorem typeCheckExamples_cleanup (ms : list Module) (w : W) :
  (candidates (Core.config S) ms = [] →
     Core.typeCheckExamples S ms w = Core.removeFile S (Core.examplesDir S) w)
  ∧ (candidates (Core.config S) ms ≠ [] →
     ∀ w1, writeAndCheck S (candidates (Core.config S) ms) w = (Success tt, w1) →
           Core.typeCheckExamples S ms w = Core.removeFile S (Core.examplesDir S) w1)
  ∧ (candidates (Core.config S) ms ≠ [] →
     ∀ e w1, writeAndCheck S (candidates (Core.config S) ms) w = (Failure e, w1) →
             Core.typeCheckExamples S ms w = (Failure e, w1))
  ∧ (∀ w', Core.typeCheckExamples S ms w = (Success tt, w') →
           ∃ w1, Core.removeFile S (Core.examplesDir S) w1 = (Success tt, w'))
  ∧ ((∀ p w1 w2, Core.removeFile S p w1 = (Success tt, w2) →
                 Core.pathExists S p w2 = (Success false, w2)) →
     ∀ w', Core.typeCheckExamples S ms w = (Success tt, w') →
           Core.pathExists S (Core.examplesDir S) w' = (Success false, w')).
Proof.
  assert (∀ w', Core.typeCheckExamples S ms w = (Success tt, w') →
                ∃ w1, Core.removeFile S (Core.examplesDir S) w1 = (Success tt, w')) as Hlast.
  { intros w'. destruct (decide (candidates (Core.config S) ms = [])) as [He|Hne].
    - rewrite typeCheckExamples_empty by done. intros H. by exists w.
    - rewrite typeCheckExamples_nonempty by done.
      unfold Effect.zipRight, Effect.flatMap.
      destruct (writeAndCheck S _ w) as [[[]|e] w1]; [|done].
      intros H. by exists w1. }
  split; [|split; [|split; [|split]]].
  - intros He. by rewrite typeCheckExamples_empty.
  - intros Hne w1 Hrun. rewrite typeCheckExamples_nonempty by done.
    unfold Effect.zipRight, Effect.flatMap. by rewrite Hrun.
  - intros Hne e w1 Hrun. rewrite typeCheckExamples_nonempty by done.
    unfold Effect.zipRight, Effect.flatMap. by rewrite Hrun.
  - done.
  - intros Hrm w' Hrun. destruct (Hlast w' Hrun) as [w1 Hw1]. by apply (Hrm _ w1).
Qed.

End TypeCheck.

Section TypeCheckInMemory.
Import Domain Props.

Lemma inMemory_removed_absent cfg cwd tsNode (p : string) (w1 w2 : gmap string string) :
  Core.removeFile (InMemory.services cfg cwd tsNode) p w1 = (Success tt, w2) →
  Core.pathExists (InMemory.services cfg cwd tsNode) p w2 = (Success false, w2).
Proof.
  simpl. intros [= <-]. f_equal. f_equal. unfold InMemory.exists_.
  apply bool_decide_eq_false. intros H. apply H.
  apply map_eq. intros i. rewrite lookup_empty.
  apply map_lookup_filter_None_2. right. intros x [_ Hi]%map_lookup_filter_Some.
  simpl in *. by rewrite Hi.
Qed.

(** With the accepting type checker the sample run succeeds and leaves no
    examples directory. *)
Lemma typeCheckExamples_cleanup_witness :
  ∃ w', Core.typeCheckExamples Samples.acceptingServices [Samples.classModule] ∅
        = (Success tt, w')
        ∧ Core.pathExists Samples.acceptingServices
            (Core.examplesDir Samples.acceptingServices) w' = (Success false, w').
Proof.
  eexists. split; [by vm_compute|].
  apply (proj2 (proj2 (proj2 (proj2
    (typeCheckExamples_cleanup Samples.acceptingServices [Samples.classModule] ∅))))).
  - intros p w1 w2. apply inMemory_removed_absent.
  - by vm_compute.
Defined.

(** C1, as stated, fails on the failure path: with a type checker that
    reports an error the run fails and the examples directory, with the
    candidate files in it, is still there. *)
Lemma typeCheckExamples_failure_leaves_examples :
  ∃ w', Core.typeCheckExamples Samples.rejectingServices [Samples.classModule] ∅
        = (Failure (ExecutionError "ts-node" "error TS2322: Type 'number' is not assignable"),
           w')
        ∧ Core.pathExists Samples.rejectingServices
            (Core.examplesDir Samples.rejectingServices) w' = (Success true, w')
        ∧ w' !! "/work/docs/examples/index.ts"
          = Some ("import './src-index.ts-module-index-0'" +:+ Js.nl +:+
                  "import './src-index.ts-A-method-m-0'" +:+ Js.nl).
Proof.
  exists (Core.typeCheckExamples Samples.rejectingServices [Samples.classModule] ∅).2.
  split; [apply injective_projections; [by vm_compute | done]|].
  split; [|by vm_compute].
  change (Core.pathExists Samples.rejectingServices ?p ?w)
    with (Success (InMemory.exists_ w (InMemory.resolve "/work" p)), w).
  by f_equal.
Qed.

End TypeCheckInMemory.


(** ** File names of the examples *)

Section FileNames.
Import Domain Props.

Lemma dashFree_app (a b : string) : dashFree (a +:+ b) = dashFree a && dashFree b.
Proof.
  induction a as [|c a IH]; [done|]. rewrite str_app_cons. simpl.
  by rewrite IH, andb_assoc.
Qed.

Lemma dashFree_dash (a b : string) : dashFree (a +:+ String "-" b) = false.
Proof. rewrite dashFree_app. simpl. apply andb_false_r. Qed.

(** A string is cut at its last dash in one way only. *)
Lemma split_last_dash (a b x y : string) :
  dashFree x = true → dashFree y = true →
  a +:+ "-" +:+ x = b +:+ "-" +:+ y → a = b ∧ x = y.
Proof.
  intros Hx Hy. revert b. induction a as [|c a IH]; intros [|c' b] H.
  - str_norm H. by injection H as ->.
  - str_norm H. injection H as <- ->.
    by rewrite dashFree_dash in Hx.
  - str_norm H. injection H as -> <-.
    by rewrite dashFree_dash in Hy.
  - str_norm H. injection H as -> H.
    destruct (IH _ H) as [-> ->]. done.
Qed.

Lemma dashFree_digits (d : Decimal.uint) : dashFree (NilEmpty.string_of_uint d) = true.
Proof. induction d; simpl; done. Qed.

Lemma dashFree_ofNat (n : nat) : dashFree (Js.ofNat n) = true.
Proof.
  unfold Js.ofNat, NilZero.string_of_uint.
  destruct (Nat.to_uint n); [done | apply (dashFree_digits (_ _))..].
Qed.

Lemma ofNat_inj (a b : nat) : Js.ofNat a = Js.ofNat b → a = b.
Proof.
  assert (∀ d, option_map Nat.of_uint (NilZero.uint_of_string (NilZero.string_of_uint d))
               = Some (Nat.of_uint d)) as Hd.
  { intros d. destruct d; [done | by rewrite NilZero.usu..]. }
  unfold Js.ofNat. intros H.
  pose proof (Hd (Nat.to_uint a)) as Ha. rewrite H, Hd in Ha.
  rewrite !DecimalNat.Unsigned.of_to in Ha. by injection Ha.
Qed.

Lemma prefix_roleTag (p : string) (r : Role) :
  p +:+ "-" +:+ roleTag r = withOwner p r +:+ "-" +:+ kindWord r.
Proof. destruct r; simpl; by rewrite ?str_app_assoc. Qed.

Lemma prefix_role_inj (p1 p2 : string) (r1 r2 : Role) :
  ownerDashFree r1 = true → ownerDashFree r2 = true →
  p1 +:+ "-" +:+ roleTag r1 = p2 +:+ "-" +:+ roleTag r2 → p1 = p2 ∧ r1 = r2.
Proof.
  intros H1 H2. rewrite !prefix_roleTag. intros H.
  apply split_last_dash in H as [Hp Hk]; [|by destruct r1 | by destruct r2].
  destruct r1, r2; simpl in *; try discriminate Hk; try (by subst);
    apply split_last_dash in Hp as [-> ->]; done.
Qed.

Lemma exampleFileName_inj (p1 p2 : string) (r1 r2 : Role) (n1 n2 : string) (i1 i2 : nat) :
  dashFree n1 = true → dashFree n2 = true →
  ownerDashFree r1 = true → ownerDashFree r2 = true →
  Core.exampleFileName p1 (roleTag r1) n1 i1 = Core.exampleFileName p2 (roleTag r2) n2 i2 →
  p1 = p2 ∧ r1 = r2 ∧ n1 = n2 ∧ i1 = i2.
Proof.
  intros Hn1 Hn2 Hr1 Hr2. unfold Core.exampleFileName. intros H.
  assert (∀ p t n i,
            p +:+ "-" +:+ t +:+ "-" +:+ n +:+ "-" +:+ Js.ofNat i +:+ ".ts"
            = (((p +:+ "-" +:+ t) +:+ "-" +:+ n) +:+ "-" +:+ Js.ofNat i) +:+ ".ts") as Hassoc.
  { intros. by rewrite !str_app_assoc. }
  rewrite !Hassoc in H. apply str_app_inv_tail in H.
  apply split_last_dash in H as [H Hi]; [|apply dashFree_ofNat..].
  apply ofNat_inj in Hi as ->.
  apply split_last_dash in H as [H ->]; [|done..].
  apply prefix_role_inj in H as [-> ->]; done.
Qed.

Lemma getDocumentableExamples_named cfg prefix (r : Role) (d : Documentable) f :
  In f (Core.getDocumentableExamples cfg prefix (roleTag r) d) →
  ∃ i e, examples d !! i = Some e
         ∧ f = FileSystem.makeFile
                 (Core.join [Core.outDir cfg; "examples";
                             Core.exampleFileName prefix (roleTag r) (name d) i])
                 (e +:+ Js.nl) true.
Proof.
  unfold Core.getDocumentableExamples.
  intros (i & e & -> & He)%list_elem_of_In%elem_of_lookup_imap. by exists i, e.
Qed.

Lemma getModuleExampleFiles_named cfg (m : Module) (f : FileSystem.File) :
  f ∈ Core.getModuleExampleFiles cfg m →
  ∃ r d i e,
    examples d !! i = Some e
    ∧ f = FileSystem.makeFile
            (Core.join [Core.outDir cfg; "examples";
                        Core.exampleFileName (Js.join "-" (path m)) (roleTag r) (name d) i])
            (e +:+ Js.nl) true.
Proof.
  unfold Core.getModuleExampleFiles. cbn [concat]. rewrite List.app_nil_r.
  intros Hf%list_elem_of_In. repeat apply in_app_or in Hf as [Hf|Hf].
  - apply (getDocumentableExamples_named _ _ RModule) in Hf as (i & e & ? & ?).
    by exists RModule, (module_doc m), i, e.
  - apply in_flat_map in Hf as (c & _ & Hf). cbn [concat] in Hf.
    rewrite List.app_nil_r in Hf. apply in_app_or in Hf as [Hf|Hf].
    + apply in_flat_map in Hf as (x & _ & Hf).
      apply (getDocumentableExamples_named _ _ (RMethod _)) in Hf as (i & e & ? & ?).
      by exists (RMethod (name (class_doc c))), (method_doc x), i, e.
    + apply in_flat_map in Hf as (x & _ & Hf).
      apply (getDocumentableExamples_named _ _ (RStaticMethod _)) in Hf as (i & e & ? & ?).
      by exists (RStaticMethod (name (class_doc c))), (method_doc x), i, e.
  - apply in_flat_map in Hf as (x & _ & Hf).
    apply (getDocumentableExamples_named _ _ RInterface) in Hf as (i & e & ? & ?).
    by exists RInterface, (interface_doc x), i, e.
  - apply in_flat_map in Hf as (x & _ & Hf).
    apply (getDocumentableExamples_named _ _ RTypeAlias) in Hf as (i & e & ? & ?).
    by exists RTypeAlias, (typeAlias_doc x), i, e.
  - apply in_flat_map in Hf as (x & _ & Hf).
    apply (getDocumentableExamples_named _ _ RConstant) in Hf as (i & e & ? & ?).
    by exists RConstant, (constant_doc x), i, e.
  - apply in_flat_map in Hf as (x & _ & Hf).
    apply (getDocumentableExamples_named _ _ RFunction) in Hf as (i & e & ? & ?).
    by exists RFunction, (function_doc x), i, e.
Qed.

(** C4, as amended. Every candidate of a module is named from the module
    prefix (the path segments joined by "-"), the role tag of its documentable
    (its kind, after the class name for a method), the documentable's name
    and the index of the example. For names and class names without "-" (as
    identifiers are), the naming is injective in the joined prefix, the role,
    the name and the index: two examples that differ in one of them get
    different file names, so two entries with the same name but a different
    kind or owning class never share a file name. *)
Theorem exampleFileName_injective_for_identifiers :
  (∀ cfg (m : Module) (f : FileSystem.File),
      f ∈ Core.getModuleExampleFiles cfg m →
      ∃ r d i e,
        examples d !! i = Some e
        ∧ f = FileSystem.makeFile
                (Core.join [Core.outDir cfg; "examples";
                            Core.exampleFileName (Js.join "-" (path m)) (roleTag r)
                              (name d) i])
                (e +:+ Js.nl) true)
  ∧ (∀ (p1 p2 : string) (r1 r2 : Role) (n1 n2 : string) (i1 i2 : nat),
      dashFree n1 = true → dashFree n2 = true →
      ownerDashFree r1 = true → ownerDashFree r2 = true →
      (p1, r1, n1, i1) ≠ (p2, r2, n2, i2) →
      Core.exampleFileName p1 (roleTag r1) n1 i1
      ≠ Core.exampleFileName p2 (roleTag r2) n2 i2).
Proof.
  split; [apply getModuleExampleFiles_named|].
  intros p1 p2 r1 r2 n1 n2 i1 i2 Hn1 Hn2 Hr1 Hr2 Hne Heq. apply Hne.
  by apply exampleFileName_inj in Heq as (-> & -> & -> & ->).
Qed.

(** A method [m] of a class [A] and an interface [m] of the same module get
    different file names. *)
Lemma exampleFileName_injective_witness :
  Core.exampleFileName "src-index.ts" (roleTag (RMethod "A")) "m" 0
  ≠ Core.exampleFileName "src-index.ts" (roleTag RInterface) "m" 0.
Proof.
  apply (proj2 exampleFileName_injective_for_identifiers); [reflexivity..|].
  intros H. discriminate H.
Defined.

(** C4, as stated, fails: the modules at [src/a-b.ts] and [src/a/b.ts] have
    different paths and the same joined prefix, so the examples of their
    interfaces [A] are given the same file. *)
Lemma exampleFileName_collision :
  path Samples.dashedModule ≠ path Samples.nestedModule
  ∧ FileSystem.path <$> Core.getExampleFiles Samples.cfg
                          [Samples.dashedModule; Samples.nestedModule]
    = ["docs/examples/src-a-b.ts-interface-A-0.ts";
       "docs/examples/src-a-b.ts-interface-A-0.ts"]
  ∧ FileSystem.content <$> Core.getExampleFiles Samples.cfg
                             [Samples.dashedModule; Samples.nestedModule]
    = ["first()" +:+ Js.nl; "second()" +:+ Js.nl].
Proof. split; [intros H; discriminate H|]. split; by vm_compute. Qed.

End FileNames.


(** ** Grouping *)

Section Grouping.
Import Props.
Context {A : Type} (f : A → string).

Lemma pushAt_keys (k : string) (a : A) (out : Js.Record_ (list A)) :
  map fst (Js.pushAt k a out)
  = if decide (k ∈ map fst out) then map fst out
    else if decide (k = Js.protoKey) then map fst out else map fst out ++ [k].
Proof.
  induction out as [|[k' g] out IH].
  - cbn [Js.pushAt map].
    destruct (decide (k ∈ [])) as [Hin|_]; [by apply elem_of_nil in Hin|].
    case_bool_decide as Hp; [by rewrite decide_True | by rewrite decide_False].
  - simpl. case_bool_decide as Hk.
    + subst k'. rewrite decide_True by left. done.
    + simpl. rewrite IH. destruct (decide (k ∈ map fst out)) as [Hin|Hin].
      * by rewrite decide_True by (by right).
      * rewrite (decide_False (P := k ∈ k' :: map fst out));
          [by destruct (decide (k = Js.protoKey))|].
        intros [?|?]%elem_of_cons; congruence.
Qed.

Lemma pushAt_entries (k : string) (a : A) (out : Js.Record_ (list A)) (k' : string) (g' : list A) :
  NoDup (map fst out) →
  (k', g') ∈ Js.pushAt k a out →
  (k' ≠ k ∧ (k', g') ∈ out)
  ∨ (k' = k ∧ ((∃ g, (k, g) ∈ out ∧ g' = g ++ [a])
               ∨ ((k ∉ map fst out) ∧ k ≠ Js.protoKey ∧ g' = [a]))).
Proof.
  induction out as [|[k0 g0] out IH]; simpl.
  - intros _. case_bool_decide as Hp; [by intros ?%elem_of_nil|].
    intros [= -> ->]%list_elem_of_singleton. right. split; [done|]. right.
    split; [apply not_elem_of_nil | done].
  - intros [Hk0 Hnd]%NoDup_cons. case_bool_decide as Hk.
    + subst k0. intros [[= -> ->]|Hin]%elem_of_cons.
      * right. split; [done|]. left. exists g0. split; [left | done].
      * left. split; [|by right]. intros ->. apply Hk0.
        apply list_elem_of_In, in_map_iff. exists (k, g'). split; [done|].
        by apply list_elem_of_In.
    + intros [[= -> ->]|Hin]%elem_of_cons.
      * left. split; [done | left].
      * destruct (IH Hnd Hin) as [[? ?]|[-> [(g & ? & ->)|(? & ? & ->)]]].
        -- left. split; [done | by right].
        -- right. split; [done|]. left. exists g. split; [by right | done].
        -- right. split; [done|]. right. split; [|done].
           intros [?|?]%elem_of_cons; congruence.
Qed.

Lemma grouped_push (seen : list A) (out : Js.Record_ (list A)) (a : A) :
  grouped f seen out → grouped f (seen ++ [a]) (Js.pushAt (f a) a out).
Proof.
  intros (Hnd & Hgroups & Hkeys). split; [|split].
  - rewrite pushAt_keys. case_decide as Hin; [done|]. case_decide as Hp; [done|].
    apply NoDup_app. split; [done|]. split; [|apply NoDup_singleton].
    intros x Hx ->%list_elem_of_singleton. done.
  - intros k g Hin. rewrite filter_app.
    apply pushAt_entries in Hin as [[Hne Hin]|[-> [(g0 & Hin & ->)|(Hnin & Hp & ->)]]];
      [|..|done].
    + destruct (Hgroups _ _ Hin) as (? & -> & ?). split; [done|]. split; [|done].
      rewrite (filter_cons_False _ a) by (simpl; congruence).
      by rewrite filter_nil, List.app_nil_r.
    + destruct (Hgroups _ _ Hin) as (? & -> & ?).
      split; [by destruct (filter _ seen)|]. split; [|done].
      by rewrite (filter_cons_True _ a) by done.
    + split; [done|]. split; [|done]. rewrite (filter_cons_True _ a) by done.
      rewrite filter_nil.
      assert (filter (λ x, f x = f a) seen = []) as ->; [|done].
      destruct (filter (λ x, f x = f a) seen) as [|x l] eqn:Hfl; [done|].
      assert (x ∈ filter (λ x, f x = f a) seen) as [Hx Hs]%list_elem_of_filter
        by (rewrite Hfl; left).
      exfalso. apply Hnin. rewrite <- Hx. apply Hkeys; [done|]. by rewrite Hx.
  - intros x [Hx| ->%list_elem_of_singleton]%elem_of_app Hp; rewrite pushAt_keys.
    + case_decide; [by apply Hkeys|].
      case_decide; [by apply Hkeys | apply elem_of_app; left; by apply Hkeys].
    + case_decide; [done|]. rewrite decide_False by done. apply elem_of_app; right; left.
Qed.

Lemma grouped_foldl (l seen : list A) (out : Js.Record_ (list A)) :
  grouped f seen out →
  grouped f (seen ++ l) (foldl (λ out a, Js.pushAt (f a) a out) out l).
Proof.
  revert seen out. induction l as [|a l IH]; intros seen out H; simpl.
  - by rewrite List.app_nil_r.
  - rewrite (assoc_L (++) seen [a] l : seen ++ a :: l = (seen ++ [a]) ++ l).
    by apply IH, grouped_push.
Qed.

Lemma groupBy_grouped (l : list A) : grouped f l (Js.groupBy f l).
Proof.
  apply (grouped_foldl l [] []). split; [constructor|].
  split; [by intros ?? ?%elem_of_nil | by intros ? ?%elem_of_nil].
Qed.

End Grouping.

(** ** Sorting *)

Section Sorting.
Import Props.
Context {A : Type} (key : A → string).

Lemma leBy_true (a b : A) : Js.leBy key a b = true ↔ keyLe key a b.
Proof. unfold Js.leBy, keyLe, String.le. by rewrite Is_true_true. Qed.

Lemma leBy_false (a b : A) : Js.leBy key a b = false → keyLe key b a ∧ key a ≠ key b.
Proof.
  intros H. split.
  - destruct (total String.le (key a) (key b)) as [Hle|Hle]; [|done].
    apply leBy_true in Hle. congruence.
  - intros Heq. assert (keyLe key a b) as Hle%leBy_true; [|congruence].
    unfold keyLe. by rewrite Heq.
Qed.

Global Instance keyLe_trans : Transitive (keyLe key).
Proof. intros a b c. unfold keyLe. apply transitivity. Qed.

Lemma insertBy_Permutation (x : A) (l : list A) :
  Js.insertBy (Js.leBy key) x l ≡ₚ x :: l.
Proof.
  induction l as [|y l IH]; simpl; [done|].
  destruct (Js.leBy key x y); [done|]. by rewrite IH, Permutation_swap.
Qed.

Lemma sortBy_Permutation (l : list A) : Js.sortBy (Js.leBy key) l ≡ₚ l.
Proof.
  induction l as [|x l IH]; simpl; [done|]. by rewrite insertBy_Permutation, IH.
Qed.

Lemma insertBy_Sorted (x : A) (l : list A) :
  Sorted (keyLe key) l → Sorted (keyLe key) (Js.insertBy (Js.leBy key) x l).
Proof.
  induction l as [|y l IH]; simpl; intros Hs.
  - by repeat constructor.
  - destruct (Js.leBy key x y) eqn:Hle.
    + constructor; [done|]. constructor. by apply leBy_true.
    + apply Sorted_inv in Hs as [Hs Hhd]. constructor; [by apply IH|].
      apply leBy_false in Hle as [Hle _].
      destruct l as [|z l]; simpl; [by constructor|].
      destruct (Js.leBy key x z); constructor; [done|].
      by apply HdRel_inv in Hhd.
Qed.

Lemma sortBy_Sorted (l : list A) : Sorted (keyLe key) (Js.sortBy (Js.leBy key) l).
Proof. induction l as [|x l IH]; simpl; [constructor | by apply insertBy_Sorted]. Qed.

(** The sort is stable: the elements of one key keep their order. *)
Lemma insertBy_stable (k : string) (x : A) (l : list A) :
  filter (λ y, key y = k) (Js.insertBy (Js.leBy key) x l)
  = filter (λ y, key y = k) (x :: l).
Proof.
  induction l as [|y l IH]; simpl; [done|].
  destruct (Js.leBy key x y) eqn:Hle; [done|].
  apply leBy_false in Hle as [_ Hne].
  rewrite (filter_cons _ y), IH, !(filter_cons _ x), (filter_cons _ y).
  destruct (decide (key x = k)), (decide (key y = k)); congruence.
Qed.

Lemma sortBy_stable (k : string) (l : list A) :
  filter (λ y, key y = k) (Js.sortBy (Js.leBy key) l) = filter (λ y, key y = k) l.
Proof.
  induction l as [|x l IH]; simpl; [done|].
  by rewrite insertBy_stable, !(filter_cons _ x), IH.
Qed.

(** In a sorted list, an element with a strictly smaller key comes first. *)
Lemma Sorted_before (l : list A) (a b : A) :
  Sorted (keyLe key) l → a ∈ l → b ∈ l → strLt (key a) (key b) →
  ∃ l1 l2 l3, l = l1 ++ a :: l2 ++ b :: l3.
Proof.
  intros Hs%Sorted_StronglySorted Ha Hb [Hle Hne]; [|apply _].
  apply list_elem_of_split in Hb as (la & lb & ->).
  apply elem_of_app in Ha as [Ha|[Hab|Ha]%elem_of_cons].
  - apply list_elem_of_split in Ha as (l1 & l2 & ->).
    exists l1, l2, lb. by rewrite <- List.app_assoc.
  - by subst.
  - exfalso. apply StronglySorted_app_1_r, StronglySorted_inv in Hs as [_ Hall].
    rewrite Forall_forall in Hall. specialize (Hall a Ha).
    apply Hne. by apply (anti_symm String.le).
Qed.

End Sorting.

(** ** The body of a module document *)

Section Body.
Import Domain Markdown Props.

Lemma join_cons_cons (sep x y : string) (l : list string) :
  Js.join sep (x :: y :: l) = x +:+ sep +:+ Js.join sep (y :: l).
Proof. reflexivity. Qed.

Lemma join_head (sep x : string) (l : list string) :
  Js.join sep (x :: l) = x +:+ joinAfter sep l.
Proof.
  revert x. induction l as [|y l IH]; intros x.
  - simpl. by rewrite str_app_nil_r.
  - rewrite join_cons_cons, IH. done.
Qed.

Lemma join_split (sep : string) (l1 : list string) (x : string) (l2 : list string) :
  Js.join sep (l1 ++ x :: l2) = joinBefore sep l1 +:+ x +:+ joinAfter sep l2.
Proof.
  induction l1 as [|y l1 IH]; [apply join_head|].
  destruct l1 as [|z l1].
  - simpl app. rewrite join_cons_cons, join_head. simpl.
    by rewrite !str_app_assoc.
  - change ((y :: z :: l1) ++ x :: l2) with (y :: z :: (l1 ++ x :: l2)).
    rewrite join_cons_cons. change (z :: l1 ++ x :: l2) with ((z :: l1) ++ x :: l2).
    rewrite IH. unfold joinBefore. simpl. by rewrite !str_app_assoc.
Qed.

Lemma joinAfter_app (sep : string) (l1 : list string) (x : string) (l2 : list string) :
  joinAfter sep (l1 ++ x :: l2) = joinAfter sep l1 +:+ sep +:+ x +:+ joinAfter sep l2.
Proof.
  induction l1 as [|y l1 IH]; [done|].
  simpl. rewrite IH. by rewrite !str_app_assoc.
Qed.

Lemma occursBefore_join (sep : string) (l1 l2 l3 : list string) (a b : string) :
  occursBefore a b (Js.join sep (l1 ++ a :: l2 ++ b :: l3)).
Proof.
  rewrite join_split, joinAfter_app.
  by exists (joinBefore sep l1), (joinAfter sep l2 +:+ sep), (joinAfter sep l3);
    rewrite !str_app_assoc.
Qed.

Lemma occursBefore_within (a b x s : string) :
  occursBefore a b x → occurs x s → occursBefore a b s.
Proof.
  intros (pre & mid & post & ->) (p & q & ->).
  exists (p +:+ pre), mid, (post +:+ q). by rewrite !str_app_assoc.
Qed.

Lemma keys_determine_entries {V} (r : list (string * V)) (k : string) (v1 v2 : V) :
  NoDup (map fst r) → (k, v1) ∈ r → (k, v2) ∈ r → v1 = v2.
Proof.
  induction r as [|[k0 v0] r IH]; simpl; [by intros _ ?%elem_of_nil|].
  intros [Hk0 Hnd]%NoDup_cons.
  assert (∀ v, (k0, v) ∈ r → False) as Hfresh.
  { intros v Hin. apply Hk0, list_elem_of_In, in_map_iff. exists (k0, v).
    split; [done | by apply list_elem_of_In]. }
  intros [[= -> ->]|H1]%elem_of_cons [[= ->]|H2]%elem_of_cons; try done.
  - by destruct (Hfresh v2).
  - subst. by destruct (Hfresh v1).
  - by apply IH.
Qed.

Lemma map_fst_Sorted {V} (l : list (string * V)) :
  Sorted (keyLe fst) l → Sorted String.le (map fst l).
Proof.
  induction 1 as [|x l Hs IH Hhd]; simpl; constructor; [done|].
  destruct Hhd; simpl; by constructor.
Qed.

Lemma sortedEntries_Permutation (K : Js.KeyOrder) (m : Module) :
  sortedEntries K m ≡ₚ Js.groupBy categoryOf (getPrintables m).
Proof. unfold sortedEntries. by rewrite sortBy_Permutation, Js.enumerate_perm. Qed.

Lemma sections_keys (K : Js.KeyOrder) (m : Module) :
  map fst (sections K m) = map fst (sortedEntries K m).
Proof. unfold sections. fold (sortedEntries K m). by rewrite map_map. Qed.

Lemma sections_elem_of (K : Js.KeyOrder) (m : Module) (c : string) (ps : list Printable) :
  (c, ps) ∈ sections K m ↔
  ∃ g, (c, g) ∈ Js.groupBy categoryOf (getPrintables m)
       ∧ ps = Js.sortBy (Js.leBy nameOf) g.
Proof.
  unfold sections. fold (sortedEntries K m).
  rewrite list_elem_of_In, in_map_iff. split.
  - intros ([c' g] & [= <- <-] & Hin%list_elem_of_In). exists g. split; [|done].
    by rewrite <- (sortedEntries_Permutation K m).
  - intros (g & Hin & ->). exists (c, g). split; [done|].
    apply list_elem_of_In. by rewrite (sortedEntries_Permutation K m).
Qed.

(** The body does not depend on the order in which the engine enumerates
    the keys of the grouping. *)
Lemma sections_order_independent (K1 K2 : Js.KeyOrder) (m : Module) :
  sections K1 m = sections K2 m.
Proof.
  unfold sections. fold (sortedEntries K1 m) (sortedEntries K2 m). f_equal.
  destruct (groupBy_grouped categoryOf (getPrintables m)) as (Hnd & _ & _).
  apply (StronglySorted_unique_strong (keyLe fst)).
  - intros [k1 g1] [k2 g2] H1 H2 Hle1 Hle2.
    rewrite sortedEntries_Permutation in H1, H2.
    assert (k1 = k2) as -> by (by apply (anti_symm String.le)).
    f_equal. by eapply keys_determine_entries.
  - apply Sorted_StronglySorted; [apply _ | apply sortBy_Sorted].
  - apply Sorted_StronglySorted; [apply _ | apply sortBy_Sorted].
  - by rewrite !sortedEntries_Permutation.
Qed.

Lemma mapT_split {A B} (f : A → Thrown B) (l1 l2 l3 : list A) (a b : A) (ys : list B) :
  mapT f (l1 ++ a :: l2 ++ b :: l3) = Ok ys →
  ∃ r1 ra r2 rb r3, f a = Ok ra ∧ f b = Ok rb ∧ ys = r1 ++ ra :: r2 ++ rb :: r3.
Proof.
  intros (r1 & k & _ & Hk & ->)%mapT_Ok%Forall2_app_inv_l.
  apply Forall2_cons_inv_l in Hk as (ra & k' & Ha & Hk & ->).
  apply Forall2_app_inv_l in Hk as (r2 & k & _ & Hk & ->).
  apply Forall2_cons_inv_l in Hk as (rb & r3 & Hb & _ & ->).
  by exists r1, ra, r2, rb, r3.
Qed.

Lemma section_of_printable (K : Js.KeyOrder) (m : Module) (p : Printable) :
  p ∈ getPrintables m → categoryOf p ≠ Js.protoKey →
  ∃ ps, (categoryOf p, ps) ∈ sections K m ∧ p ∈ ps.
Proof.
  intros Hp Hproto.
  destruct (groupBy_grouped categoryOf (getPrintables m)) as (_ & Hgroups & Hkeys).
  pose proof (Hkeys _ Hp Hproto) as Hk.
  apply list_elem_of_In, in_map_iff in Hk as ([c g] & Hc & Hin).
  simpl in Hc. subst c. apply list_elem_of_In in Hin.
  exists (Js.sortBy (Js.leBy nameOf) g). split.
  - apply sections_elem_of. by exists g.
  - rewrite sortBy_Permutation. destruct (Hgroups _ _ Hin) as (_ & -> & _).
    by apply list_elem_of_filter.
Qed.

Lemma section_contents (K : Js.KeyOrder) (m : Module) (c : string) (ps : list Printable) :
  (c, ps) ∈ sections K m →
  c ≠ Js.protoKey
  ∧ ps ≠ []
  ∧ ps ≡ₚ filter (λ p, categoryOf p = c) (getPrintables m)
  ∧ Sorted (keyLe nameOf) ps
  ∧ ∀ n, filter (λ p, nameOf p = n) ps
         = filter (λ p, nameOf p = n) (filter (λ p, categoryOf p = c) (getPrintables m)).
Proof.
  intros (g & Hin & ->)%sections_elem_of.
  destruct (groupBy_grouped categoryOf (getPrintables m)) as (_ & Hgroups & _).
  destruct (Hgroups _ _ Hin) as (Hne & Hg & Hproto). rewrite <- Hg.
  split; [done|].
  split; [|split; [apply sortBy_Permutation | split; [apply sortBy_Sorted|]]].
  - intros Hnil. apply Hne, Permutation_nil_r. by rewrite <- Hnil, sortBy_Permutation.
  - intros n. apply sortBy_stable.
Qed.

(** C8. The body of a module document: the printables are grouped by
    category, an absent category counting as "utils"; the groups come in the
    order of their category names under the ordinary string order, each
    category once; a group holds exactly the printables of its category,
    sorted by name under that order, those of equal name in their original
    order. The printables of the category [Js.protoKey] are in no group; every
    other printable is in the group of its category. When the body renders,
    of two printables of the same category (other than [Js.protoKey]) the one
    with the strictly smaller name is rendered before the other. *)
Theorem body_grouped_and_sorted (K : Js.KeyOrder) (m : Module) :
  (∀ p, categoryOf p = default "utils" (category (printable_doc p)))
  ∧ Sorted String.le (map fst (sections K m))
  ∧ NoDup (map fst (sections K m))
  ∧ (∀ p, p ∈ getPrintables m → categoryOf p ≠ Js.protoKey →
          ∃ ps, (categoryOf p, ps) ∈ sections K m ∧ p ∈ ps)
  ∧ (∀ c ps, (c, ps) ∈ sections K m →
       c ≠ Js.protoKey
       ∧ ps ≠ []
       ∧ ps ≡ₚ filter (λ p, categoryOf p = c) (getPrintables m)
       ∧ Sorted (keyLe nameOf) ps
       ∧ ∀ n, filter (λ p, nameOf p = n) ps
              = filter (λ p, nameOf p = n)
                  (filter (λ p, categoryOf p = c) (getPrintables m)))
  ∧ (∀ content p1 p2,
       renderContent K m = Ok content →
       p1 ∈ getPrintables m → p2 ∈ getPrintables m →
       categoryOf p1 ≠ Js.protoKey →
       categoryOf p1 = categoryOf p2 → strLt (nameOf p1) (nameOf p2) →
       ∃ s1 s2, fromPrintable p1 = Ok s1 ∧ fromPrintable p2 = Ok s2
                ∧ occursBefore s1 s2 content).
Proof.
  split; [done|]. rewrite sections_keys.
  split; [apply map_fst_Sorted, sortBy_Sorted|].
  split.
  { rewrite (sortedEntries_Permutation K m).
    by destruct (groupBy_grouped categoryOf (getPrintables m)) as (? & _ & _). }
  split; [apply section_of_printable|]. split; [apply section_contents|].
  intros content p1 p2 Hr Hp1 Hp2 Hproto Hcat Hlt.
  destruct (section_of_printable K m p1 Hp1 Hproto) as (ps & Hsec & Hin1).
  destruct (section_contents K m _ _ Hsec) as (_ & _ & Hperm & Hsorted & _).
  assert (p2 ∈ ps) as Hin2.
  { rewrite Hperm. apply list_elem_of_filter. by split. }
  destruct (Sorted_before nameOf ps p1 p2 Hsorted Hin1 Hin2 Hlt) as (l1 & l2 & l3 & ->).
  unfold renderContent in Hr. apply bind_Ok in Hr as (groups & Hgroups & [= <-]).
  apply mapT_Ok in Hgroups.
  destruct (Forall2_elem_of_l _ _ _ _ Hgroups Hsec) as (g & Hg & Hrender).
  unfold renderSection in Hrender. simpl in Hrender.
  apply bind_Ok in Hrender as (rendered & Hrendered & [= <-]).
  apply mapT_split in Hrendered as (r1 & s1 & r2 & s2 & r3 & Hs1 & Hs2 & ->).
  exists s1, s2. split; [done|]. split; [done|].
  eapply occursBefore_within; [|by apply occurs_join].
  apply (occursBefore_join Js.nl (h1 (categoryOf p1) :: r1)).
Qed.

(** On the sample module, [a] is rendered before [b] although [b] is
    declared first. *)
Lemma body_grouped_and_sorted_witness :
  ∃ content s1 s2,
    renderContent Js.insertionOrder Samples.sortedModule = Ok content
    ∧ fromPrintable
        (PFunction (createFunction (createDocumentable "a" None None false [] (Some "zeta"))
                      ["declare function a(): void"])) = Ok s1
    ∧ fromPrintable
        (PFunction (createFunction (createDocumentable "b" None None false [] (Some "zeta"))
                      ["declare function b(): void"])) = Ok s2
    ∧ occursBefore s1 s2 content.
Proof.
  eexists.
  destruct (proj2 (proj2 (proj2 (proj2 (proj2
              (body_grouped_and_sorted Js.insertionOrder Samples.sortedModule)))))
              _
              (PFunction (createFunction (createDocumentable "a" None None false [] (Some "zeta"))
                            ["declare function a(): void"]))
              (PFunction (createFunction (createDocumentable "b" None None false [] (Some "zeta"))
                            ["declare function b(): void"]))
              eq_refl)
    as (s1 & s2 & H1 & H2 & Hb).
  - solve [repeat constructor].
  - solve [repeat constructor].
  - intros H; discriminate H.
  - reflexivity.
  - split; [by vm_compute | intros H; discriminate H].
  - exists s1, s2. split; [reflexivity|]. by split.
Defined.

(** The sample module has the groups "utils" and "zeta", in this order, and
    the functions of "zeta" sorted as [a], [b]. *)
Example sample_sections :
  map (λ e, (e.1, map nameOf e.2)) (sections Js.insertionOrder Samples.sortedModule)
  = [("utils", ["c"]); ("zeta", ["a"; "b"])].
Proof. by vm_compute. Qed.

(** C7. Rendering is a function of the module and the order number: all
    that [printModule] reads besides them are the two libraries, taken as
    functions, and the order in which the engine enumerates the keys of the
    grouping, which the result does not depend on. Two runs on the same
    module and order number give the same string (or the same throw),
    whatever the enumeration orders of the two runs. *)
Theorem printModule_deterministic
    (L : Libs) (K1 K2 : Js.KeyOrder) (m : Module) (order : nat) :
  printModule L K1 m order = printModule L K2 m order.
Proof.
  unfold printModule, renderContent. by rewrite (sections_order_independent K1 K2).
Qed.

(** The sample module renders to the same text under the insertion order of
    the keys and under the reverse order. *)
Example printModule_deterministic_sample :
  printModule Samples.plainLibs Js.insertionOrder Samples.sortedModule 1
  = printModule Samples.plainLibs Js.reverseOrder Samples.sortedModule 1
  ∧ succeeded (printModule Samples.plainLibs Js.reverseOrder Samples.sortedModule 1).
Proof. split; [apply printModule_deterministic | by eexists]. Qed.

End Body.


(** ** The matcher *)

Section Matcher.
Import RegExp Props.

Lemma substring_app (t s : string) : String.substring 0 (String.length t) (t +:+ s) = t.
Proof.
  induction t as [|c t IH]; [by destruct s|].
  rewrite str_app_cons. simpl. by rewrite IH.
Qed.

Lemma consumed_app (t s : string) : consumed (t +:+ s) s = t.
Proof.
  unfold consumed. rewrite str_app_length.
  replace (String.length t + String.length s - String.length s) with (String.length t) by lia.
  apply substring_app.
Qed.

Lemma exec_lit (t s : string) (p : option ascii) (cs : list (string * string))
    (k : MState → option MState) :
  exec (lit t) {| prev := p; rest := t +:+ s; caps := cs |} k
  = k {| prev := lastCharOr p t; rest := s; caps := cs |}.
Proof.
  revert p. induction t as [|c t IH]; intros p; [done|].
  rewrite str_app_cons. simpl. rewrite bool_decide_eq_true_2 by done. apply IH.
Qed.

Lemma exec_lit_fail (t s : string) (p : option ascii) (cs : list (string * string))
    (k : MState → option MState) :
  Js.startsWith t s = false →
  exec (lit t) {| prev := p; rest := s; caps := cs |} k = None.
Proof.
  revert p s. induction t as [|c t IH]; intros p s; [done|].
  destruct s as [|a s]; [done|]. simpl.
  case_bool_decide as Hc; simpl; [|done]. subst a. apply IH.
Qed.

Lemma exec_namePattern (n s : string) (name : Regex) (p : option ascii)
    (cs : list (string * string)) (k : MState → option MState) :
  Core.namePattern n = Some name →
  exec name {| prev := p; rest := n +:+ s; caps := cs |} k
  = k {| prev := lastCharOr p n; rest := s; caps := cs |}.
Proof.
  revert name p. induction n as [|c n IH]; intros name p Hn.
  { injection Hn as <-. done. }
  cbn [Core.namePattern] in Hn.
  apply bind_Some in Hn as (atom & Hatom & (name' & Hname' & [= <-])%bind_Some).
  rewrite str_app_cons. cbn [exec rest prev caps].
  assert (classMatches atom c = true) as ->.
  { case_bool_decide as Hdot; [injection Hatom as <-; by subst c|].
    case_bool_decide; [done|]. injection Hatom as <-. by apply bool_decide_eq_true_2. }
  by apply IH.
Qed.

(** The pattern of a name the model knows. *)
Lemma importRegex_Some (n : string) (r : Regex) :
  Core.importRegex n = Some r →
  ∃ name, Core.namePattern n = Some name
          ∧ r = seqs [
              lit "from ";
              Group "quote" (Class (OneOf Core.quoteChars));
              name;
              Opt (lit "/lib");
              Opt (Seq (lit "/") (Group "path" (Star Dot)));
              Backref "quote"
            ].
Proof.
  unfold Core.importRegex. intros (name & Hname & [= <-])%bind_Some. by exists name.
Qed.

Lemma known_Some {A} (o : option A) (H : is_Some o) : o = Some (Core.known o H).
Proof. destruct o; [done | by destruct (is_Some_None H)]. Qed.

Lemma importRegex_known (cfg : Core.Config) :
  Core.importRegex (Core.projectName cfg)
  = Some (Core.known (Core.importRegex (Core.projectName cfg))
            (Core.projectName_pattern cfg)).
Proof. apply known_Some. Qed.

(** The greedy star takes a whole run of matching characters when the rest
    of the pattern succeeds after it. *)
Lemma starLoop_greedy (cc : CharClass) (k : MState → option MState)
    (cs : list (string * string)) (sub tail : string) (p : option ascii) (e : MState) :
  allMatch cc sub = true →
  starLoop cc k cs (lastCharOr p sub) tail = Some e →
  starLoop cc k cs p (sub +:+ tail) = Some e.
Proof.
  revert p. induction sub as [|c sub IH]; intros p Hall He; [done|]. simpl in Hall.
  apply andb_true_iff in Hall as [Hc Hall].
  rewrite str_app_cons. simpl. rewrite Hc. by rewrite (IH (Some c)).
Qed.

Lemma singleLine_allMatch (s : string) : singleLine s = allMatch Dot s.
Proof. induction s as [|c s IH]; simpl; [done | by rewrite IH]. Qed.

End Matcher.

(** ** Import rewriting *)

Section ImportRewriting.
Import RegExp Props.

Lemma exec_Seq r1 r2 st k : exec (Seq r1 r2) st k = exec r1 st (λ st1, exec r2 st1 k).
Proof. reflexivity. Qed.

Lemma exec_Opt r st k :
  exec (Opt r) st k = match exec r st k with Some e => Some e | None => k st end.
Proof. reflexivity. Qed.

Lemma exec_quote (qc : ascii) (s : string) (p : option ascii) (k : MState → option MState) :
  qc ∈ Core.quoteChars →
  exec (Group "quote" (Class (OneOf Core.quoteChars)))
       {| prev := p; rest := String qc s; caps := [] |} k
  = k {| prev := Some qc; rest := s; caps := [("quote", String qc "")] |}.
Proof.
  intros Hq. cbn [exec rest prev caps classMatches].
  rewrite bool_decide_eq_true_2 by done.
  by replace (consumed (String qc s) s) with (String qc "")
    by (symmetry; apply (consumed_app (String qc "") s)).
Qed.

(** The pattern up to the project name reads the import keyword, the opening
    quote and the name. *)
Lemma matchAt_import_head (n s : string) (r : Regex) (qc : ascii) (p : option ascii) :
  qc ∈ Core.quoteChars → Core.importRegex n = Some r →
  matchAt r p ("from " +:+ String qc "" +:+ n +:+ s)
  = exec importTail
      {| prev := lastCharOr (Some qc) n; rest := s; caps := [("quote", String qc "")] |}
      Some.
Proof.
  intros Hq (name & Hname & ->)%importRegex_Some. unfold matchAt, importTail, pathTail.
  cbn [seqs]. rewrite exec_Seq, exec_lit. cbn beta.
  rewrite exec_Seq, str_app_cons, str_app_nil_l, exec_quote by done. cbn beta.
  by rewrite exec_Seq, (exec_namePattern n _ name).
Qed.

(** After the name and the closing quote: both optional groups are skipped. *)
Lemma importTail_bare (qc : ascii) (p : option ascii) :
  qc ∈ Core.quoteChars →
  exec importTail {| prev := p; rest := String qc ""; caps := [("quote", String qc "")] |} Some
  = Some {| prev := Some qc; rest := ""; caps := [("quote", String qc "")] |}.
Proof.
  intros [->|[->|[]%elem_of_nil]%elem_of_cons]%elem_of_cons; reflexivity.
Qed.

Lemma lookupCap_quote (x q : string) :
  lookupCap "quote" [("path", x); ("quote", q)] = Some q.
Proof. reflexivity. Qed.

Lemma quote_not_line_terminator (qc : ascii) :
  qc ∈ Core.quoteChars → classMatches Dot qc = true.
Proof.
  intros [->|Hq]%elem_of_cons; [done|].
  apply elem_of_cons in Hq as [->|Hq]; [done | by apply elem_of_nil in Hq].
Qed.

(** A sub-path up to the closing quote at the end of the text: the star
    first runs over the quote too, and gives it back. *)
Lemma pathTail_path (qc : ascii) (sub : string) (p : option ascii) :
  qc ∈ Core.quoteChars → singleLine sub = true →
  exec pathTail
       {| prev := p; rest := "/" +:+ sub +:+ String qc ""; caps := [("quote", String qc "")] |}
       Some
  = Some {| prev := Some qc; rest := "";
            caps := [("path", sub); ("quote", String qc "")] |}.
Proof.
  intros Hq Hsub. unfold pathTail. cbn [seqs].
  rewrite exec_Seq, exec_Opt, exec_Seq, exec_lit. cbn beta.
  cbn [exec rest prev caps].
  erewrite starLoop_greedy; [reflexivity | by rewrite <- singleLine_allMatch |].
  cbn [starLoop]. rewrite (quote_not_line_terminator qc Hq).
  cbn [rest prev caps]. rewrite !lookupCap_quote. cbn [eat].
  rewrite consumed_app. by rewrite bool_decide_eq_true_2.
Qed.

Lemma importTail_lib_path (qc : ascii) (sub : string) (p : option ascii) :
  qc ∈ Core.quoteChars → singleLine sub = true →
  exec importTail
       {| prev := p; rest := "/lib/" +:+ sub +:+ String qc "";
          caps := [("quote", String qc "")] |}
       Some
  = Some {| prev := Some qc; rest := "";
            caps := [("path", sub); ("quote", String qc "")] |}.
Proof.
  intros Hq Hsub. unfold importTail.
  change ("/lib/" +:+ sub +:+ String qc "") with ("/lib" +:+ "/" +:+ sub +:+ String qc "").
  rewrite exec_Seq, exec_Opt, exec_lit. cbn beta. by rewrite pathTail_path.
Qed.

Lemma startsWith_app_false (t sub : string) (qc : ascii) (s : string) :
  Js.startsWith t sub = false →
  (∀ pre post, t ≠ pre +:+ String qc post) →
  Js.startsWith t (sub +:+ String qc s) = false.
Proof.
  intros Hsw. revert sub Hsw. induction t as [|a t IH]; intros sub Hsw Hq; [done|].
  destruct sub as [|b sub].
  - rewrite str_app_nil_l. simpl. case_bool_decide as Ha; [|done].
    subst a. by destruct (Hq "" t).
  - rewrite str_app_cons. simpl in *. case_bool_decide as Ha; [|done]. simpl in *.
    apply IH; [done|]. intros pre post ->. by apply (Hq (String a pre) post).
Qed.

Lemma importTail_path (qc : ascii) (sub : string) (p : option ascii) :
  qc ∈ Core.quoteChars → singleLine sub = true → Js.startsWith "lib" sub = false →
  exec importTail
       {| prev := p; rest := "/" +:+ sub +:+ String qc ""; caps := [("quote", String qc "")] |}
       Some
  = Some {| prev := Some qc; rest := "";
            caps := [("path", sub); ("quote", String qc "")] |}.
Proof.
  intros Hq Hsub Hlib. unfold importTail.
  rewrite exec_Seq, exec_Opt, exec_lit_fail; [by apply pathTail_path|].
  change (Js.startsWith "/lib" ("/" +:+ sub +:+ String qc ""))
    with (Js.startsWith "lib" (sub +:+ String qc "")).
  apply startsWith_app_false; [done|].
  intros pre post H.
  apply elem_of_cons in Hq as [->|Hq]; [|apply elem_of_cons in Hq as [->|Hq];
    [|by apply elem_of_nil in Hq]];
    destruct pre as [|? [|? [|? [|? pre]]]]; str_norm H; discriminate H.
Qed.

Lemma replaceAllFrom_skip (r : Regex) (f : MState → string) (s : string) (p : option ascii) :
  (∀ p', matchAt r p' "" = None) →
  replaceAllFrom r f p s (String.length s) = "".
Proof.
  intros Hend. revert p. induction s as [|c s IH]; intros p; simpl; [by rewrite Hend | apply IH].
Qed.

(** A text that the pattern matches from its start to its end is replaced
    by what the replacer gives for that match. *)
Lemma replaceAll_whole (r : Regex) (f : MState → string) (s : string) (e : MState) :
  s ≠ "" → (∀ p, matchAt r p "" = None) →
  matchAt r None s = Some e → rest e = "" →
  replaceAll r f s = f e.
Proof.
  intros Hs Hend Hm He. destruct s as [|c s]; [done|].
  unfold replaceAll. cbn [replaceAllFrom]. rewrite Hm, He.
  cbn [String.length Nat.sub]. by rewrite replaceAllFrom_skip, str_app_nil_r.
Qed.

Lemma importRegex_needs_text (n : string) (r : Regex) (p : option ascii) :
  Core.importRegex n = Some r → matchAt r p "" = None.
Proof. by intros (name & Hname & ->)%importRegex_Some. Qed.

Lemma importReplacer_path (sub : string) (p : option ascii) (q r : string) :
  Core.importReplacer {| prev := p; rest := r; caps := [("path", sub); ("quote", q)] |}
  = "from '../../src" +:+ subpathSuffix sub +:+ "'".
Proof. by destruct sub. Qed.

(** C5. With the project name [n] of a configuration (as "my-lib" is), for
    both quote styles and for every sub-path [sub] without line terminator:
    an import clause from the bare name is rewritten to the local source
    root, one from [n/lib/sub] to [../../src/sub], and one from [n/sub] to
    [../../src/sub] too (here for a [sub] that does not itself start with
    "lib"); the result is always in single quotes, and an empty [sub] gives
    the root. *)
Theorem import_rewrite (cfg : Core.Config) (qc : ascii) (sub : string) :
  qc ∈ Core.quoteChars →
  singleLine sub = true →
  let q := String qc "" in
  let n := Core.projectName cfg in
  Core.replaceProjectName cfg ("from " +:+ q +:+ n +:+ q) = "from '../../src'"
  ∧ Core.replaceProjectName cfg ("from " +:+ q +:+ n +:+ "/lib/" +:+ sub +:+ q)
    = "from '../../src" +:+ subpathSuffix sub +:+ "'"
  ∧ (Js.startsWith "lib" sub = false →
     Core.replaceProjectName cfg ("from " +:+ q +:+ n +:+ "/" +:+ sub +:+ q)
     = "from '../../src" +:+ subpathSuffix sub +:+ "'").
Proof.
  intros Hq Hsub q n. unfold Core.replaceProjectName.
  pose proof (importRegex_known cfg) as Hr.
  set (r := Core.known _ _) in *. fold n in Hr. subst q.
  split; [|split; [|intros Hlib]].
  - erewrite replaceAll_whole;
      [| done | intros p; by apply (importRegex_needs_text n)
       | rewrite (matchAt_import_head n) by done; by apply importTail_bare | done].
    done.
  - erewrite replaceAll_whole;
      [| done | intros p; by apply (importRegex_needs_text n)
       | rewrite (matchAt_import_head n) by done; by apply importTail_lib_path | done].
    apply importReplacer_path.
  - erewrite replaceAll_whole;
      [| done | intros p; by apply (importRegex_needs_text n)
       | rewrite (matchAt_import_head n) by done; by apply importTail_path | done].
    apply importReplacer_path.
Qed.

(** The two clauses of the specification, and the single-quote forms. *)
Lemma import_rewrite_witness :
  Core.replaceProjectName Samples.cfg ("from " +:+ Js.dq +:+ "my-lib" +:+ Js.dq)
  = "from '../../src'"
  ∧ Core.replaceProjectName Samples.cfg ("from " +:+ Js.dq +:+ "my-lib/lib/sub" +:+ Js.dq)
    = "from '../../src/sub'"
  ∧ Core.replaceProjectName Samples.cfg "from 'my-lib/lib/sub'" = "from '../../src/sub'"
  ∧ Core.replaceProjectName Samples.cfg "from 'my-lib/sub'" = "from '../../src/sub'".
Proof.
  destruct (import_rewrite Samples.cfg (ascii_of_nat 34) "sub") as (Hbare & Hlib & _);
    [right; left | reflexivity |].
  destruct (import_rewrite Samples.cfg "'"%char "sub") as (_ & Hlib' & Hsub);
    [left | reflexivity |].
  split; [exact Hbare|]. split; [exact Hlib|]. split; [exact Hlib'|].
  exact (Hsub eq_refl).
Defined.

(** In a longer text every clause is rewritten, each on its line. *)
Example import_rewrite_text :
  Core.replaceProjectName Samples.cfg
    ("import * as M from " +:+ Js.dq +:+ "my-lib/lib/sub" +:+ Js.dq +:+ Js.nl +:+
     "import { x } from 'my-lib'" +:+ Js.nl +:+
     "M.f(x)")
  = "import * as M from '../../src/sub'" +:+ Js.nl +:+
    "import { x } from '../../src'" +:+ Js.nl +:+
    "M.f(x)".
Proof. by vm_compute. Qed.

End ImportRewriting.


(** ** Replacing the first match *)

Section ReplaceFirst.
Import RegExp Props.

Lemma isSuffix_refl s : isSuffix s s.
Proof. by exists "". Qed.

Lemma isSuffix_cons c t s : isSuffix t s → isSuffix t (String c s).
Proof. intros [pre ->]. by exists (String c pre). Qed.

Lemma isSuffix_trans a b c : isSuffix a b → isSuffix b c → isSuffix a c.
Proof. intros [p ->] [q ->]. exists (q +:+ p). by rewrite str_app_assoc. Qed.

Lemma eat_suffix t p s p' s' : eat t p s = Some (p', s') → isSuffix s' s.
Proof.
  revert p s. induction t as [|a t IH]; intros p s; simpl.
  - intros [= _ ->]. apply isSuffix_refl.
  - destruct s as [|b s]; [done|]. case_bool_decide as Hab; [|done].
    intros Heat%IH. by apply isSuffix_cons.
Qed.

Lemma starLoop_suffix cc k cs p s e :
  forward k → starLoop cc k cs p s = Some e → isSuffix (rest e) s.
Proof.
  intros Hk. revert p. induction s as [|c s IH]; intros p; simpl.
  - intros H. by apply Hk in H.
  - destruct (classMatches cc c).
    + destruct (starLoop cc k cs (Some c) s) as [e'|] eqn:He'.
      * intros [= ->]. by apply isSuffix_cons, (IH (Some c)).
      * intros H. by apply Hk in H.
    + intros H. by apply Hk in H.
Qed.

Lemma exec_suffix r st k e :
  forward k → exec r st k = Some e → isSuffix (rest e) (rest st).
Proof.
  revert st k e. induction r as [|cc|cc|r1 IH1 r2 IH2|r IH|name r IH|name| |];
    intros st k e Hk; simpl.
  - apply Hk.
  - destruct (rest st) as [|c s]; [done|]. destruct (classMatches cc c); [|done].
    intros H%Hk. by apply isSuffix_cons.
  - by apply starLoop_suffix.
  - apply IH1. intros st1 e1. by apply IH2.
  - destruct (exec r st k) as [e'|] eqn:He'.
    + intros [= ->]. by apply (IH st k).
    + apply Hk.
  - apply IH. intros st1 e1 Hfin. by apply Hk in Hfin.
  - destruct (lookupCap name (caps st)) as [t|]; [|apply Hk].
    destruct (eat t (prev st) (rest st)) as [[p' s']|] eqn:Heat; [|done].
    intros Hfin%Hk. eapply isSuffix_trans; [exact Hfin | by eapply eat_suffix].
  - destruct (atLineStart st); [apply Hk | done].
  - destruct (atLineEnd st); [apply Hk | done].
Qed.

Lemma matchAt_suffix r p s e : matchAt r p s = Some e → isSuffix (rest e) s.
Proof.
  unfold matchAt. intros H%exec_suffix; [done|].
  intros st e' [= ->]. apply isSuffix_refl.
Qed.

Lemma consumed_rest r p s e :
  matchAt r p s = Some e → consumed s (rest e) +:+ rest e = s.
Proof.
  intros [m Hm]%matchAt_suffix. generalize dependent (rest e). intros t ->.
  by rewrite consumed_app.
Qed.

(** The leftmost match cuts the text in three. *)
Lemma search_cut r p s pre piece e :
  search r p s = Some (pre, piece, e) →
  s = pre +:+ piece +:+ rest e
  ∧ matchAt r (lastCharOr p pre) (piece +:+ rest e) = Some e.
Proof.
  revert p pre. induction s as [|c s IH]; intros p pre; simpl.
  - destruct (matchAt r p "") as [e'|] eqn:He'; [|done].
    intros [= <- <- <-]. by rewrite str_app_nil_l, (consumed_rest _ _ _ _ He').
  - destruct (matchAt r p (String c s)) as [e'|] eqn:He'.
    + intros [= <- <- <-]. by rewrite str_app_nil_l, (consumed_rest _ _ _ _ He').
    + destruct (search r (Some c) s) as [[[pre' piece'] e'']|] eqn:Hs; [|done].
      intros [= <- <- <-]. destruct (IH _ _ Hs) as [-> Hm]. by rewrite !str_app_cons.
Qed.

Lemma replaceFirst_cut r replacement s :
  RegExp.replaceFirst r replacement s = s
  ∨ ∃ pre piece e,
      s = pre +:+ piece +:+ rest e
      ∧ matchAt r (lastCharOr None pre) (piece +:+ rest e) = Some e
      ∧ RegExp.replaceFirst r replacement s
        = pre +:+ getSubstitution piece pre (rest e) replacement +:+ rest e.
Proof.
  unfold replaceFirst. destruct (search r None s) as [[[pre piece] e]|] eqn:Hs; [|by left].
  right. exists pre, piece, e. by destruct (search_cut _ _ _ _ _ _ Hs).
Qed.

End ReplaceFirst.

(** ** The site configuration *)

Section ConfigYML.
Import RegExp Props.

Lemma exec_lit_inv (t : string) (st : MState) (k : MState → option MState) (e : MState) :
  exec (lit t) st k = Some e →
  ∃ s', rest st = t +:+ s'
        ∧ k {| prev := lastCharOr (prev st) t; rest := s'; caps := caps st |} = Some e.
Proof.
  revert st. induction t as [|c t IH]; intros [p s cs]; simpl.
  - intros H. by exists s.
  - destruct s as [|a s]; [done|]. case_bool_decide as Hc; [|done]. subst a.
    intros (s' & Hs & Hk)%IH. simpl in *. exists s'. by rewrite str_app_cons, Hs.
Qed.

Lemma starLoop_inv (cc : CharClass) (k : MState → option MState)
    (cs : list (string * string)) (p : option ascii) (s : string) (e : MState) :
  starLoop cc k cs p s = Some e →
  ∃ t s', s = t +:+ s' ∧ allMatch cc t = true
          ∧ k {| prev := lastCharOr p t; rest := s'; caps := cs |} = Some e.
Proof.
  revert p. induction s as [|c s IH]; intros p; simpl.
  - intros H. by exists "", "".
  - destruct (classMatches cc c) eqn:Hc; [|intros H; by exists "", (String c s)].
    destruct (starLoop cc k cs (Some c) s) as [e'|] eqn:He'.
    + intros [= ->]. apply IH in He' as (t & s' & -> & Ht & Hk).
      exists (String c t), s'. rewrite str_app_cons. simpl. by rewrite Hc, Ht.
    + intros H. by exists "", (String c s).
Qed.

Lemma exec_times_lit (n : nat) (c : ascii) (st : MState) (k : MState → option MState) :
  exec (times n (Class (Lit c))) st k = exec (lit (Js.repeat (String c "") n)) st k.
Proof.
  revert st. induction n as [|n IH]; intros st; [done|].
  change (Js.repeat (String c "") (S n)) with (String c (Js.repeat (String c "") n)).
  simpl. destruct (rest st); [done|]. case_bool_decide; [apply IH | done].
Qed.

(** What a match of a field pattern looks like: a line that starts with the
    field. *)
Lemma fieldRegex_inv (field : string) (p : option ascii) (s : string) (e : MState) :
  matchAt (seqs [LineStart; lit field; Star Dot; LineEnd]) p s = Some e →
  atLineStart {| prev := p; rest := s; caps := [] |} = true
  ∧ atLineEnd e = true
  ∧ ∃ value, s = field +:+ value +:+ rest e ∧ singleLine value = true.
Proof.
  unfold matchAt. cbn [seqs exec rest prev caps].
  destruct (atLineStart _) eqn:Hstart; [|done].
  intros (s1 & Hs1 & H)%exec_lit_inv. cbn [rest prev caps] in Hs1, H. subst s.
  apply starLoop_inv in H as (value & s2 & -> & Hvalue & H).
  destruct (atLineEnd _) eqn:Hend; [|done]. injection H as <-.
  split; [done|]. split; [done|]. exists value. split; [done|].
  by rewrite singleLine_allMatch.
Qed.

Lemma replaceFirst_field (field replacement s : string) :
  patched (fieldLine field) replacement s
    (replaceFirst (seqs [LineStart; lit field; Star Dot; LineEnd]) replacement s).
Proof.
  destruct (replaceFirst_cut (seqs [LineStart; lit field; Star Dot; LineEnd]) replacement s)
    as [->|(pre & piece & e & Hs & Hm & ->)]; [by left|].
  right. exists pre, piece, (rest e). split; [done|]. split; [|done].
  apply fieldRegex_inv in Hm as (Hstart & Hend & value & Hpiece & Hvalue).
  split; [done|]. split; [by destruct e|]. exists value. split; [|done].
  rewrite <- str_app_assoc in Hpiece. by apply str_app_inv_tail in Hpiece.
Qed.

End ConfigYML.


(** ** Writing files *)

Section WritingFiles.
Context {W : Type} (S : Core.Services W).

Lemma forEach_app {A B} (f : A → Effect W B) (l1 l2 : list A) (w : W) :
  Effect.forEach (l1 ++ l2) f w
  = match Effect.forEach l1 f w with
    | (Success ys1, w1) =>
        match Effect.forEach l2 f w1 with
        | (Success ys2, w2) => (Success (ys1 ++ ys2), w2)
        | (Failure e, w2) => (Failure e, w2)
        end
    | (Failure e, w1) => (Failure e, w1)
    end.
Proof.
  revert w. induction l1 as [|x l1 IH]; intros w.
  - simpl. unfold Effect.succeed. by destruct (Effect.forEach l2 f w) as [[?|?] ?].
  - simpl. unfold Effect.flatMap, Effect.map, Effect.succeed.
    destruct (f x w) as [[y|e] w0]; [|done].
    unfold Effect.flatMap. rewrite IH.
    destruct (Effect.forEach l1 f w0) as [[ys1|e] w1]; [|done].
    by destruct (Effect.forEach l2 f w1) as [[ys2|e] w2].
Qed.

(** X1. Writing a list of files is writing its first part and then, in the
    world that leaves, its second part; when a file of the list cannot be
    written the writing stops there, with that failure, and none of the
    files after it is attempted. *)
Theorem writeFiles_sequential (files1 files2 : list FileSystem.File) (w : W) :
  Core.writeFiles S (files1 ++ files2) w
  = match Core.writeFiles S files1 w with
    | (Success _, w1) => Core.writeFiles S files2 w1
    | (Failure e, w1) => (Failure e, w1)
    end
  ∧ ∀ file e w1 w2,
      Core.writeFiles S files1 w = (Success tt, w1) →
      Core.writeFile S file w1 = (Failure e, w2) →
      Core.writeFiles S (files1 ++ file :: files2) w = (Failure e, w2).
Proof.
  assert (∀ l1 l2 w0,
            Core.writeFiles S (l1 ++ l2) w0
            = match Core.writeFiles S l1 w0 with
              | (Success _, w1) => Core.writeFiles S l2 w1
              | (Failure e, w1) => (Failure e, w1)
              end) as Happ.
  { intros l1 l2 w0. unfold Core.writeFiles, Effect.forEach_, Effect.map, Effect.flatMap,
      Effect.succeed.
    rewrite forEach_app.
    destruct (Effect.forEach l1 (Core.writeFile S) w0) as [[ys1|e] w1]; [|done].
    by destruct (Effect.forEach l2 (Core.writeFile S) w1) as [[ys2|e] w2]. }
  split; [apply Happ|].
  intros file e w1 w2 H1 Hfile. rewrite Happ, H1.
  unfold Core.writeFiles, Effect.forEach_, Effect.map, Effect.flatMap. simpl.
  unfold Effect.flatMap. by rewrite Hfile.
Qed.

End WritingFiles.

Section WritingFilesInMemory.

Lemma inMemory_exists (w : gmap string string) (p c : string) :
  w !! p = Some c → InMemory.exists_ w p = true.
Proof.
  intros Hp. unfold InMemory.exists_. apply bool_decide_eq_true. intros Hempty.
  assert (filter (λ kv : string * string, InMemory.isUnder p kv.1 = true) w !! p = Some c)
    as Hin.
  { apply map_lookup_filter_Some. split; [done|]. simpl. unfold InMemory.isUnder.
    by rewrite bool_decide_eq_true_2. }
  rewrite Hempty in Hin. by rewrite lookup_empty in Hin.
Qed.

Lemma inMemory_writeFile_keeps cfg cwd tsNode (file : FileSystem.File)
    (w : gmap string string) (p c : string) :
  w !! p = Some c →
  (InMemory.resolve cwd (FileSystem.path file) = p → FileSystem.overwrite file = false) →
  ∃ w', Core.writeFile (InMemory.services cfg cwd tsNode) file w = (Success tt, w')
        ∧ w' !! p = Some c.
Proof.
  intros Hp Hfile. unfold Core.writeFile, Effect.ifE, Effect.flatMap, Effect.succeed. simpl.
  destruct (decide (InMemory.resolve cwd (FileSystem.path file) = p)) as [Heq|Hne].
  - rewrite Heq, (inMemory_exists w p c Hp), (Hfile Heq). by exists w.
  - destruct (InMemory.exists_ w _), (FileSystem.overwrite file);
      eexists; (split; [reflexivity|]); by rewrite ?lookup_insert_ne.
Qed.

(** X2. In a file system in memory, writing a list of files leaves an
    existing file as it is when no file of the list that goes to its path is
    marked to be overwritten; the writing itself succeeds. *)
Theorem writeFiles_keeps_files_not_to_overwrite cfg cwd tsNode
    (files : list FileSystem.File) (w : gmap string string) (p c : string) :
  w !! p = Some c →
  (∀ file, file ∈ files →
           InMemory.resolve cwd (FileSystem.path file) = p →
           FileSystem.overwrite file = false) →
  ∃ w', Core.writeFiles (InMemory.services cfg cwd tsNode) files w = (Success tt, w')
        ∧ w' !! p = Some c.
Proof.
  revert w. induction files as [|file files IH]; intros w Hp Hfiles.
  - by exists w.
  - destruct (inMemory_writeFile_keeps cfg cwd tsNode file w p c Hp) as (w1 & Hw1 & Hp1).
    { apply Hfiles. left. }
    destruct (IH w1 Hp1) as (w2 & Hw2 & Hp2).
    { intros f Hf. apply Hfiles. by right. }
    exists w2. split; [|done].
    unfold Core.writeFiles, Effect.forEach_, Effect.map, Effect.flatMap in *. simpl.
    unfold Effect.flatMap, Effect.map, Effect.flatMap. rewrite Hw1.
    destruct (Effect.forEach files _ w1) as [[ys|e] w3]; simpl in *; [|done].
    by injection Hw2 as ->.
Qed.

(** A hand-written home document survives the generated one, which is not
    marked to be overwritten. *)
Lemma writeFiles_keeps_files_witness :
  ∃ w', Core.writeFiles Samples.acceptingServices
          [FileSystem.makeFile "docs/index.md" "generated" false;
           FileSystem.makeFile "docs/modules/a.ts.md" "module" true]
          {[ "/work/docs/index.md" := "written by hand" ]}
        = (Success tt, w')
        ∧ w' !! "/work/docs/index.md" = Some "written by hand".
Proof.
  apply (writeFiles_keeps_files_not_to_overwrite Samples.cfg "/work").
  - by vm_compute.
  - intros file [->|[->|[]%elem_of_nil]%elem_of_cons]%elem_of_cons H; [done|].
    vm_compute in H. discriminate H.
Defined.

End WritingFilesInMemory.

(** ** The navigation header of the home page *)

Section NavigationHeader.
Import Props.

Lemma toLowerCase_app (a b : string) :
  Js.toLowerCase (a +:+ b) = Js.toLowerCase a +:+ Js.toLowerCase b.
Proof.
  induction a as [|c a IH]; [done|]. rewrite str_app_cons. simpl.
  by rewrite IH, str_app_cons.
Qed.

Lemma toLowerCase_split (h a b : string) :
  Js.toLowerCase h = a +:+ b →
  ∃ h1 h2, h = h1 +:+ h2 ∧ Js.toLowerCase h1 = a ∧ Js.toLowerCase h2 = b.
Proof.
  revert h. induction a as [|c a IH]; intros h Hh.
  - by exists "", h.
  - destruct h as [|x h]; [done|]. rewrite str_app_cons in Hh. simpl in Hh.
    injection Hh as Hx Hh. apply IH in Hh as (h1 & h2 & -> & <- & <-).
    exists (String x h1), h2. by rewrite str_app_cons, <- Hx.
Qed.

Lemma includes_lower_iff (needle h : string) :
  Js.includes needle (Js.toLowerCase h) = true ↔
  ∃ pre g post, h = pre +:+ g +:+ post ∧ Js.toLowerCase g = needle.
Proof.
  unfold Js.includes. rewrite bool_decide_eq_true, indexOf_occurs. split.
  - intros (pre' & post' & Hh).
    apply toLowerCase_split in Hh as (pre & rest & -> & _ & Hrest).
    apply toLowerCase_split in Hrest as (g & post & -> & Hg & _).
    by exists pre, g, post.
  - intros (pre & g & post & -> & <-).
    exists (Js.toLowerCase pre), (Js.toLowerCase post). by rewrite !toLowerCase_app.
Qed.

(** X3. The header of the home-page link is "<project name> on GitHub"
    exactly when the home-page address contains "github" in any mix of upper
    and lower case, and "Homepage" otherwise. *)
Theorem homepage_header_github_in_any_case (cfg : Core.Config) :
  ((∃ pre g post, Core.projectHomepage cfg = pre +:+ g +:+ post
                  ∧ Js.toLowerCase g = "github")
   ↔ Core.getHomepageNavigationHeader cfg = Core.projectName cfg +:+ " on GitHub")
  ∧ ((¬ ∃ pre g post, Core.projectHomepage cfg = pre +:+ g +:+ post
                      ∧ Js.toLowerCase g = "github")
     ↔ Core.getHomepageNavigationHeader cfg = "Homepage").
Proof.
  rewrite <- (includes_lower_iff "github"). unfold Core.getHomepageNavigationHeader.
  assert (Core.projectName cfg +:+ " on GitHub" ≠ "Homepage") as Hne.
  { intros H. assert (occurs " " "Homepage") as Hsp.
    { rewrite <- H. apply occurs_app_r. by exists "", "on GitHub". }
    apply indexOf_occurs in Hsp. by destruct Hsp. }
  destruct (Js.includes "github" _); split; split; done.
Qed.

(** A home page on GitHub written in capitals and one elsewhere. *)
Example homepage_header_samples :
  Core.getHomepageNavigationHeader Samples.cfg = "my-lib on GitHub"
  ∧ Core.getHomepageNavigationHeader
      {| Core.projectName := "my-lib"; Core.projectHomepage := "https://GitHub.com/me";
         Core.srcDir := "src"; Core.outDir := "docs"; Core.theme := "t";
         Core.enableSearch := true; Core.exclude := [];
         Core.examplesCompilerOptionsJson := "{}";
         Core.projectName_pattern := mk_is_Some _ _ eq_refl |} = "my-lib on GitHub"
  ∧ Core.getHomepageNavigationHeader
      {| Core.projectName := "my-lib"; Core.projectHomepage := "https://example.org";
         Core.srcDir := "src"; Core.outDir := "docs"; Core.theme := "t";
         Core.enableSearch := true; Core.exclude := [];
         Core.examplesCompilerOptionsJson := "{}";
         Core.projectName_pattern := mk_is_Some _ _ eq_refl |} = "Homepage".
Proof. by vm_compute. Qed.

End NavigationHeader.

(** ** Text without import clause *)

Section NoImport.
Import RegExp Props.

Lemma replaceAllFrom_no_match (r : Regex) (f : MState → string) (s : string)
    (p : option ascii) :
  (∀ p' s', isSuffix s' s → matchAt r p' s' = None) →
  replaceAllFrom r f p s 0 = s.
Proof.
  revert p. induction s as [|c s IH]; intros p Hno; simpl.
  - by rewrite Hno by apply isSuffix_refl.
  - rewrite Hno by apply isSuffix_refl. f_equal. apply IH.
    intros p' s' Hs'. apply Hno. by apply isSuffix_cons.
Qed.

Lemma importRegex_needs_from (n s : string) (r : Regex) (p : option ascii) :
  Core.importRegex n = Some r →
  Js.startsWith "from " s = false → matchAt r p s = None.
Proof.
  intros (name & _ & ->)%importRegex_Some Hs. unfold matchAt. cbn [seqs].
  by rewrite exec_Seq, exec_lit_fail.
Qed.

Lemma no_occurrence_no_start (t s s' : string) :
  ¬ occurs t s → isSuffix s' s → Js.startsWith t s' = false.
Proof.
  intros Hno [pre ->]. destruct (Js.startsWith t s') eqn:Hsw; [|done].
  apply startsWith_spec in Hsw as [post ->]. destruct Hno. by exists pre, post.
Qed.

(** X4. A text in which "from " does not occur is left as it is by the
    import rewriting, for every configuration of the model, that is for
    every project name in which no character other than the dot has a
    meaning of its own in a pattern; when the text does not mention
    "assert." either, the candidate file comes out of [handleImports]
    unchanged. *)
Theorem text_without_import_unchanged (cfg : Core.Config) (file : FileSystem.File) :
  ¬ occurs "from " (FileSystem.content file) →
  Core.replaceProjectName cfg (FileSystem.content file) = FileSystem.content file
  ∧ (¬ occurs "assert." (FileSystem.content file) →
     Core.handleImports cfg [file] = [file]).
Proof.
  intros Hno.
  assert (Core.replaceProjectName cfg (FileSystem.content file) = FileSystem.content file)
    as Hsame.
  { unfold Core.replaceProjectName, replaceAll. apply replaceAllFrom_no_match.
    intros p' s' Hs'.
    apply (importRegex_needs_from (Core.projectName cfg)); [apply importRegex_known|].
    by eapply no_occurrence_no_start. }
  split; [done|]. intros Hassert. unfold Core.handleImports. simpl. rewrite Hsame.
  unfold Core.addAssertImport.
  destruct (Js.indexOf "assert." (FileSystem.content file)) as [i|] eqn:Hi.
  - destruct Hassert. apply indexOf_occurs. rewrite Hi. by eexists.
  - by destruct file.
Qed.

Lemma text_without_import_unchanged_witness :
  Core.replaceProjectName Samples.cfg "const answer = 42" = "const answer = 42"
  ∧ Core.handleImports Samples.cfg [FileSystem.makeFile "a.ts" "const answer = 42" true]
    = [FileSystem.makeFile "a.ts" "const answer = 42" true].
Proof.
  destruct (text_without_import_unchanged Samples.cfg
              (FileSystem.makeFile "a.ts" "const answer = 42" true)) as [H1 H2].
  - intros [i Hi]%indexOf_occurs. vm_compute in Hi. discriminate Hi.
  - split; [exact H1|]. apply H2.
    intros [i Hi]%indexOf_occurs. vm_compute in Hi. discriminate Hi.
Defined.

End NoImport.

(** ** When a module document can be printed *)

Section Printable.
Import Domain Markdown Props.

Lemma fromPrintable_succeeded (p : Printable) :
  succeeded (fromPrintable p) ↔
  match p with
  | PNamespace ns => deepest ns 0 ≤ 2
  | _ => True
  end.
Proof.
  destruct p; cbn [fromPrintable]; try (split; [done | intros _; by eexists]).
  apply fromNamespace_succeeded.
Qed.

Lemma getPrintables_namespaces (m : Module) (p : Printable) :
  p ∈ getPrintables m →
  match p with
  | PNamespace ns => ns ∈ namespaces m
  | _ => True
  end.
Proof.
  unfold getPrintables. cbn [concat]. rewrite List.app_nil_r.
  intros Hp%list_elem_of_In.
  repeat apply in_app_or in Hp as [Hp|Hp];
    apply in_map_iff in Hp as (x & <- & Hx); try done.
  by apply list_elem_of_In.
Qed.

Lemma namespaces_getPrintables (m : Module) (ns : Namespace) :
  ns ∈ namespaces m → PNamespace ns ∈ getPrintables m.
Proof.
  intros Hns. unfold getPrintables. cbn [concat]. rewrite List.app_nil_r.
  apply list_elem_of_In. repeat (apply in_or_app; right).
  apply in_map. by apply list_elem_of_In.
Qed.

Lemma renderSection_succeeded (e : string * list Printable) :
  succeeded (renderSection e) ↔ Forall (λ p, succeeded (fromPrintable p)) e.2.
Proof.
  unfold renderSection. rewrite <- mapT_succeeded. split.
  - intros [s (rendered & Hr & _)%bind_Ok]. by exists rendered.
  - intros [rendered Hr]. rewrite Hr. by eexists.
Qed.

Lemma renderContent_succeeded (K : Js.KeyOrder) (m : Module) :
  succeeded (renderContent K m) ↔
  ∀ p, p ∈ getPrintables m → categoryOf p ≠ Js.protoKey → succeeded (fromPrintable p).
Proof.
  unfold renderContent.
  assert (succeeded (mapT renderSection (sections K m)) ↔
          ∀ p, p ∈ getPrintables m → categoryOf p ≠ Js.protoKey →
               succeeded (fromPrintable p)) as <-.
  { rewrite mapT_succeeded, Forall_forall. split.
    - intros Hall p Hp Hproto.
      destruct (section_of_printable K m p Hp Hproto) as (ps & Hsec & Hin).
      specialize (Hall _ Hsec). apply renderSection_succeeded in Hall.
      rewrite Forall_forall in Hall. by apply Hall.
    - intros Hall [c ps] Hsec. apply renderSection_succeeded, Forall_forall.
      intros p Hp.
      destruct (section_contents K m c ps Hsec) as (Hproto & _ & Hperm & _).
      rewrite Hperm in Hp. apply list_elem_of_filter in Hp as [Hc Hp].
      apply Hall; [done | by rewrite Hc]. }
  split.
  - intros [s (groups & Hg & _)%bind_Ok]. by exists groups.
  - intros [groups Hg]. rewrite Hg. by eexists.
Qed.

Lemma fromPrintable_Throw (p : Printable) (message : string) :
  fromPrintable p = Throw message → message = nestingError.
Proof.
  destruct p; cbn [fromPrintable]; try done.
  apply fromNamespace_Throw. lia.
Qed.

Lemma renderContent_Throw (K : Js.KeyOrder) (m : Module) (message : string) :
  renderContent K m = Throw message → message = nestingError.
Proof.
  unfold renderContent. intros [Hs|(? & _ & [=])]%bind_Throw.
  apply mapT_Throw in Hs as (e & _ & He). unfold renderSection in He.
  apply bind_Throw in He as [Hp|(? & _ & [=])].
  apply mapT_Throw in Hp as (p & _ & Hp). by eapply fromPrintable_Throw.
Qed.

(** The namespaces of a module that its document renders: those of every
    category but [Js.protoKey]. *)
Lemma rendered_namespaces_shallow (m : Module) :
  Forall (λ ns, deepest ns 0 ≤ 2)
    (filter (λ ns, categoryOf (PNamespace ns) ≠ Js.protoKey) (namespaces m))
  ↔ ∀ p, p ∈ getPrintables m → categoryOf p ≠ Js.protoKey → succeeded (fromPrintable p).
Proof.
  rewrite Forall_forall. split.
  - intros Hall p Hp Hproto. apply fromPrintable_succeeded.
    apply getPrintables_namespaces in Hp. destruct p; try done.
    apply Hall. by apply list_elem_of_filter.
  - intros Hall ns [Hproto Hns]%list_elem_of_filter.
    apply (fromPrintable_succeeded (PNamespace ns)), Hall; [|done].
    by apply namespaces_getPrintables.
Qed.

(** X5. What makes [printModule] throw. The document renders the namespaces
    of the module, except those of the category [Js.protoKey], which are in
    no group. When one of the rendered namespaces asks for a heading beyond
    the third nesting level, [printModule] throws "Unsupported namespace
    nesting: 4", whatever the two libraries do: they are not called. When
    none does, the body renders, and the outcome of [printModule] is that of
    the two libraries on it: the table of contents of the body, then the
    formatting of the whole document. Every other kind of printable always
    renders. *)
Theorem printModule_throws_for_deep_namespaces
    (L : Libs) (K : Js.KeyOrder) (m : Module) (order : nat) :
  let rendered :=
    filter (λ ns, categoryOf (PNamespace ns) ≠ Js.protoKey) (namespaces m) in
  (¬ Forall (λ ns, deepest ns 0 ≤ 2) rendered →
     printModule L K m order = Throw "Unsupported namespace nesting: 4")
  ∧ (Forall (λ ns, deepest ns 0 ≤ 2) rendered →
     ∃ content,
       renderContent K m = Ok content
       ∧ printModule L K m order
         = (contents ← tableOfContents L content;
            prettify L (Js.join Js.nl [
              getMeta (Js.join "/" (drop 1 (path m))) order;
              paragraph [getModuleDescription m];
              "---" +:+ Js.nl;
              contents;
              "---" +:+ Js.nl;
              content])))
  ∧ (∀ content,
       renderContent K m = Ok content →
       (∀ message, toc L content = Throw message →
                   printModule L K m order = Throw message)
       ∧ (succeeded (printModule L K m order) → succeeded (toc L content)))
  ∧ (∀ p, match p with PNamespace _ => True | _ => succeeded (fromPrintable p) end).
Proof.
  intros rendered. subst rendered. split; [|split; [|split]].
  - intros Hdeep. destruct (renderContent K m) as [content|message] eqn:Hc.
    + exfalso. apply Hdeep. apply (proj2 (rendered_namespaces_shallow m)).
      apply (proj1 (renderContent_succeeded K m)). rewrite Hc. by eexists.
    + unfold printModule. rewrite Hc.
      by rewrite (renderContent_Throw K m message Hc).
  - intros Hshallow.
    pose proof (proj1 (rendered_namespaces_shallow m) Hshallow) as Hall.
    destruct (proj2 (renderContent_succeeded K m) Hall) as [content Hc].
    exists content. split; [done|]. unfold printModule. by rewrite Hc.
  - intros content Hc.
    assert (printModule L K m order
            = (entries ← toc L content;
               prettify L (Js.join Js.nl [
                 getMeta (Js.join "/" (drop 1 (path m))) order;
                 paragraph [getModuleDescription m];
                 "---" +:+ Js.nl;
                 "<h2 class=" +:+ Js.dq +:+ "text-delta" +:+ Js.dq
                   +:+ ">Table of contents</h2>"
                   +:+ Js.nl +:+ Js.nl +:+ entries +:+ Js.nl +:+ Js.nl;
                 "---" +:+ Js.nl;
                 content]))) as ->.
    { unfold printModule, tableOfContents. rewrite Hc.
      change (Ok content ≫= ?f) with (f content). cbv beta.
      by destruct (toc L content). }
    split.
    + intros message Ht. by rewrite Ht.
    + intros [doc Hdoc]. destruct (toc L content) as [entries|message]; [by eexists | done].
  - intros p. destruct p; try done; by apply fromPrintable_succeeded.
Qed.

(** A module holding the sample namespace that is too deep cannot be
    printed; without it, it can; and in the category "__proto__" the deep
    namespace is not rendered, so the module can be printed. A table of
    contents that throws ends the printing with its error. *)
Example printModule_throws_on_deep_namespace :
  printModule Samples.plainLibs Js.insertionOrder
    (createModule (Samples.doc "index" []) ["src"; "index.ts"] [] [] [] [] [] []
       [Samples.topNs; Samples.tooDeepNs]) 1
  = Throw "Unsupported namespace nesting: 4"
  ∧ succeeded (printModule Samples.plainLibs Js.insertionOrder
                 (createModule (Samples.doc "index" []) ["src"; "index.ts"] [] [] [] [] [] []
                    [Samples.topNs]) 1)
  ∧ succeeded (printModule Samples.plainLibs Js.insertionOrder
                 (createModule (Samples.doc "index" []) ["src"; "index.ts"] [] [] [] [] [] []
                    [createNamespace
                       (createDocumentable "Deep" None None false [] (Some "__proto__"))
                       [] [] [Samples.tooDeepNs]]) 1)
  ∧ printModule
      {| toc := λ _, Throw "toc failed"; prettier_format := λ s, Ok s |}
      Js.insertionOrder
      (createModule (Samples.doc "index" []) ["src"; "index.ts"] [] [] [] [] [] []
         [Samples.topNs]) 1
    = Throw "toc failed".
Proof. split; [by vm_compute|]. split; [by eexists|]. split; [by eexists | by vm_compute]. Qed.

End Printable.

(** ** The module documents *)

Section ModuleDocuments.
Import Domain Props.

Lemma mapT_lookup {A B} (f : A → Thrown B) (l : list A) (ys : list B) (i : nat) (x : A) :
  mapT f l = Ok ys → l !! i = Some x → ∃ y, f x = Ok y ∧ ys !! i = Some y.
Proof.
  intros HF%mapT_Ok. revert i. induction HF as [|a b l k Hab _ IH]; intros [|i]; simpl; try done.
  - intros [= ->]. by exists b.
  - apply IH.
Qed.

Lemma mapT_length {A B} (f : A → Thrown B) (l : list A) (ys : list B) :
  mapT f l = Ok ys → length ys = length l.
Proof. intros HF%mapT_Ok. symmetry. by eapply Forall2_length. Qed.

Lemma mapT_throws {A B} (f : A → Thrown B) (l : list A) (x : A) :
  x ∈ l → ¬ succeeded (f x) → ¬ succeeded (mapT f l).
Proof.
  intros Hx Hfx Hall%mapT_succeeded. rewrite Forall_forall in Hall. by apply Hfx, Hall.
Qed.

(** X6. When the documents of the modules can all be printed, there is one
    file per module, in the order of the modules: the file of the module at
    position [i] (from 0) holds [printModule] of that module with the
    navigation order [i + 1], at the module's output path, and is marked to
    be overwritten. When one module cannot be printed, no list of files is
    produced. *)
Theorem module_documents_numbered_from_one
    (L : Markdown.Libs) (K : Js.KeyOrder) (cfg : Core.Config) (modules : list Module) :
  (∀ files,
      Core.getModuleMarkdownFiles L K cfg modules = Ok files →
      length files = length modules
      ∧ ∀ i m, modules !! i = Some m →
               ∃ content,
                 Markdown.printModule L K m (i + 1) = Ok content
                 ∧ files !! i
                   = Some (FileSystem.makeFile (Core.getMarkdownOutputPath cfg m) content true))
  ∧ (∀ i m, modules !! i = Some m →
            ¬ succeeded (Markdown.printModule L K m (i + 1)) →
            ¬ succeeded (Core.getModuleMarkdownFiles L K cfg modules)).
Proof.
  unfold Core.getModuleMarkdownFiles. split.
  - intros files Hfiles. split.
    + apply mapT_length in Hfiles. by rewrite Hfiles, length_imap.
    + intros i m Hm.
      destruct (mapT_lookup _ _ _ i (i, m) Hfiles) as (file & Hfile & Hi).
      { by rewrite list_lookup_imap, Hm. }
      apply bind_Ok in Hfile as (content & Hcontent & [= <-]). by exists content.
  - intros i m Hm Hthrow. apply (mapT_throws _ _ (i, m)).
    + apply list_elem_of_lookup. exists i. by rewrite list_lookup_imap, Hm.
    + intros [file (content & Hcontent & _)%bind_Ok]. apply Hthrow. by exists content.
Qed.

(** Two modules: the second document carries the navigation order 2. *)
Example module_documents_sample :
  match Core.getModuleMarkdownFiles Samples.plainLibs Js.insertionOrder Samples.cfg
          [Samples.emptyModule ["src"; "a.ts"]; Samples.emptyModule ["src"; "b.ts"]] with
  | Ok [f1; f2] =>
      FileSystem.path f1 = "docs/modules/a.ts.md"
      ∧ FileSystem.path f2 = "docs/modules/b.ts.md"
      ∧ Js.includes ("title: b.ts" +:+ Js.nl +:+ "nav_order: 2") (FileSystem.content f2) = true
  | _ => False
  end.
Proof. by vm_compute. Qed.

End ModuleDocuments.

(** ** The message of a parse error *)

Section ParseErrors.
Import Domain Props.

Lemma join_app (sep : string) (l1 l2 : list string) :
  l1 ≠ [] → l2 ≠ [] →
  Js.join sep (l1 ++ l2) = Js.join sep l1 +:+ sep +:+ Js.join sep l2.
Proof.
  intros H1 H2. induction l1 as [|x l1 IH]; [done|].
  destruct l1 as [|y l1].
  - destruct l2 as [|z l2]; [done|]. apply join_cons_cons.
  - change ((x :: y :: l1) ++ l2) with (x :: y :: (l1 ++ l2)).
    rewrite !join_cons_cons. change (y :: l1 ++ l2) with ((y :: l1) ++ l2).
    rewrite IH by done. by rewrite !str_app_assoc.
Qed.

Lemma concat_nonempty {A} (ls : list (list A)) :
  ls ≠ [] → Forall (λ l, l ≠ []) ls → concat ls ≠ [].
Proof.
  intros Hne Hall. destruct ls as [|l ls]; [done|].
  apply Forall_cons in Hall as [Hl _]. simpl. by destruct l.
Qed.

(** X7. When the parser reports errors, [getModules] fails with a
    [ParseError] whose message is the messages of all files, in order, one
    per line, provided every failing file comes with at least one message
    (an empty list of messages gives an empty line). *)
Theorem parse_error_message_one_line_per_message {W}
    (parseFiles : list FileSystem.File → W → (list (list string) + list Module) * W)
    (files : list FileSystem.File) (errors : list (list string)) (w w' : W) :
  Forall (λ messages, messages ≠ []) errors →
  parseFiles files w = (inl errors, w') →
  Core.getModules parseFiles files w
  = (Failure (ParseError (Js.join Js.nl (concat errors))), w').
Proof.
  intros Hall Hparse. unfold Core.getModules. rewrite Hparse.
  assert (Core.parseErrorMessage errors = Js.join Js.nl (concat errors)) as ->; [|done].
  unfold Core.parseErrorMessage. clear Hparse.
  induction errors as [|e errors IH]; [done|].
  apply Forall_cons in Hall as [He Hall].
  destruct errors as [|e' errors].
  - simpl. by rewrite List.app_nil_r.
  - change (map (Js.join Js.nl) (e :: e' :: errors))
      with (Js.join Js.nl e :: Js.join Js.nl e' :: map (Js.join Js.nl) errors).
    rewrite join_cons_cons.
    change (Js.join Js.nl e' :: map (Js.join Js.nl) errors)
      with (map (Js.join Js.nl) (e' :: errors)).
    rewrite IH by done. change (concat (e :: e' :: errors)) with (e ++ concat (e' :: errors)).
    rewrite join_app; [done | done | by apply concat_nonempty].
Qed.

Lemma parse_error_message_witness :
  Core.getModules
    (λ (_ : list FileSystem.File) (w : unit),
       (inl [["a.ts: missing @since"; "a.ts: missing description"]; ["b.ts: missing @since"]],
        w))
    [] tt
  = (Failure (ParseError
       ("a.ts: missing @since" +:+ Js.nl +:+ "a.ts: missing description" +:+ Js.nl +:+
        "b.ts: missing @since")), tt).
Proof.
  apply (parse_error_message_one_line_per_message
           (λ (_ : list FileSystem.File) (w : unit),
              (inl [["a.ts: missing @since"; "a.ts: missing description"];
                    ["b.ts: missing @since"]], w))
           [] [["a.ts: missing @since"; "a.ts: missing description"]; ["b.ts: missing @since"]]);
    [by repeat constructor | reflexivity].
Defined.

(** With a file that has no message the line count is off by one. *)
Example parse_error_message_empty_list :
  Core.parseErrorMessage [["first"]; []; ["second"]]
  = "first" +:+ Js.nl +:+ Js.nl +:+ "second".
Proof. reflexivity. Qed.

End ParseErrors.

(** ** The order of the parts of a rendered unit *)

Section RenderedOrder.
Import Domain Markdown Props.

Lemma occursBefore_refine (a b x y s : string) :
  occursBefore x y s → occurs a x → occurs b y → occursBefore a b s.
Proof.
  intros (pre & mid & post & ->) (p1 & q1 & ->) (p2 & q2 & ->).
  exists (pre +:+ p1), (q1 +:+ mid +:+ p2), (q2 +:+ post). by rewrite !str_app_assoc.
Qed.

Lemma occursBefore_paragraph (l1 l2 l3 : list string) (x y a b : string) :
  occurs a x → occurs b y →
  occursBefore a b (paragraph (l1 ++ x :: l2 ++ y :: l3)).
Proof.
  intros Ha Hb. unfold paragraph.
  eapply occursBefore_within;
    [|apply occurs_app_r, occurs_app_l, occurs_refl].
  eapply occursBefore_refine; [apply occursBefore_join | done..].
Qed.

Lemma occurs_members {A} (render : A → string) (l : list A) (x : A) :
  x ∈ l → occurs (render x) (Js.join "" (map (λ m, render m +:+ Js.nl +:+ Js.nl) l)).
Proof.
  intros Hx. eapply occurs_trans; [|apply occurs_join].
  - apply occurs_app_l, occurs_refl.
  - apply list_elem_of_In, (in_map (λ m, render m +:+ Js.nl +:+ Js.nl)).
    by apply list_elem_of_In.
Qed.

Lemma occursBefore_members {A} (render : A → string) (l1 l2 l3 : list A) (a b : A) :
  occursBefore (render a) (render b)
    (Js.join "" (map (λ m, render m +:+ Js.nl +:+ Js.nl) (l1 ++ a :: l2 ++ b :: l3))).
Proof.
  rewrite map_app, map_cons, map_app, map_cons.
  eapply occursBefore_refine; [apply occursBefore_join | apply occurs_app_l, occurs_refl..].
Qed.

(** X8. In the rendering of a class every static method comes before every
    method and every method before every property, and the members of one
    kind come in the order in which the class declares them. *)
Theorem class_members_in_declared_order (c : Class) :
  (∀ sm m, sm ∈ staticMethods c → m ∈ methods c →
           occursBefore (getStaticMethod sm) (getMethod m) (fromClass c))
  ∧ (∀ m p, m ∈ methods c → p ∈ properties c →
            occursBefore (getMethod m) (getProperty p) (fromClass c))
  ∧ (∀ l1 a l2 b l3, staticMethods c = l1 ++ a :: l2 ++ b :: l3 →
            occursBefore (getStaticMethod a) (getStaticMethod b) (fromClass c))
  ∧ (∀ l1 a l2 b l3, methods c = l1 ++ a :: l2 ++ b :: l3 →
            occursBefore (getMethod a) (getMethod b) (fromClass c))
  ∧ (∀ l1 a l2 b l3, properties c = l1 ++ a :: l2 ++ b :: l3 →
            occursBefore (getProperty a) (getProperty b) (fromClass c)).
Proof.
  unfold fromClass, getStaticMethods, getMethods, getProperties.
  split; [|split; [|split; [|split]]].
  - intros sm m Hsm Hm. apply (occursBefore_paragraph [_] [] [_]); by apply occurs_members.
  - intros m p Hm Hp. apply (occursBefore_paragraph [_; _] [] []); by apply occurs_members.
  - intros l1 a l2 b l3 ->. eapply occursBefore_within; [apply occursBefore_members|].
    apply occurs_paragraph. right. left.
  - intros l1 a l2 b l3 ->. eapply occursBefore_within; [apply occursBefore_members|].
    apply occurs_paragraph. do 2 right. left.
  - intros l1 a l2 b l3 ->. eapply occursBefore_within; [apply occursBefore_members|].
    apply occurs_paragraph. do 3 right. left.
Qed.

Lemma occurs_signatures (ss : list string) :
  occurs (fence "ts" (Js.join Js.nl ss)) (getSignatures ss).
Proof. unfold getSignatures. apply occurs_app_r, occurs_paragraph. left. Qed.

Lemma occursBefore_examples (l1 l2 l3 : list string) (a b : string) :
  occursBefore (fence "ts" a) (fence "ts" b) (getExamples (l1 ++ a :: l2 ++ b :: l3)).
Proof.
  unfold getExamples. rewrite map_app, map_cons, map_app, map_cons.
  eapply occursBefore_refine; [apply occursBefore_join |..];
    apply occurs_app_r, occurs_paragraph; left.
Qed.

Lemma occurs_example (es : list string) (e : string) :
  e ∈ es → occurs (fence "ts" e) (getExamples es).
Proof.
  intros He. unfold getExamples. eapply occurs_trans; [|apply occurs_join].
  - apply occurs_app_r, occurs_paragraph. left.
  - apply list_elem_of_In,
      (in_map (λ code, paragraph [bold "Example"] +:+ paragraph [fence "ts" code])).
    by apply list_elem_of_In.
Qed.

(** X9. The rendering of a function begins, at the start of a line, with
    the heading of level 2 of its title (two hash marks, a space, the title,
    a blank line); later comes one fenced block with all its signatures (one
    per line), and after it one fenced block per example, the examples in
    their declared order. *)
Theorem function_rendering_order (f : Function) :
  let d := function_doc f in
  let title := getTitle (name d) (deprecated d) None in
  let signatures := fence "ts" (Js.join Js.nl (function_signatures f)) in
  (∃ mid post,
     fromFunction f
     = Js.nl +:+ "## " +:+ title +:+ Js.nl +:+ Js.nl +:+ mid +:+ signatures +:+ post)
  ∧ (∀ e, e ∈ examples d → occursBefore signatures (fence "ts" e) (fromFunction f))
  ∧ (∀ l1 a l2 b l3, examples d = l1 ++ a :: l2 ++ b :: l3 →
        occursBefore (fence "ts" a) (fence "ts" b) (fromFunction f)).
Proof.
  intros d title signatures. subst d title signatures. split; [|split].
  - exists (getDescription (description (function_doc f))
            +:+ Js.nl +:+ bold "Signature" +:+ Js.nl +:+ Js.nl +:+ Js.nl),
           (Js.nl +:+ Js.nl +:+ getExamples (examples (function_doc f))
            +:+ getSince (since (function_doc f)) +:+ Js.nl +:+ Js.nl).
    unfold fromFunction, getSignatures, h2, createHeader, paragraph.
    cbn [Js.join Js.repeat].
    by repeat rewrite ?str_app_cons, ?str_app_nil_l, ?str_app_nil_r, ?str_app_assoc.
  - unfold fromFunction.
    intros e He. apply (occursBefore_paragraph [_; _] [] [_]);
      [apply occurs_signatures | by apply occurs_example].
  - unfold fromFunction. intros l1 a l2 b l3 Hes.
    apply (occursBefore_within _ _ (getExamples (examples (function_doc f)))).
    + rewrite Hes. apply occursBefore_examples.
    + apply occurs_paragraph. do 3 right. left.
Qed.

End RenderedOrder.

(** ** Replacing in a text *)

Section Replace.
Import RegExp Props.

Lemma getSubstitution_plain (piece pre post replacement : string) :
  dollarFree replacement = true →
  getSubstitution piece pre post replacement = replacement.
Proof.
  induction replacement as [|c r IH]; [done|]. simpl dollarFree.
  intros [Hc Hr]%andb_true_iff. apply negb_true_iff, bool_decide_eq_false in Hc.
  specialize (IH Hr). destruct c as [[] [] [] [] [] [] [] []];
    first [by destruct Hc | simpl; by rewrite IH].
Qed.

(** No position before the leftmost match matches. *)
Lemma search_leftmost r p s pre piece e :
  search r p s = Some (pre, piece, e) →
  ∀ a b, pre = a +:+ b → b ≠ "" →
         matchAt r (lastCharOr p a) (b +:+ piece +:+ rest e) = None.
Proof.
  revert p pre. induction s as [|c s IH]; intros p pre; simpl.
  - destruct (matchAt r p "") as [e'|] eqn:He'; [|done].
    intros [= <- <- <-] a b Hab Hb. by destruct a, b.
  - destruct (matchAt r p (String c s)) as [e'|] eqn:He'.
    + intros [= <- <- <-] a b Hab Hb. by destruct a, b.
    + destruct (search r (Some c) s) as [[[pre' piece'] e'']|] eqn:Hs; [|done].
      intros [= <- <- <-] a b Hab Hb.
      destruct (search_cut _ _ _ _ _ _ Hs) as [Hcut _].
      destruct a as [|x a].
      * rewrite str_app_nil_l in Hab. subst b. simpl.
        by rewrite str_app_cons, <- Hcut.
      * rewrite str_app_cons in Hab. injection Hab as <- ->. simpl.
        by apply (IH _ _ Hs).
Qed.

(** X10. [replace] with a pattern without the [g] flag and a replacement text
    without [$] changes at most one piece of the text: either the pattern
    matches nowhere and the text comes back as it is, or the text is cut
    into what is before the leftmost match, the match and what is after it,
    and the result keeps the first and the last around the replacement. *)
Theorem replace_changes_only_leftmost_match (r : Regex) (replacement s : string) :
  dollarFree replacement = true →
  (search r None s = None ∧ replaceFirst r replacement s = s)
  ∨ ∃ pre piece post e,
      s = pre +:+ piece +:+ post
      ∧ matchAt r (lastCharOr None pre) (piece +:+ post) = Some e ∧ rest e = post
      ∧ (∀ a b, pre = a +:+ b → b ≠ "" →
                matchAt r (lastCharOr None a) (b +:+ piece +:+ post) = None)
      ∧ replaceFirst r replacement s = pre +:+ replacement +:+ post.
Proof.
  intros Hplain. unfold replaceFirst.
  destruct (search r None s) as [[[pre piece] e]|] eqn:Hs; [right | by left].
  exists pre, piece, (rest e), e. destruct (search_cut _ _ _ _ _ _ Hs) as [Hcut Hm].
  split; [done|]. split; [done|]. split; [done|].
  split; [by apply (search_leftmost _ _ _ _ _ _ Hs)|].
  by rewrite getSubstitution_plain.
Qed.

(** The theme line of a configuration is replaced where it stands. *)
Lemma replace_changes_only_leftmost_match_witness :
  replaceFirst Core.remoteThemeRegex "remote_theme: new"
    ("title: docs" +:+ Js.nl +:+ "remote_theme: old" +:+ Js.nl +:+ "tail")
  = "title: docs" +:+ Js.nl +:+ "remote_theme: new" +:+ Js.nl +:+ "tail".
Proof.
  destruct (replace_changes_only_leftmost_match Core.remoteThemeRegex "remote_theme: new"
              ("title: docs" +:+ Js.nl +:+ "remote_theme: old" +:+ Js.nl +:+ "tail")
              eq_refl)
    as [[Hnone _]|(pre & piece & post & e & _ & _ & _ & _ & _)].
  - vm_compute in Hnone. discriminate Hnone.
  - by vm_compute.
Defined.

End Replace.

(** ** A configuration without the fields *)

Section ConfigWithoutFields.
Import RegExp Props.

Lemma search_none (r : Regex) (s : string) (p : option ascii) :
  (∀ p' s', isSuffix s' s → matchAt r p' s' = None) → search r p s = None.
Proof.
  revert p. induction s as [|c s IH]; intros p Hno; simpl.
  - by rewrite Hno by apply isSuffix_refl.
  - rewrite Hno by apply isSuffix_refl. rewrite IH; [done|].
    intros p' s' Hs'. apply Hno. by apply isSuffix_cons.
Qed.

Lemma replaceFirst_without_match (r : Regex) (replacement s : string) :
  (∀ p' s', isSuffix s' s → matchAt r p' s' = None) → replaceFirst r replacement s = s.
Proof. intros Hno. unfold replaceFirst. by rewrite search_none. Qed.

Lemma fieldRegex_needs_field (field s s' : string) (p : option ascii) :
  ¬ occurs field s → isSuffix s' s →
  matchAt (seqs [LineStart; lit field; Star Dot; LineEnd]) p s' = None.
Proof.
  intros Hno [pre ->].
  destruct (matchAt _ p s') as [e|] eqn:Hm; [|done].
  apply fieldRegex_inv in Hm as (_ & _ & value & -> & _).
  destruct Hno. by exists pre, (value +:+ rest e).
Qed.

Lemma exec_LineStart st k :
  exec LineStart st k = if atLineStart st then k st else None.
Proof. reflexivity. Qed.

Lemma exec_Star cc st k :
  exec (Star cc) st k = starLoop cc k (caps st) (prev st) (rest st).
Proof. reflexivity. Qed.

(** A match of the link pattern holds the words " on GitHub':". *)
Lemma homepageLinkRegex_inv (p : option ascii) (s : string) (e : MState) :
  matchAt Core.homepageLinkRegex p s = Some e →
  ∃ label more, s = "  '" +:+ label +:+ " on GitHub':" +:+ more
                ∧ allMatch NonSpace label = true.
Proof.
  unfold matchAt, Core.homepageLinkRegex. cbn [seqs].
  rewrite exec_Seq, exec_LineStart. destruct (atLineStart _); [|done].
  rewrite exec_Seq, exec_times_lit.
  intros (s1 & Hs1 & H)%exec_lit_inv. cbn [rest prev caps] in Hs1, H. subst s.
  rewrite exec_Seq in H. apply exec_lit_inv in H as (s2 & Hs2 & H).
  cbn [rest prev caps] in Hs2, H. subst s1.
  rewrite exec_Seq, exec_Star in H. cbn [rest prev caps] in H.
  apply starLoop_inv in H as (label & s3 & -> & Hlabel & H).
  rewrite exec_Seq in H. apply exec_lit_inv in H as (s4 & Hs4 & _).
  cbn [rest] in Hs4. subst s3. by exists label, s4.
Qed.

Lemma homepageLinkRegex_needs_words (s s' : string) (p : option ascii) :
  ¬ occurs " on GitHub':" s → isSuffix s' s →
  matchAt Core.homepageLinkRegex p s' = None.
Proof.
  intros Hno [pre ->].
  destruct (matchAt _ p s') as [e|] eqn:Hm; [|done].
  apply homepageLinkRegex_inv in Hm as (label & more & -> & _).
  destruct Hno. exists (pre +:+ "  '" +:+ label), more. by rewrite !str_app_assoc.
Qed.

(** X11. A previous configuration in which none of "remote_theme:",
    "search_enabled:" and " on GitHub':" occurs is returned as it is:
    [resolveConfigYML] only patches fields that are there and adds none. *)
Theorem resolveConfigYML_adds_no_field (previousContent : string) (cfg : Core.Config) :
  ¬ occurs "remote_theme:" previousContent →
  ¬ occurs "search_enabled:" previousContent →
  ¬ occurs " on GitHub':" previousContent →
  Core.resolveConfigYML previousContent cfg = previousContent.
Proof.
  intros Htheme Hsearch Hlink. unfold Core.resolveConfigYML.
  rewrite (replaceFirst_without_match Core.remoteThemeRegex);
    [|intros; by eapply fieldRegex_needs_field].
  rewrite (replaceFirst_without_match Core.searchEnabledRegex);
    [|intros; by eapply fieldRegex_needs_field].
  apply replaceFirst_without_match. intros. by eapply homepageLinkRegex_needs_words.
Qed.

Lemma resolveConfigYML_adds_no_field_witness :
  Core.resolveConfigYML ("title: My docs" +:+ Js.nl +:+ "baseurl: /docs") Samples.cfg
  = "title: My docs" +:+ Js.nl +:+ "baseurl: /docs".
Proof.
  apply resolveConfigYML_adds_no_field;
    intros [i Hi]%indexOf_occurs; vm_compute in Hi; discriminate Hi.
Defined.

End ConfigWithoutFields.

(** ** Writing the site configuration *)

Section WritingConfig.

(** X12. In a file system in memory, computing the site configuration and
    writing the file it gives: when the configuration file exists, it is
    overwritten with what [resolveConfigYML] gives for its previous content;
    when nothing exists at its path, it is created with the template; both
    runs succeed and the rest of the file system is as before. *)
Theorem config_file_patched_or_created cfg cwd tsNode (w : gmap string string) :
  let S := InMemory.services cfg cwd tsNode in
  let p := InMemory.resolve cwd (Core.join [cwd; Core.outDir cfg; "_config.yml"]) in
  (∀ previous, w !! p = Some previous →
     Effect.flatMap (Core.getConfigYML S) (Core.writeFile S) w
     = (Success tt, <[p := Core.resolveConfigYML previous cfg]> w))
  ∧ (InMemory.exists_ w p = false →
     Effect.flatMap (Core.getConfigYML S) (Core.writeFile S) w
     = (Success tt, <[p := Core.configTemplate cfg]> w)).
Proof.
  intros S p. subst S p.
  set (p := InMemory.resolve cwd (Core.join [cwd; Core.outDir cfg; "_config.yml"])).
  assert (∀ e,
    Effect.flatMap (Core.getConfigYML (InMemory.services cfg cwd tsNode))
      (Core.writeFile (InMemory.services cfg cwd tsNode)) w
    = (if InMemory.exists_ w p
       then match w !! p with
            | Some c =>
                if InMemory.exists_ w p
                then (Success tt, <[p := Core.resolveConfigYML c cfg]> w)
                else e
            | None =>
                (Failure (ReadFileError (Core.join [cwd; Core.outDir cfg; "_config.yml"])), w)
            end
       else (Success tt, <[p := Core.configTemplate cfg]> w))) as Hrun.
  { intros e.
    unfold Core.getConfigYML, Core.writeFile, Effect.flatMap, Effect.map, Effect.ifE,
      Effect.flatMap, Effect.succeed.
    cbn [Core.cwd Core.pathExists Core.readFile Core.writeFile_ Core.config InMemory.services].
    fold p. destruct (InMemory.exists_ w p) eqn:He.
    - destruct (w !! p) as [c|] eqn:Hc; [|done].
      cbn [FileSystem.path FileSystem.content FileSystem.overwrite]. fold p. by rewrite He.
    - cbn [FileSystem.path FileSystem.content FileSystem.overwrite]. fold p. by rewrite He. }
  split.
  - intros previous Hp. rewrite (Hrun (Success tt, w)).
    by rewrite (inMemory_exists _ _ _ Hp), Hp.
  - intros Hp. by rewrite (Hrun (Success tt, w)), Hp.
Qed.

(** An existing configuration with an old theme, and an empty file system. *)
Example config_file_samples :
  (Effect.flatMap (Core.getConfigYML Samples.acceptingServices)
     (Core.writeFile Samples.acceptingServices)
     {[ "/work/docs/_config.yml" := "remote_theme: old" +:+ Js.nl +:+ "title: mine" ]}).2
  !! "/work/docs/_config.yml"
  = Some ("remote_theme: pmarsceill/just-the-docs" +:+ Js.nl +:+ "title: mine")
  ∧ (Effect.flatMap (Core.getConfigYML Samples.acceptingServices)
       (Core.writeFile Samples.acceptingServices) ∅).2
    !! "/work/docs/_config.yml"
    = Some (Core.configTemplate Samples.cfg).
Proof. split; by vm_compute. Qed.

(** What [resolveConfigYML] gives for the template of the tool itself: the
    link block of the template is not indented as the third pattern asks, so
    with a new project name and home page the file keeps the old link. *)
Example own_template_keeps_its_link :
  Core.resolveConfigYML (Core.configTemplate Samples.cfg)
    {| Core.projectName := "new-lib";
       Core.projectHomepage := "https://github.com/me/new-lib";
       Core.srcDir := "src";
       Core.outDir := "docs";
       Core.theme := "pmarsceill/just-the-docs";
       Core.enableSearch := true;
       Core.exclude := [];
       Core.examplesCompilerOptionsJson := "{}";
       Core.projectName_pattern := mk_is_Some _ _ eq_refl |}
  = Core.configTemplate Samples.cfg.
Proof. by vm_compute. Qed.

End WritingConfig.


(** ** Paths *)

Section Paths.
Import Props.

Lemma rev_app_spec (a b : string) : String.rev_app a b = String.rev a +:+ b.
Proof.
  revert b. induction a as [|x a IH]; intros b; [done|].
  unfold String.rev. simpl. rewrite (IH (String x b)), (IH (String x "")).
  by rewrite str_app_assoc.
Qed.

Lemma rev_cons (x : ascii) (a : string) : String.rev (String x a) = String.rev a +:+ String x "".
Proof. unfold String.rev at 1. simpl. apply rev_app_spec. Qed.

Lemma rev_app (a b : string) : String.rev (a +:+ b) = String.rev b +:+ String.rev a.
Proof.
  induction a as [|x a IH]; [by rewrite str_app_nil_l, str_app_nil_r|].
  by rewrite str_app_cons, !rev_cons, IH, str_app_assoc.
Qed.

Lemma rev_involutive (a : string) : String.rev (String.rev a) = a.
Proof.
  induction a as [|x a IH]; [done|]. by rewrite rev_cons, rev_app, IH.
Qed.

Lemma splitOn_app (c : ascii) (cur a b : string) :
  NodePath.splitOn c cur (a +:+ String c b)
  = NodePath.splitOn c cur a ++ NodePath.splitOn c "" b.
Proof.
  revert cur. induction a as [|x a IH]; intros cur.
  - rewrite str_app_nil_l. simpl. by rewrite bool_decide_eq_true_2.
  - rewrite str_app_cons. simpl. case_bool_decide; by rewrite IH.
Qed.

Lemma splitOn_slashFree (cur s : string) :
  slashFree s = true → NodePath.splitOn "/" cur s = [String.rev cur +:+ s].
Proof.
  revert cur. induction s as [|x s IH]; intros cur; simpl.
  - by rewrite str_app_nil_r.
  - intros [Hx Hs]%andb_true_iff. apply negb_true_iff, bool_decide_eq_false in Hx.
    rewrite bool_decide_eq_false_2 by done.
    by rewrite IH, rev_cons, str_app_assoc.
Qed.

Lemma slashFree_app (a b : string) : slashFree (a +:+ b) = slashFree a && slashFree b.
Proof.
  induction a as [|c a IH]; [done|]. rewrite str_app_cons. simpl.
  by rewrite IH, andb_assoc.
Qed.

Lemma slashFree_rev (a : string) : slashFree (String.rev a) = slashFree a.
Proof.
  induction a as [|c a IH]; [done|]. rewrite rev_cons, slashFree_app, IH. simpl.
  by rewrite andb_true_r, andb_comm.
Qed.

Lemma splitOn_segments_slashFree (cur s : string) :
  slashFree cur = true → Forall (λ x, slashFree x = true) (NodePath.splitOn "/" cur s).
Proof.
  revert cur. induction s as [|x s IH]; intros cur Hcur; simpl.
  - constructor; [by rewrite slashFree_rev | constructor].
  - case_bool_decide as Hx.
    + constructor; [by rewrite slashFree_rev | by apply IH].
    + apply IH. simpl. rewrite Hcur. by rewrite bool_decide_eq_false_2.
Qed.

Lemma segments_join (l : list string) :
  l ≠ [] → Forall (λ x, slashFree x = true) l → segments (Js.join "/" l) = l.
Proof.
  unfold segments. induction l as [|x l IH]; [done|]. intros _ [Hx Hl]%Forall_cons.
  destruct l as [|y l].
  - simpl Js.join. by rewrite splitOn_slashFree.
  - rewrite join_cons_cons.
    change (x +:+ "/" +:+ Js.join "/" (y :: l)) with (x +:+ String "/" (Js.join "/" (y :: l))).
    by rewrite splitOn_app, splitOn_slashFree, IH.
Qed.

Lemma normalizeSegments_run (allow : bool) (stack segs : list string) :
  NodePath.normalizeSegments allow stack segs = reverse (run allow stack segs).
Proof.
  revert stack. induction segs as [|seg segs IH]; intros stack; [done|].
  change (run allow stack (seg :: segs)) with (run allow (step allow stack seg) segs).
  rewrite <- IH. simpl. unfold step.
  destruct (bool_decide (seg = "") || bool_decide (seg = ".")); [done|].
  destruct (bool_decide (seg = "..")); [|done].
  destruct stack as [|top stack]; [by destruct allow|].
  by destruct (bool_decide (top = "..")).
Qed.

Lemma run_app (allow : bool) (stack l1 l2 : list string) :
  run allow stack (l1 ++ l2) = run allow (run allow stack l1) l2.
Proof. apply foldl_app. Qed.

Lemma step_kept (allow : bool) (stack : list string) (x : string) :
  x ≠ "" → x ≠ "." → x ≠ ".." → step allow stack x = x :: stack.
Proof.
  intros H1 H2 H3. unfold step. by rewrite !bool_decide_eq_false_2.
Qed.

Lemma step_skipped (allow : bool) (stack : list string) (x : string) :
  x = "" ∨ x = "." → step allow stack x = stack.
Proof. by intros [->| ->]. Qed.

(** No empty segment and no dot is ever on the stack. *)
Lemma run_kept (allow : bool) (stack segs : list string) :
  Forall (λ x, x ≠ "" ∧ x ≠ ".") stack →
  Forall (λ x, x ≠ "" ∧ x ≠ ".") (run allow stack segs).
Proof.
  revert stack. induction segs as [|seg segs IH]; intros stack Hst; [done|].
  simpl. apply IH. unfold step.
  destruct (bool_decide (seg = "") || bool_decide (seg = ".")) eqn:Hskip; [done|].
  apply orb_false_iff in Hskip as [H1%bool_decide_eq_false H2%bool_decide_eq_false].
  case_bool_decide as Hup.
  - destruct stack as [|top stack]; [destruct allow; by repeat constructor|].
    apply Forall_cons in Hst as [Htop Hst].
    case_bool_decide; [|done]. subst. by repeat constructor.
  - by constructor.
Qed.

Lemma step_up_nil (allow : bool) : step allow [] ".." = if allow then [".."] else [].
Proof. done. Qed.

Lemma step_up_cons (allow : bool) (top : string) (stack : list string) :
  step allow (top :: stack) ".."
  = if bool_decide (top = "..") then ".." :: top :: stack else stack.
Proof. done. Qed.

(** Normalizing first changes nothing for what follows. *)
Lemma run_normalized (a b : bool) (stack segs : list string) :
  b = true ∨ (a = false ∧ stack = []) →
  run a stack (reverse (run b [] segs)) = run a stack segs.
Proof.
  intros Hab. induction segs as [|x segs IH] using rev_ind; [done|].
  rewrite !run_app.
  change (run b (run b [] segs) [x]) with (step b (run b [] segs) x).
  change (run a (run a stack segs) [x]) with (step a (run a stack segs) x).
  rewrite <- IH.
  pose proof (run_kept b [] segs (Forall_nil_2 _)) as Hkept.
  destruct (decide (x = "" ∨ x = ".")) as [Hs|Hs].
  { by rewrite !step_skipped. }
  destruct (decide (x = "..")) as [->|Hup].
  - destruct (run b [] segs) as [|top T] eqn:HT.
    + rewrite !step_up_nil. destruct b.
      * done.
      * by destruct Hab as [?|[-> ->]].
    + apply Forall_cons in Hkept as [[Htop1 Htop2] _].
      rewrite step_up_cons. case_bool_decide as Htop.
      * rewrite (reverse_cons (top :: T)), run_app. done.
      * rewrite (reverse_cons T top), run_app.
        change (run a (run a stack (reverse T)) [top])
          with (step a (run a stack (reverse T)) top).
        rewrite (step_kept a _ top) by done.
        by rewrite step_up_cons, bool_decide_eq_false_2.
  - assert (x ≠ "" ∧ x ≠ ".") as [H1 H2] by (split; intros ->; apply Hs; auto).
    rewrite !step_kept by done. rewrite reverse_cons, run_app.
    apply (step_kept a _ x); done.
Qed.

Lemma run_Forall (P : string → Prop) (allow : bool) (stack segs : list string) :
  P ".." → Forall P stack → Forall P segs → Forall P (run allow stack segs).
Proof.
  intros Hup. revert stack. induction segs as [|seg segs IH]; intros stack Hst Hsegs; [done|].
  apply Forall_cons in Hsegs as [Hseg Hsegs].
  change (run allow stack (seg :: segs)) with (run allow (step allow stack seg) segs).
  apply IH; [|done]. unfold step.
  destruct (bool_decide (seg = "") || bool_decide (seg = ".")); [done|].
  destruct (bool_decide (seg = "..")); [|by constructor].
  destruct stack as [|top stack]; [destruct allow; by repeat constructor|].
  apply Forall_cons in Hst as [Htop Hst].
  destruct (bool_decide (top = "..")); by repeat constructor.
Qed.

(** What [normalize] keeps of a path are kept segments. *)
Lemma run_segments_kept (allow : bool) (p : string) :
  Forall keptSegment (reverse (run allow [] (segments p))).
Proof.
  apply Forall_reverse.
  pose proof (run_kept allow [] (segments p) (Forall_nil_2 _)) as H1.
  pose proof (run_Forall (λ x, slashFree x = true) allow [] (segments p)
                eq_refl (Forall_nil_2 _) (splitOn_segments_slashFree "" p eq_refl)) as H2.
  rewrite Forall_forall in H1, H2. apply Forall_forall. intros x Hx.
  split; [by apply H2 | by apply H1].
Qed.

Lemma normalize_assemble (p : string) :
  p ≠ "" →
  NodePath.normalize p
  = assemble (NodePath.isAbsolute p) (NodePath.endsWithSlash p)
      (reverse (run (negb (NodePath.isAbsolute p)) [] (segments p))).
Proof.
  intros Hp. unfold NodePath.normalize, assemble, segments.
  rewrite bool_decide_eq_false_2 by done. by rewrite normalizeSegments_run.
Qed.

Lemma join_nonempty (l : list string) :
  l ≠ [] → Forall (λ x, x ≠ "") l → Js.join "/" l ≠ "".
Proof.
  destruct l as [|x [|y l]]; [done| |]; intros _ [Hx _]%Forall_cons.
  - done.
  - rewrite join_cons_cons. destruct x; [done|]. by rewrite str_app_cons.
Qed.

Lemma kept_nonempty (l : list string) : Forall keptSegment l → Forall (λ x, x ≠ "") l.
Proof. intros H. eapply Forall_impl; [done|]. by intros x (_ & ? & _). Qed.

Lemma kept_slashFree (l : list string) :
  Forall keptSegment l → Forall (λ x, slashFree x = true) l.
Proof. intros H. eapply Forall_impl; [done|]. by intros x (? & _). Qed.

Lemma assemble_cons (absolute trailing : bool) (l : list string) :
  l ≠ [] → Forall keptSegment l →
  assemble absolute trailing l
  = (if absolute then "/" else "") +:+ Js.join "/" l +:+ (if trailing then "/" else "").
Proof.
  intros Hl Hk. unfold assemble.
  rewrite bool_decide_eq_false_2 by (apply join_nonempty; [done | by apply kept_nonempty]).
  destruct absolute, trailing; by rewrite ?str_app_nil_l, ?str_app_nil_r.
Qed.

Lemma assemble_nonempty (absolute trailing : bool) (l : list string) :
  Forall keptSegment l → assemble absolute trailing l ≠ "".
Proof.
  intros Hk. destruct l as [|x l].
  - by destruct absolute, trailing.
  - rewrite assemble_cons by done.
    pose proof (join_nonempty (x :: l) ltac:(done) (kept_nonempty _ Hk)) as Hj.
    destruct absolute; [by rewrite str_app_cons|]. rewrite str_app_nil_l.
    destruct (Js.join "/" (x :: l)); [done|]. by rewrite str_app_cons.
Qed.

(** The segments of an assembled path: the kept ones, with an empty one in
    front of an absolute path and after a trailing separator. *)
Lemma segments_assemble (absolute trailing : bool) (l : list string) :
  l ≠ [] → Forall keptSegment l →
  segments (assemble absolute trailing l)
  = (if absolute then [""] else []) ++ l ++ (if trailing then [""] else []).
Proof.
  intros Hl Hk. rewrite assemble_cons by done.
  pose proof (segments_join l Hl (kept_slashFree _ Hk)) as Hs. unfold segments in *.
  destruct absolute, trailing; rewrite ?str_app_nil_l, ?str_app_nil_r.
  - change ("/" +:+ Js.join "/" l +:+ "/")
      with ("" +:+ String "/" (Js.join "/" l +:+ String "/" "")).
    by rewrite !splitOn_app, Hs.
  - change ("/" +:+ Js.join "/" l) with ("" +:+ String "/" (Js.join "/" l)).
    by rewrite splitOn_app, Hs, app_nil_r.
  - change (Js.join "/" l +:+ "/") with (Js.join "/" l +:+ String "/" "").
    by rewrite splitOn_app, Hs.
  - by rewrite Hs, app_nil_r.
Qed.

Lemma run_segments_assemble (a absolute trailing : bool) (stack l : list string) :
  Forall keptSegment l →
  run a stack (segments (assemble absolute trailing l)) = run a stack l.
Proof.
  intros Hk. destruct l as [|x l].
  - by destruct absolute, trailing.
  - rewrite segments_assemble by done.
    assert (∀ st l', run a st ([""] ++ l') = run a st l') as Hfront.
    { intros st l'. by rewrite run_app. }
    assert (∀ st l', run a st (l' ++ [""]) = run a st l') as Hback.
    { intros st l'. rewrite run_app. apply (step_skipped a _ ""). auto. }
    destruct absolute, trailing; rewrite ?app_nil_l, ?Hfront, ?Hback, ?app_nil_r; done.
Qed.

Lemma slashFree_startsWith (s : string) : slashFree s = true → Js.startsWith "/" s = false.
Proof.
  destruct s as [|c s]; [done|]. simpl. intros [Hc _]%andb_true_iff.
  apply negb_true_iff, bool_decide_eq_false in Hc.
  rewrite bool_decide_eq_false_2; [done | congruence].
Qed.

Lemma startsWith_app_nonempty (c a : string) :
  c ≠ "" → Js.startsWith "/" (c +:+ a) = Js.startsWith "/" c.
Proof.
  destruct c as [|x c]; [done|]. intros _. rewrite str_app_cons. simpl.
  by rewrite !andb_true_r.
Qed.

Lemma isAbsolute_assemble (absolute trailing : bool) (l : list string) :
  Forall keptSegment l → NodePath.isAbsolute (assemble absolute trailing l) = absolute.
Proof.
  intros Hk. destruct l as [|x l].
  - by destruct absolute, trailing.
  - rewrite assemble_cons by done. unfold NodePath.isAbsolute.
    destruct absolute; [by rewrite str_app_cons|]. rewrite str_app_nil_l, join_head.
    apply Forall_cons in Hk as [(Hx & Hne & _) _].
    rewrite !str_app_assoc, startsWith_app_nonempty by done.
    by apply slashFree_startsWith.
Qed.

Lemma endsWithSlash_app (a b : string) :
  b ≠ "" → NodePath.endsWithSlash (a +:+ b) = NodePath.endsWithSlash b.
Proof.
  intros Hb. unfold NodePath.endsWithSlash. rewrite rev_app.
  apply startsWith_app_nonempty. intros Hr. apply Hb.
  by rewrite <- (rev_involutive b), Hr.
Qed.

Lemma endsWithSlash_slashFree (s : string) :
  slashFree s = true → NodePath.endsWithSlash s = false.
Proof. intros Hs. apply slashFree_startsWith. by rewrite slashFree_rev. Qed.

Lemma endsWithSlash_join (l : list string) :
  l ≠ [] → Forall keptSegment l → NodePath.endsWithSlash (Js.join "/" l) = false.
Proof.
  induction l as [|x l IH]; [done|]. intros _ [(Hx & _) Hl]%Forall_cons.
  destruct l as [|y l]; [by apply endsWithSlash_slashFree|].
  rewrite join_cons_cons.
  pose proof (join_nonempty (y :: l) ltac:(done) (kept_nonempty _ Hl)) as Hj.
  rewrite endsWithSlash_app; [|by rewrite str_app_cons].
  rewrite endsWithSlash_app by done. by apply IH.
Qed.

Lemma endsWithSlash_assemble (absolute trailing : bool) (l : list string) :
  Forall keptSegment l → (l = [] → absolute = false) →
  NodePath.endsWithSlash (assemble absolute trailing l) = trailing.
Proof.
  intros Hk Habs. destruct l as [|x l].
  - rewrite Habs by done. by destruct trailing.
  - rewrite assemble_cons by done.
    pose proof (join_nonempty (x :: l) ltac:(done) (kept_nonempty _ Hk)) as Hj.
    destruct trailing.
    + rewrite !endsWithSlash_app; [done..|].
      destruct (Js.join "/" (x :: l)); [done|]. by rewrite str_app_cons.
    + rewrite str_app_nil_r, endsWithSlash_app by done.
      by apply endsWithSlash_join.
Qed.

Lemma normalize_nonempty (p : string) : NodePath.normalize p ≠ "".
Proof.
  destruct (decide (p = "")) as [->|Hp]; [done|].
  rewrite normalize_assemble by done. apply assemble_nonempty, run_segments_kept.
Qed.

Lemma isAbsolute_normalize (p : string) :
  NodePath.isAbsolute (NodePath.normalize p) = NodePath.isAbsolute p.
Proof.
  destruct (decide (p = "")) as [->|Hp]; [done|].
  rewrite normalize_assemble by done. apply isAbsolute_assemble, run_segments_kept.
Qed.

Lemma normalize_idempotent (p : string) :
  NodePath.normalize (NodePath.normalize p) = NodePath.normalize p.
Proof.
  destruct (decide (p = "")) as [->|Hp]; [done|].
  rewrite (normalize_assemble (NodePath.normalize p)) by apply normalize_nonempty.
  rewrite isAbsolute_normalize. rewrite (normalize_assemble p) at 2 3 by done.
  pose proof (run_segments_kept (negb (NodePath.isAbsolute p)) p) as Hk.
  rewrite run_segments_assemble by done.
  rewrite run_normalized by (destruct (NodePath.isAbsolute p); auto).
  set (l := reverse (run _ [] (segments p))) in *.
  destruct (decide (l = [] ∧ NodePath.isAbsolute p = true)) as [[-> ->]|Hn].
  - rewrite normalize_assemble by done. by destruct (NodePath.endsWithSlash _).
  - rewrite (normalize_assemble p) by done. fold l.
    rewrite endsWithSlash_assemble; [done..|].
    intros ->. destruct (NodePath.isAbsolute p); [|done]. by destruct Hn.
Qed.

(** Under a directory a relative path and its normal form are the same path. *)
Lemma normalize_under (c q : string) :
  c ≠ "" → q ≠ "" → NodePath.isAbsolute q = false →
  NodePath.normalize (c +:+ "/" +:+ NodePath.normalize q)
  = NodePath.normalize (c +:+ "/" +:+ q).
Proof.
  intros Hc Hq Hrel.
  assert (∀ x, c +:+ "/" +:+ x ≠ "") as Hne.
  { intros x. destruct c; [done|]. by rewrite str_app_cons. }
  assert (∀ x, NodePath.isAbsolute (c +:+ "/" +:+ x) = NodePath.isAbsolute c) as Habs.
  { intros x. by apply startsWith_app_nonempty. }
  assert (∀ x, x ≠ "" →
            NodePath.endsWithSlash (c +:+ "/" +:+ x) = NodePath.endsWithSlash x) as Htr.
  { intros x Hx. rewrite endsWithSlash_app; [|by rewrite str_app_cons].
    by rewrite endsWithSlash_app. }
  assert (∀ x, segments (c +:+ "/" +:+ x) = segments c ++ segments x) as Hseg.
  { intros x. apply splitOn_app. }
  pose proof (run_segments_kept true q) as Hk.
  assert (NodePath.normalize q
          = assemble false (NodePath.endsWithSlash q) (reverse (run true [] (segments q))))
    as HN by (by rewrite normalize_assemble, Hrel).
  pose proof (normalize_nonempty q) as HNne.
  rewrite (normalize_assemble (c +:+ "/" +:+ NodePath.normalize q)) by done.
  rewrite (normalize_assemble (c +:+ "/" +:+ q)) by done.
  rewrite !Habs, !Htr, !Hseg, !run_app by done.
  rewrite HN, run_segments_assemble by done.
  rewrite run_normalized by auto.
  by rewrite endsWithSlash_assemble.
Qed.

End Paths.


(** ** Paths built by [join] *)

Section Join.
Import Props.

Lemma join_path_join (paths : list string) : Core.join paths = NodePath.join paths.
Proof.
  unfold Core.join, NodePath.join.
  destruct (filter _ paths); [done | apply normalize_idempotent].
Qed.

(** X13. A path built by [join] is in normal form: normalizing it again
    changes nothing. So the [normalize] that [join] wraps around [path.join]
    changes nothing either, [path.join] returning normal forms already. *)
Theorem join_returns_normal_forms (paths : list string) :
  NodePath.normalize (Core.join paths) = Core.join paths
  ∧ Core.join paths = NodePath.join paths.
Proof.
  split; [|apply join_path_join].
  unfold Core.join. apply normalize_idempotent.
Qed.

Lemma filter_nonempty_cons (x : string) (l : list string) :
  x ≠ "" → filter (λ a, a ≠ "") (x :: l) = x :: filter (λ a, a ≠ "") l.
Proof. intros Hx. by rewrite filter_cons_True. Qed.

Lemma join_nonempty_parts (paths : list string) :
  filter (λ a, a ≠ "") paths ≠ [] →
  Core.join paths = NodePath.normalize (Js.join "/" (filter (λ a, a ≠ "") paths)).
Proof.
  intros Hne. rewrite join_path_join. unfold NodePath.join.
  by destruct (filter _ paths).
Qed.

(** A relative path built by [join] names, from the working directory, the
    path built by [join] with the working directory in front. *)
Lemma resolve_join (cwd : string) (paths : list string) :
  cwd ≠ "" →
  filter (λ a, a ≠ "") paths ≠ [] →
  NodePath.isAbsolute (Js.join "/" (filter (λ a, a ≠ "") paths)) = false →
  InMemory.resolve cwd (Core.join paths) = Core.join (cwd :: paths).
Proof.
  intros Hcwd Hne Hrel.
  rewrite (join_nonempty_parts (cwd :: paths)) by by rewrite filter_nonempty_cons.
  rewrite (join_nonempty_parts paths) by done.
  rewrite filter_nonempty_cons by done.
  assert (Forall (λ x, x ≠ "") (filter (λ a, a ≠ "") paths)) as Hall.
  { apply Forall_forall. by intros x [? _]%list_elem_of_filter. }
  pose proof (join_nonempty _ Hne Hall) as Hj.
  destruct (filter (λ a, a ≠ "") paths) as [|y l] eqn:Hf; [done|].
  rewrite join_cons_cons. unfold InMemory.resolve.
  rewrite isAbsolute_normalize, Hrel. by apply normalize_under.
Qed.

Lemma outDir_parts_relative (o r : string) (rest : list string) :
  NodePath.isAbsolute o = false → r ≠ "" → NodePath.isAbsolute r = false →
  filter (λ a, a ≠ "") (o :: r :: rest) ≠ []
  ∧ NodePath.isAbsolute (Js.join "/" (filter (λ a, a ≠ "") (o :: r :: rest))) = false.
Proof.
  intros Ho Hr Hrel. destruct (decide (o = "")) as [->|Hne].
  - rewrite filter_cons_False by (by intros H). rewrite filter_nonempty_cons by done.
    split; [done|]. rewrite join_head. unfold NodePath.isAbsolute.
    by rewrite startsWith_app_nonempty.
  - rewrite filter_nonempty_cons by done. split; [done|].
    rewrite join_head. unfold NodePath.isAbsolute. by rewrite startsWith_app_nonempty.
Qed.

(** A joined path with a plain name as its last part: the name is the last
    kept segment and no separator trails. *)
Lemma joined_last (fs : list string) (n : string) :
  slashFree n = true → n ≠ "" → n ≠ "." → n ≠ ".." →
  let J := Js.join "/" (fs ++ [n]) in
  Forall (λ x, x ≠ "") fs →
  J ≠ "" ∧ NodePath.endsWithSlash J = false
  ∧ ∃ l0, reverse (run (negb (NodePath.isAbsolute J)) [] (segments J)) = l0 ++ [n].
Proof.
  intros Hfree Hne Hdot Hup J Hfs.
  assert (∃ L, segments J = L ++ [n] ∧ NodePath.endsWithSlash J = false ∧ J ≠ "")
    as (L & HL & Htr & HJ).
  { unfold J. destruct fs as [|y l].
    - exists []. simpl. split; [by apply (splitOn_slashFree "" n)|].
      split; [by apply endsWithSlash_slashFree | done].
    - exists (segments (Js.join "/" (y :: l))).
      rewrite join_app by done. simpl (Js.join "/" [n]).
      split; [|split].
      + unfold segments.
        change (Js.join "/" (y :: l) +:+ "/" +:+ n)
          with (Js.join "/" (y :: l) +:+ String "/" n).
        by rewrite splitOn_app, (splitOn_slashFree "" n).
      + rewrite endsWithSlash_app; [|by rewrite str_app_cons].
        rewrite endsWithSlash_app by done. by apply endsWithSlash_slashFree.
      + intros Heq. apply (f_equal String.length) in Heq.
        rewrite !str_app_length in Heq. simpl in Heq. lia. }
  split; [done|]. split; [done|].
  exists (reverse (run (negb (NodePath.isAbsolute J)) [] L)).
  rewrite HL, run_app.
  change (run ?a ?st [n]) with (step a st n).
  by rewrite step_kept, reverse_cons.
Qed.

End Join.

(** ** The entry point of the type check *)

Section EntryPoint.
Import Props.

Lemma inMemory_writeFile_overwrite cfg cwd tsNode (file : FileSystem.File)
    (w : gmap string string) :
  FileSystem.overwrite file = true →
  Core.writeFile (InMemory.services cfg cwd tsNode) file w
  = (Success tt,
     <[InMemory.resolve cwd (FileSystem.path file) := FileSystem.content file]> w).
Proof.
  intros Hover. unfold Core.writeFile, Effect.ifE, Effect.flatMap, Effect.succeed. simpl.
  rewrite Hover. by destruct (InMemory.exists_ w _).
Qed.

Lemma inMemory_writeFile_present cfg cwd tsNode (file : FileSystem.File)
    (w : gmap string string) (p : string) :
  is_Some (w !! p) →
  ∃ w', Core.writeFile (InMemory.services cfg cwd tsNode) file w = (Success tt, w')
        ∧ is_Some (w' !! p).
Proof.
  intros Hp. unfold Core.writeFile, Effect.ifE, Effect.flatMap, Effect.succeed. simpl.
  destruct (InMemory.exists_ w _), (FileSystem.overwrite file);
    eexists; (split; [reflexivity|]); try done; by apply lookup_insert_is_Some'; right.
Qed.

Lemma inMemory_writeFiles_present cfg cwd tsNode (files : list FileSystem.File)
    (w : gmap string string) (p : string) :
  is_Some (w !! p) →
  ∃ w', Core.writeFiles (InMemory.services cfg cwd tsNode) files w = (Success tt, w')
        ∧ is_Some (w' !! p).
Proof.
  revert w. induction files as [|file files IH]; intros w Hp.
  - by exists w.
  - destruct (inMemory_writeFile_present cfg cwd tsNode file w p Hp) as (w1 & Hw1 & Hp1).
    destruct (IH w1 Hp1) as (w2 & Hw2 & Hp2).
    exists w2. split; [|done].
    unfold Core.writeFiles, Effect.forEach_, Effect.map, Effect.flatMap in *. simpl.
    unfold Effect.flatMap, Effect.map, Effect.flatMap. rewrite Hw1.
    destruct (Effect.forEach files _ w1) as [[ys|e] w3]; simpl in *; [|done].
    by injection Hw2 as ->.
Qed.

(** X14. With a working directory that is not empty and a relative output
    directory, the entry point that [spawnTsNode] hands to the type checker,
    a path built from the working directory, is the index file that
    [writeExamples] wrote under a path built without it. So, in a file
    system in memory, a type checker that only asks for its entry point to
    exist accepts every run: the writes succeed and the index file is there
    when the checker starts. *)
Theorem type_check_entry_point_is_the_written_index cfg cwd
    (examples : list FileSystem.File) (w : gmap string string) :
  cwd ≠ "" →
  NodePath.isAbsolute (Core.outDir cfg) = false →
  InMemory.resolve cwd (FileSystem.path (Core.getExampleIndex cfg examples))
  = Core.join [cwd; Core.outDir cfg; "examples"; "index.ts"]
  ∧ ∃ w', writeAndCheck (InMemory.services cfg cwd entryPointChecker) examples w
          = (Success tt, w')
          ∧ is_Some (w' !! Core.join [cwd; Core.outDir cfg; "examples"; "index.ts"]).
Proof.
  intros Hcwd Hrel.
  assert (InMemory.resolve cwd (FileSystem.path (Core.getExampleIndex cfg examples))
          = Core.join [cwd; Core.outDir cfg; "examples"; "index.ts"]) as Hpath.
  { destruct (outDir_parts_relative (Core.outDir cfg) "examples" ["index.ts"])
      as [H1 H2]; [done..|].
    by apply resolve_join. }
  split; [done|].
  set (S := InMemory.services cfg cwd entryPointChecker).
  set (entry := Core.join [cwd; Core.outDir cfg; "examples"; "index.ts"]) in *.
  pose proof (inMemory_writeFile_overwrite cfg cwd entryPointChecker
                (Core.getExampleIndex cfg examples) w eq_refl) as Hindex.
  rewrite Hpath in Hindex.
  destruct (inMemory_writeFiles_present cfg cwd entryPointChecker examples
              (<[entry := FileSystem.content (Core.getExampleIndex cfg examples)]> w) entry)
    as (w1 & Hw1 & Hp1).
  { rewrite lookup_insert_eq. by eexists. }
  assert (Core.writeExamples S examples w = (Success tt, w1)) as Hwritten.
  { unfold Core.writeExamples, Core.writeFiles, Effect.forEach_, Effect.map,
      Effect.flatMap in *. simpl.
    unfold Effect.flatMap, Effect.map, Effect.flatMap.
    change (Core.config S) with cfg. fold S in Hindex, Hw1. rewrite Hindex.
    destruct (Effect.forEach examples _ _) as [[ys|e] w3]; simpl in *; [|done].
    by injection Hw1 as ->. }
  destruct (inMemory_writeFile_present cfg cwd entryPointChecker
              (FileSystem.makeFile
                 (Core.join [cwd; Core.outDir cfg; "examples"; "tsconfig.json"])
                 (Core.examplesCompilerOptionsJson cfg) true) w1 entry Hp1)
    as (w2 & Hw2 & Hp2).
  exists w2. split; [|done].
  unfold writeAndCheck, Effect.zipRight, Effect.flatMap. rewrite Hwritten.
  unfold Core.writeTsConfigJson, Core.spawnTsNode, Effect.flatMap. simpl.
  fold S in Hw2. change (Core.config S) with cfg. rewrite Hw2.
  fold entry. unfold entryPointChecker. by destruct Hp2 as [c ->].
Qed.

Lemma type_check_entry_point_witness :
  let examples := candidates Samples.cfg [Samples.classModule] in
  InMemory.resolve "/work" (FileSystem.path (Core.getExampleIndex Samples.cfg examples))
  = Core.join ["/work"; Core.outDir Samples.cfg; "examples"; "index.ts"]
  ∧ ∃ w', writeAndCheck (InMemory.services Samples.cfg "/work" entryPointChecker) examples ∅
          = (Success tt, w')
          ∧ is_Some (w' !! Core.join ["/work"; Core.outDir Samples.cfg; "examples"; "index.ts"]).
Proof.
  apply (type_check_entry_point_is_the_written_index Samples.cfg "/work"
           (candidates Samples.cfg [Samples.classModule]) ∅); done.
Defined.

(** The candidates of the sample are the two examples of its class module. *)
Example type_check_entry_point_sample_candidates :
  map FileSystem.path (candidates Samples.cfg [Samples.classModule])
  = ["docs/examples/src-index.ts-module-index-0.ts";
     "docs/examples/src-index.ts-A-method-m-0.ts"].
Proof. by vm_compute. Qed.

(** With the working directory "/work" and the absolute output directory
    "/docs" the two paths differ: the index file is written under "/docs", the
    type checker is sent under "/work/docs", where no index file is. *)
Example absolute_outDir_entry_point_missing :
  let cfg := {| Core.projectName := "my-lib";
                Core.projectHomepage := "https://github.com/me/my-lib";
                Core.srcDir := "src";
                Core.outDir := "/docs";
                Core.theme := "pmarsceill/just-the-docs";
                Core.enableSearch := true;
                Core.exclude := [];
                Core.examplesCompilerOptionsJson := "{}";
                Core.projectName_pattern := mk_is_Some _ _ eq_refl |} in
  let run := Core.typeCheckExamples (InMemory.services cfg "/work" entryPointChecker)
               [Samples.classModule] ∅ in
  run.1 = Failure (ExecutionError "ts-node" "Cannot find module /work/docs/examples/index.ts")
  ∧ is_Some (run.2 !! "/docs/examples/index.ts")
  ∧ run.2 !! "/work/docs/examples/index.ts" = None.
Proof. vm_compute. split; [done|]. split; [by eexists | done]. Qed.

End EntryPoint.


(** ** The index file of the examples *)

Section IndexFile.
Import Props Domain.

Lemma substring_skip (t s : string) (n : nat) :
  String.substring (String.length t) n (t +:+ s) = String.substring 0 n s.
Proof.
  induction t as [|c t IH]; [by rewrite str_app_nil_l|].
  rewrite str_app_cons. simpl. apply IH.
Qed.

Lemma rev_length (s : string) : String.length (String.rev s) = String.length s.
Proof.
  induction s as [|c s IH]; [done|]. rewrite rev_cons, str_app_length, IH. simpl. lia.
Qed.

(** The scan of [basename] over a suffix that matches: the end of the base
    name is where the suffix begins. *)
Lemma basenameLoop_suffix (ra R : string) (st : NodePath.BasenameScan) :
  ra ≠ "" → slashFree ra = true →
  NodePath.extLeft st = Some ra → NodePath.scan_end st = None →
  (NodePath.firstNonSlashEnd st = None ∨ NodePath.matchedSlash st = false) →
  NodePath.basenameLoop (ra +:+ R) st
  = NodePath.basenameLoop R
      {| NodePath.scan_start := NodePath.scan_start st;
         NodePath.scan_end := Some (String.length R);
         NodePath.matchedSlash := false;
         NodePath.extLeft := None;
         NodePath.firstNonSlashEnd :=
           Some (default (String.length (ra +:+ R)) (NodePath.firstNonSlashEnd st)) |}.
Proof.
  revert st. induction ra as [|c ra IH]; [done|]. intros st _ Hfree Hext Hend Hms.
  simpl in Hfree. apply andb_true_iff in Hfree as [Hc Hfree].
  apply negb_true_iff, bool_decide_eq_false in Hc.
  rewrite str_app_cons. cbn [NodePath.basenameLoop].
  rewrite (bool_decide_eq_false_2 (c = "/"%char)) by done.
  rewrite Hext, (bool_decide_eq_true_2 (c = c)) by done.
  assert (match NodePath.firstNonSlashEnd st with
          | Some _ => NodePath.matchedSlash st
          | None => false
          end = false) as ->.
  { destruct Hms as [->| ->]; [done | by destruct (NodePath.firstNonSlashEnd st)]. }
  assert (match NodePath.firstNonSlashEnd st with
          | Some e => Some e
          | None => Some (String.length (ra +:+ R) + 1)
          end
          = Some (default (String.length (String c (ra +:+ R)))
                    (NodePath.firstNonSlashEnd st))) as ->.
  { destruct (NodePath.firstNonSlashEnd st); simpl; [done | f_equal; lia]. }
  destruct ra as [|c' ra].
  - by rewrite str_app_nil_l.
  - rewrite IH; [by rewrite Hend | done | done | done | done | by right].
Qed.

(** Past the suffix the scan changes nothing until a separator comes. *)
Lemma basenameLoop_plain (r1 R : string) (st : NodePath.BasenameScan) :
  slashFree r1 = true →
  NodePath.extLeft st = None → is_Some (NodePath.firstNonSlashEnd st) →
  NodePath.basenameLoop (r1 +:+ R) st = NodePath.basenameLoop R st.
Proof.
  induction r1 as [|c r1 IH]; [by rewrite str_app_nil_l|]. intros Hfree Hext [e He].
  simpl in Hfree. apply andb_true_iff in Hfree as [Hc Hfree].
  apply negb_true_iff, bool_decide_eq_false in Hc.
  rewrite str_app_cons. cbn [NodePath.basenameLoop].
  rewrite (bool_decide_eq_false_2 (c = "/"%char)) by done.
  rewrite Hext, He.
  destruct st as [start end_ ms ext fnse]. simpl in *. subst ext fnse.
  apply IH; [done | done | by eexists].
Qed.

(** The base name of a path whose last component is a name followed by the
    suffix: the name. *)
Lemma basename_strip (Q stem ext : string) :
  (Q = "" ∨ ∃ Q', Q = Q' +:+ "/") →
  slashFree stem = true → stem ≠ "" → slashFree ext = true → ext ≠ "" →
  NodePath.basename (Q +:+ stem +:+ ext) ext = stem.
Proof.
  intros HQ Hstem Hne Hext Hene. unfold NodePath.basename.
  assert (0 < String.length stem) as Hlen by (destruct stem; [done | simpl; lia]).
  rewrite bool_decide_eq_true_2 by done.
  rewrite bool_decide_eq_true_2 by (rewrite !str_app_length; lia).
  rewrite bool_decide_eq_false_2.
  2:{ intros Heq. apply (f_equal String.length) in Heq.
      rewrite !str_app_length in Heq. lia. }
  cbn [andb].
  rewrite !rev_app, str_app_assoc.
  rewrite basenameLoop_suffix; cbn [NodePath.extLeft NodePath.scan_end
    NodePath.firstNonSlashEnd NodePath.matchedSlash NodePath.scan_start];
    [| by intros Heq; apply Hene; rewrite <- (rev_involutive ext), Heq
     | by rewrite slashFree_rev | done | done | by left].
  rewrite basenameLoop_plain; cbn [NodePath.extLeft NodePath.firstNonSlashEnd];
    [| by rewrite slashFree_rev | done | by eexists].
  destruct HQ as [->|[Q' ->]].
  - cbn [String.rev String.rev_app NodePath.basenameLoop NodePath.scan_start
         NodePath.scan_end NodePath.firstNonSlashEnd].
    rewrite str_app_nil_r, str_app_nil_l, rev_length.
    rewrite bool_decide_eq_false_2 by (intros [= Heq]; lia).
    unfold NodePath.slice. cbn [from_option id].
    replace (String.length stem - 0) with (String.length stem) by lia.
    apply substring_app.
  - rewrite rev_app.
    change (String.rev "/") with "/". rewrite str_app_cons, str_app_nil_l.
    cbn [NodePath.basenameLoop NodePath.matchedSlash NodePath.scan_start
         NodePath.scan_end NodePath.firstNonSlashEnd].
    rewrite (bool_decide_eq_true_2 ("/"%char = "/"%char)) by done.
    cbn [NodePath.scan_start NodePath.scan_end NodePath.firstNonSlashEnd].
    rewrite str_app_length, !rev_length. cbn [String.length]. rewrite !rev_length.
    rewrite bool_decide_eq_false_2 by (intros [= Heq]; lia).
    unfold NodePath.slice. cbn [from_option id].
    replace (String.length Q' + 1)
      with (String.length (Q' +:+ "/")) by (rewrite str_app_length; simpl; lia).
    rewrite substring_skip.
    replace (String.length stem + S (String.length Q') - String.length (Q' +:+ "/"))
      with (String.length stem) by (rewrite str_app_length; simpl; lia).
    apply substring_app.
Qed.

(** A joined path whose last part is a plain name ends with that name, at
    the start of the path or after a separator. *)
Lemma join_last_text (paths : list string) (n : string) :
  slashFree n = true → n ≠ "" → n ≠ "." → n ≠ ".." →
  ∃ Q, Core.join (paths ++ [n]) = Q +:+ n ∧ (Q = "" ∨ ∃ Q', Q = Q' +:+ "/").
Proof.
  intros Hfree Hne Hdot Hup.
  set (fs := filter (λ a, a ≠ "") paths).
  assert (Forall (λ x, x ≠ "") fs) as Hfs.
  { apply Forall_forall. by intros x [? _]%list_elem_of_filter. }
  assert (filter (λ a, a ≠ "") (paths ++ [n]) = fs ++ [n]) as Hf.
  { by rewrite filter_app, (filter_nonempty_cons n []). }
  rewrite join_nonempty_parts by (rewrite Hf; by destruct fs).
  rewrite Hf.
  destruct (joined_last fs n Hfree Hne Hdot Hup Hfs) as (HJ & Htr & l0 & Hl).
  set (J := Js.join "/" (fs ++ [n])) in *.
  pose proof (run_segments_kept (negb (NodePath.isAbsolute J)) J) as Hk.
  rewrite normalize_assemble, Htr, Hl by done. rewrite Hl in Hk.
  rewrite assemble_cons by (done || by destruct l0). rewrite str_app_nil_r.
  destruct l0 as [|x l0].
  - simpl app. simpl Js.join. destruct (NodePath.isAbsolute J).
    + exists "/". split; [done|]. right. by exists "".
    + exists "". split; [done|]. by left.
  - rewrite (join_app "/" (x :: l0) [n]) by done. simpl (Js.join "/" [n]).
    exists ((if NodePath.isAbsolute J then "/" else "") +:+ Js.join "/" (x :: l0) +:+ "/").
    split; [by rewrite !str_app_assoc|]. right.
    exists ((if NodePath.isAbsolute J then "/" else "") +:+ Js.join "/" (x :: l0)).
    by rewrite !str_app_assoc.
Qed.

Lemma slashFree_digits (d : Decimal.uint) : slashFree (NilEmpty.string_of_uint d) = true.
Proof. induction d; simpl; done. Qed.

Lemma slashFree_ofNat (i : nat) : slashFree (Js.ofNat i) = true.
Proof.
  unfold Js.ofNat, NilZero.string_of_uint.
  destruct (Nat.to_uint i) eqn:Hd; [done|..]; rewrite <- Hd; apply slashFree_digits.
Qed.

Lemma map_imap {A B C} (f : B → C) (g : nat → A → B) (l : list A) :
  map f (imap g l) = imap (λ i x, f (g i x)) l.
Proof.
  revert g. induction l as [|x l IH]; intros g; [done|]. simpl. by rewrite IH.
Qed.

Lemma handleImports_paths cfg (files : list FileSystem.File) :
  map FileSystem.path (Core.handleImports cfg files) = map FileSystem.path files.
Proof.
  unfold Core.handleImports. rewrite map_map. by apply map_ext.
Qed.

Lemma getExampleIndex_paths cfg (files1 files2 : list FileSystem.File) :
  map FileSystem.path files1 = map FileSystem.path files2 →
  Core.getExampleIndex cfg files1 = Core.getExampleIndex cfg files2.
Proof.
  intros Hp. unfold Core.getExampleIndex. do 3 f_equal.
  rewrite <- (map_map FileSystem.path
                (λ p, "import './" +:+ NodePath.basename p ".ts" +:+ "'") files1).
  rewrite <- (map_map FileSystem.path
                (λ p, "import './" +:+ NodePath.basename p ".ts" +:+ "'") files2).
  by rewrite Hp.
Qed.

(** X15. The index file imports each example file under its own name: for
    the examples of a documentable whose name, role tag and module prefix
    hold no separator, the lines of the index are the imports of the file
    names that [getDocumentableExamples] gave, without their extension, in
    the order of the examples; rewriting the imports of the examples does
    not change the index. *)
Theorem index_imports_the_example_files cfg (prefix id : string) (d : Documentable) :
  slashFree prefix = true → slashFree id = true → slashFree (name d) = true →
  FileSystem.content
    (Core.getExampleIndex cfg
       (Core.handleImports cfg (Core.getDocumentableExamples cfg prefix id d)))
  = Js.join Js.nl
      (imap (λ i _, "import './" +:+ prefix +:+ "-" +:+ id +:+ "-" +:+ name d +:+ "-"
                    +:+ Js.ofNat i +:+ "'")
            (examples d))
    +:+ Js.nl.
Proof.
  intros Hprefix Hid Hname.
  rewrite (getExampleIndex_paths cfg _ (Core.getDocumentableExamples cfg prefix id d))
    by apply handleImports_paths.
  unfold Core.getExampleIndex, Core.getDocumentableExamples. simpl FileSystem.content.
  rewrite map_imap. do 2 f_equal. apply imap_ext. intros i x _. simpl.
  set (stem := prefix +:+ "-" +:+ id +:+ "-" +:+ name d +:+ "-" +:+ Js.ofNat i).
  assert (Core.exampleFileName prefix id (name d) i = stem +:+ ".ts") as ->.
  { unfold Core.exampleFileName, stem. by rewrite !str_app_assoc. }
  assert (slashFree stem = true) as Hstem.
  { unfold stem. rewrite !slashFree_app, Hprefix, Hid, Hname, slashFree_ofNat. done. }
  assert (3 < String.length (stem +:+ ".ts")) as Hlen.
  { unfold stem. rewrite !str_app_length. simpl. lia. }
  change [Core.outDir cfg; "examples"; stem +:+ ".ts"]
    with ([Core.outDir cfg; "examples"] ++ [stem +:+ ".ts"]).
  destruct (join_last_text [Core.outDir cfg; "examples"] (stem +:+ ".ts"))
    as (Q & -> & HQ).
  - by rewrite slashFree_app, Hstem.
  - intros Heq. rewrite Heq in Hlen. simpl in Hlen. lia.
  - intros Heq. rewrite Heq in Hlen. simpl in Hlen. lia.
  - intros Heq. rewrite Heq in Hlen. simpl in Hlen. lia.
  - rewrite basename_strip; [unfold stem; by rewrite !str_app_assoc | done..| |done |done].
    intros Heq. unfold stem in Heq. apply (f_equal String.length) in Heq.
    rewrite !str_app_length in Heq. simpl in Heq. lia.
Qed.

Lemma index_imports_the_example_files_witness :
  FileSystem.content
    (Core.getExampleIndex Samples.cfg
       (Core.handleImports Samples.cfg
          (Core.getDocumentableExamples Samples.cfg "src-a.ts" "function"
             (Samples.doc "f" ["f(1)"; "f(2)"]))))
  = Js.join Js.nl
      (imap (λ i _, "import './" +:+ "src-a.ts" +:+ "-" +:+ "function" +:+ "-"
                    +:+ name (Samples.doc "f" ["f(1)"; "f(2)"]) +:+ "-"
                    +:+ Js.ofNat i +:+ "'")
            (examples (Samples.doc "f" ["f(1)"; "f(2)"])))
    +:+ Js.nl.
Proof.
  apply (index_imports_the_example_files Samples.cfg "src-a.ts" "function"
           (Samples.doc "f" ["f(1)"; "f(2)"])); reflexivity.
Defined.

End IndexFile.


(** ** What a successful type check leaves *)

Section WrittenFiles.
Import Props Domain.

(** A plain name joined to a path that ends in a plain name is appended
    to it. *)
Lemma join_snoc (paths : list string) (m n : string) :
  slashFree m = true → m ≠ "" → m ≠ "." → m ≠ ".." →
  slashFree n = true → n ≠ "" → n ≠ "." → n ≠ ".." →
  Core.join (paths ++ [m; n]) = Core.join (paths ++ [m]) +:+ "/" +:+ n.
Proof.
  intros Hm1 Hm2 Hm3 Hm4 Hn1 Hn2 Hn3 Hn4.
  set (fs := filter (λ a, a ≠ "") paths).
  assert (Forall (λ x, x ≠ "") fs) as Hfs.
  { apply Forall_forall. by intros x [? _]%list_elem_of_filter. }
  assert (filter (λ a, a ≠ "") (paths ++ [m]) = fs ++ [m]) as Hf1.
  { by rewrite filter_app, (filter_nonempty_cons m []). }
  assert (filter (λ a, a ≠ "") (paths ++ [m; n]) = (fs ++ [m]) ++ [n]) as Hf2.
  { rewrite filter_app, (filter_nonempty_cons m [n]), (filter_nonempty_cons n []) by done.
    by rewrite <- app_assoc. }
  rewrite (join_nonempty_parts (paths ++ [m; n])) by (rewrite Hf2; by destruct fs).
  rewrite (join_nonempty_parts (paths ++ [m])) by (rewrite Hf1; by destruct fs).
  rewrite Hf1, Hf2.
  destruct (joined_last fs m Hm1 Hm2 Hm3 Hm4 Hfs) as (HJ & Htr & l0 & Hl0).
  assert (Forall (λ x, x ≠ "") (fs ++ [m])) as Hfsm.
  { apply Forall_app. split; [done | by constructor]. }
  destruct (joined_last (fs ++ [m]) n Hn1 Hn2 Hn3 Hn4 Hfsm) as (HJ' & Htr' & l1 & Hl1).
  set (J := Js.join "/" (fs ++ [m])) in *.
  assert (Js.join "/" ((fs ++ [m]) ++ [n]) = J +:+ "/" +:+ n) as HJn.
  { rewrite join_app; [done | by destruct fs | done]. }
  rewrite HJn in *.
  assert (NodePath.isAbsolute (J +:+ "/" +:+ n) = NodePath.isAbsolute J) as Habs
    by by apply startsWith_app_nonempty.
  assert (segments (J +:+ "/" +:+ n) = segments J ++ [n]) as Hseg.
  { unfold segments. change (J +:+ "/" +:+ n) with (J +:+ String "/" n).
    by rewrite splitOn_app, (splitOn_slashFree "" n). }
  rewrite (normalize_assemble (J +:+ "/" +:+ n)), (normalize_assemble J) by done.
  rewrite Habs, Htr, Htr', Hseg, run_app.
  change (run ?a ?st [n]) with (step a st n).
  rewrite step_kept, reverse_cons, Hl0 by done.
  pose proof (run_segments_kept (negb (NodePath.isAbsolute J)) J) as Hk.
  rewrite Hl0 in Hk.
  assert (Forall keptSegment ((l0 ++ [m]) ++ [n])) as Hk'.
  { apply Forall_app. split; [done|]. by repeat constructor. }
  rewrite !assemble_cons by (done || by destruct l0).
  rewrite (join_app "/" (l0 ++ [m]) [n]) by (done || by destruct l0).
  simpl (Js.join "/" [n]). by rewrite !str_app_nil_r, !str_app_assoc.
Qed.

Lemma isUnder_child (dir n : string) : InMemory.isUnder dir (dir +:+ "/" +:+ n) = true.
Proof.
  unfold InMemory.isUnder. apply orb_true_iff. right.
  apply startsWith_spec. exists n. by rewrite str_app_assoc.
Qed.

Lemma resolve_absolute_join (cwd : string) (paths : list string) :
  NodePath.isAbsolute cwd = true →
  InMemory.resolve cwd (Core.join (cwd :: paths)) = Core.join (cwd :: paths).
Proof.
  intros Habs. unfold InMemory.resolve, Core.join at 1.
  rewrite isAbsolute_normalize.
  assert (NodePath.isAbsolute (NodePath.join (cwd :: paths)) = true) as ->.
  { assert (cwd ≠ "") as Hne by (by intros ->).
    unfold NodePath.join. rewrite filter_nonempty_cons by done.
    rewrite isAbsolute_normalize, join_head. unfold NodePath.isAbsolute.
    by rewrite startsWith_app_nonempty. }
  unfold Core.join. by rewrite !normalize_idempotent.
Qed.

(** The files of a run are inside the examples directory. *)
Lemma written_under_examplesDir cfg (cwd n : string) :
  NodePath.isAbsolute cwd = true →
  NodePath.isAbsolute (Core.outDir cfg) = false →
  slashFree n = true → n ≠ "" → n ≠ "." → n ≠ ".." →
  InMemory.resolve cwd (Core.join [Core.outDir cfg; "examples"; n])
  = InMemory.resolve cwd (Core.join [Core.outDir cfg; "examples"]) +:+ "/" +:+ n
  ∧ InMemory.resolve cwd (Core.join [cwd; Core.outDir cfg; "examples"; n])
    = InMemory.resolve cwd (Core.join [Core.outDir cfg; "examples"]) +:+ "/" +:+ n.
Proof.
  intros Hcwd Hrel Hn1 Hn2 Hn3 Hn4.
  assert (cwd ≠ "") as Hne by (by intros ->).
  destruct (outDir_parts_relative (Core.outDir cfg) "examples" [n]) as [H1 H2]; [done..|].
  destruct (outDir_parts_relative (Core.outDir cfg) "examples" []) as [H3 H4]; [done..|].
  rewrite resolve_absolute_join by done.
  rewrite !resolve_join by done.
  split; by apply (join_snoc [cwd; Core.outDir cfg] "examples" n).
Qed.

(** X16. With an absolute working directory and a relative output
    directory, a run of [typeCheckExamples] that succeeds leaves, in a file
    system in memory, no file of the examples directory, whichever way its
    path was built: not a file written under [join(outDir, "examples", n)],
    as the index and the examples are, and not a file written under
    [join(cwd, outDir, "examples", n)], as [tsconfig.json] is. *)
Theorem successful_type_check_leaves_no_written_file cfg cwd tsNode
    (ms : list Module) (w w' : gmap string string) (n : string) :
  NodePath.isAbsolute cwd = true →
  NodePath.isAbsolute (Core.outDir cfg) = false →
  slashFree n = true → n ≠ "" → n ≠ "." → n ≠ ".." →
  Core.typeCheckExamples (InMemory.services cfg cwd tsNode) ms w = (Success tt, w') →
  w' !! InMemory.resolve cwd (Core.join [Core.outDir cfg; "examples"; n]) = None
  ∧ w' !! InMemory.resolve cwd (Core.join [cwd; Core.outDir cfg; "examples"; n]) = None.
Proof.
  intros Hcwd Hrel Hn1 Hn2 Hn3 Hn4 Hrun.
  set (S := InMemory.services cfg cwd tsNode) in *.
  assert (∃ w1, Core.cleanExamples S w1 = (Success tt, w')) as [w1 Hclean].
  { destruct (decide (candidates (Core.config S) ms = [])) as [He|Hne].
    - rewrite typeCheckExamples_empty in Hrun by done. by exists w.
    - rewrite typeCheckExamples_nonempty in Hrun by done.
      unfold Effect.zipRight, Effect.flatMap in Hrun.
      destruct (writeAndCheck S _ w) as [[[]|e] w1]; [|done]. by exists w1. }
  destruct (written_under_examplesDir cfg cwd n) as [-> ->]; [done..|].
  unfold Core.cleanExamples, Core.examplesDir in Hclean. simpl in Hclean.
  injection Hclean as <-.
  assert (∀ k, InMemory.isUnder
                 (InMemory.resolve cwd (Core.join [Core.outDir cfg; "examples"])) k = true →
               filter (λ kv : string * string,
                         InMemory.isUnder
                           (InMemory.resolve cwd (Core.join [Core.outDir cfg; "examples"]))
                           kv.1 = false) w1 !! k = None) as Hgone.
  { intros k Hk. apply map_lookup_filter_None_2. right. intros x _. simpl. by rewrite Hk. }
  split; apply Hgone, isUnder_child.
Qed.

Lemma successful_type_check_leaves_no_written_file_witness :
  let w' := (Core.typeCheckExamples Samples.acceptingServices [Samples.classModule] ∅).2 in
  w' !! InMemory.resolve "/work"
          (Core.join [Core.outDir Samples.cfg; "examples"; "src-index.ts-A-method-m-0.ts"])
  = None
  ∧ w' !! InMemory.resolve "/work"
            (Core.join ["/work"; Core.outDir Samples.cfg; "examples";
                        "src-index.ts-A-method-m-0.ts"])
    = None.
Proof.
  apply (successful_type_check_leaves_no_written_file Samples.cfg "/work" (λ _ _, None)
           [Samples.classModule] ∅);
    [reflexivity | reflexivity | reflexivity | done | done | done |].
  apply injective_projections; [by vm_compute | reflexivity].
Defined.

(** The sample run writes the file of the witness before the type check: it
    is there when the check is the step that fails. *)
Example sample_example_file_written :
  (Core.typeCheckExamples Samples.rejectingServices [Samples.classModule] ∅).2
  !! InMemory.resolve "/work"
       (Core.join [Core.outDir Samples.cfg; "examples"; "src-index.ts-A-method-m-0.ts"])
  = Some ("new A().m()" +:+ Js.nl).
Proof. by vm_compute. Qed.

(** With the working directory "/work" and the absolute output directory
    "/docs" the compiler configuration is written outside the directory that
    is removed, and stays after a successful run. *)
Example absolute_outDir_tsconfig_stays :
  let cfg := {| Core.projectName := "my-lib";
                Core.projectHomepage := "https://github.com/me/my-lib";
                Core.srcDir := "src";
                Core.outDir := "/docs";
                Core.theme := "pmarsceill/just-the-docs";
                Core.enableSearch := true;
                Core.exclude := [];
                Core.examplesCompilerOptionsJson := "{}";
                Core.projectName_pattern := mk_is_Some _ _ eq_refl |} in
  let run := Core.typeCheckExamples (InMemory.services cfg "/work" (λ _ _, None))
               [Samples.classModule] ∅ in
  run.1 = Success tt
  ∧ run.2 !! "/work/docs/examples/tsconfig.json" = Some "{}"
  ∧ run.2 !! "/docs/examples/index.ts" = None.
Proof. by vm_compute. Qed.

End WrittenFiles.
